(** * easydist pipeline-parallel runtime: a shallow embedding

    The development follows [easydist/torch/experimental/pp/runtime.py]
    and [easydist/torch/experimental/pp/utils.py]:

    - [OneToOneMap]: the bijective name map of utils.py;
    - [CommPlan]: [_create_send_info] and [_create_recv_info];
    - [Schedule]: [ScheduleGPipe] and [ScheduleDAPPLE] over the
      [RuntimeMixin] interface, and a stage that records the calls;
    - [PipelineStage]: the runtime state and the primitives of the stage;
    - [RecvBuffers]: [collect_kwargs] with tensors as shared objects.

    Python dictionaries are finite maps ([gmap]) where only their contents
    matter and association lists where insertion order is observable;
    exceptions are an explicit result type.  The compiled callables, the
    microbatch library and the transport are parameters. *)

From Stdlib Require Import ZArith Lia Sorting.Sorted Sorting.Permutation.
From Stdlib Require OrderedTypeEx.
From stdpp Require Import gmap strings list fin_maps sorting.

Local Open Scope string_scope.
Local Open Scope list_scope.

(** ** Exceptions *)

Inductive exn : Type :=
| AssertionError
| KeyError
| IndexError
| TypeError
| AttributeError
| RuntimeError.

Inductive result (A : Type) : Type :=
| Ok (a : A)
| Raise (e : exn).
Arguments Ok {A} a.
Arguments Raise {A} e.

Definition rbind {A B} (m : result A) (k : A -> result B) : result B :=
  match m with
  | Ok a => k a
  | Raise e => Raise e
  end.

#[global] Instance result_ret : MRet result := fun _ a => Ok a.
#[global] Instance result_bind : MBind result := fun _ _ k m => rbind m k.

Lemma bind_Ok {A B} (a : A) (k : A -> result B) : Ok a ≫= k = k a.
Proof. reflexivity. Qed.

Lemma bind_Ok_inv {A B} (m : result A) (k : A -> result B) (b : B) :
  m ≫= k = Ok b -> exists a, m = Ok a /\ k a = Ok b.
Proof. destruct m as [a|e]; [|discriminate]. intros H. by exists a. Qed.

(** [d[k]] on a dictionary: [KeyError] when the key is absent. *)
Definition getitem {V} (d : gmap string V) (k : string) : result V :=
  match d !! k with
  | Some v => Ok v
  | None => Raise KeyError
  end.

(** ** utils.py: [OneToOneMap] *)

Module OneToOneMap.

(** The two dictionaries [_map] and [_inv].  Keys and values live in one
    name space: [add] tests the value for membership in [_map]. *)
Record t : Type := mk { _map : gmap string string; _inv : gmap string string }.

Definition empty : t := {| _map := ∅; _inv := ∅ |}.

Definition contains (d : gmap string string) (k : string) : bool :=
  bool_decide (is_Some (d !! k)).

Definition get (m : t) (key : string) : result string := getitem (_map m) key.

Definition inv_get (m : t) (key : string) : result string := getitem (_inv m) key.

(** [if key in self._map or value in self._map: raise RuntimeError] *)
Definition add (m : t) (key value : string) : result t :=
  if contains (_map m) key || contains (_map m) value
  then Raise RuntimeError
  else Ok {| _map := <[key := value]> (_map m);
             _inv := <[value := key]> (_inv m) |}.

Definition inverse (m : t) : t := {| _map := _inv m; _inv := _map m |}.

(** [value] takes part in the mapping as a value. *)
Definition is_value (m : t) (value : string) : Prop :=
  exists k, _map m !! k = Some value.

(** [from_dict], on the items of the dictionary in order. *)
Fixpoint from_items (items : list (string * string)) (m : t) : result t :=
  match items with
  | [] => Ok m
  | (k, v) :: rest => rbind (add m k v) (from_items rest)
  end.

Lemma contains_true d k : contains d k = true <-> is_Some (d !! k).
Proof. unfold contains. apply bool_decide_eq_true. Qed.

Lemma add_key_collision m key value :
  is_Some (_map m !! key) -> add m key value = Raise RuntimeError.
Proof.
  intros H. unfold add.
  apply contains_true in H. by rewrite H.
Qed.

Lemma add_fresh m key value :
  _map m !! key = None -> _map m !! value = None ->
  add m key value = Ok {| _map := <[key := value]> (_map m);
                          _inv := <[value := key]> (_inv m) |}.
Proof.
  intros Hk Hv. unfold add, contains.
  rewrite !bool_decide_eq_false_2; [done| |]; rewrite ?Hk, ?Hv; by intros [? ?].
Qed.

(** C4: on a fresh map, [add "a" "x"] followed by [add "b" "x"] does not
    raise: the guard looks the value up among the keys of [_map], where
    ["x"] is absent, so the second call is accepted, ["x"] is then the
    value of two keys and [_inv] forgets ["a"]. *)
Theorem add_value_collision_accepted :
  exists m1 m2,
    add empty "a" "x" = Ok m1 /\
    is_value m1 "x" /\
    add m1 "b" "x" = Ok m2 /\
    get m2 "a" = Ok "x" /\ get m2 "b" = Ok "x" /\ inv_get m2 "x" = Ok "b".
Proof.
  eexists _, _. split; [reflexivity|].
  split; [exists "a"; reflexivity|].
  split; [reflexivity|].
  repeat split; reflexivity.
Qed.

End OneToOneMap.

(** ** runtime.py: placeholders *)

(** [StageKwargPlaceholder] and [RecevPlaceholder]; [B] is what stands for
    the receive buffer. *)
Inductive Placeholder (B : Type) : Type :=
| StageKwargPlaceholder (input_name : string)
| RecevPlaceholder (input_name : string) (source : Z) (buffer : B).
Arguments StageKwargPlaceholder {B} input_name.
Arguments RecevPlaceholder {B} input_name source buffer.

Definition input_name {B} (ph : Placeholder B) : string :=
  match ph with
  | StageKwargPlaceholder n => n
  | RecevPlaceholder n _ _ => n
  end.

(** [isinstance(ph, RecevPlaceholder)] *)
Definition is_recev {B} (ph : Placeholder B) : bool :=
  match ph with
  | StageKwargPlaceholder _ => false
  | RecevPlaceholder _ _ _ => true
  end.

(** ** runtime.py: the communication plan *)

Module CommPlan.

(** Sort keys are tuples [(int, str)], compared as Python compares
    tuples: first components, then the strings by code points. *)
Definition key : Type := Z * string.

Definition key_ltb (a b : key) : bool :=
  if (a.1 <? b.1)%Z then true
  else if (a.1 =? b.1)%Z then String.ltb a.2 b.2
  else false.

Definition key_le (a b : key) : Prop := key_ltb b a = false.

Definition str_le (a b : string) : Prop := String.ltb b a = false.

(** [list.sort(key=keyf)]: a stable sort, here by insertion from the
    right, an element going in front of the first one that is not
    smaller. *)
Section Sort.
Context {A : Type} (keyf : A -> key).

Fixpoint insert_by_key (x : A) (l : list A) : list A :=
  match l with
  | [] => [x]
  | y :: l' =>
      if key_ltb (keyf y) (keyf x) then y :: insert_by_key x l'
      else x :: y :: l'
  end.

Definition sort_by_key (l : list A) : list A := foldr insert_by_key [] l.
End Sort.

(** [defaultdict(list)] as an association list in insertion order of
    its keys; [dd_append d k v] is [d[k].append(v)]. *)
Fixpoint dd_append {V} (d : list (Z * list V)) (k : Z) (v : V)
  : list (Z * list V) :=
  match d with
  | [] => [(k, [v])]
  | (k', vs) :: d' =>
      if (k =? k')%Z then (k', vs ++ [v]) :: d'
      else (k', vs) :: dd_append d' k v
  end.

Fixpoint dd_get {V} (d : list (Z * list V)) (k : Z) : list V :=
  match d with
  | [] => []
  | (k', vs) :: d' => if (k =? k')%Z then vs else dd_get d' k
  end.

(** A user of the stage node: [operator.getitem(node, out_str)], with the
    [meta['stage_idx']] of each of its own users. *)
Record getitem_user : Type :=
  { out_str : string; gi_users : list Z }.

Definition send_key (is_forward : bool) (x : Z * string) : key :=
  if is_forward then (x.1, x.2) else ((- x.1)%Z, x.2).

Definition send_candidates (users : list getitem_user) : list (Z * string) :=
  flat_map (fun user => map (fun dst_rank => (dst_rank, out_str user))
                            (gi_users user)) users.

Definition _create_send_info (users : list getitem_user) (is_forward : bool)
  : list (Z * list string) :=
  let to_sort := sort_by_key (send_key is_forward) (send_candidates users) in
  foldl (fun info x => dd_append info x.1 x.2) [] to_sort.

Section Recv.
(** [E] is the example value kept in [node_metas]; the buffer of a
    placeholder is made from it.  [get_global_rank] is
    [dist.get_global_rank(self.pp_group, _)], the identity when there
    is no group. *)
Context {E : Type} (get_global_rank : Z -> Z).

(** A value of [node.kwargs]: [op == "placeholder"], [name], and
    [args[0].meta['stage_idx']]. *)
Record gi_input : Type :=
  { op_placeholder : bool; name : string; src_stage : Z }.

Definition recv_key (is_forward : bool) (x : Z * string * option E) : key :=
  if is_forward then (x.1.1, x.1.2) else ((- x.1.1)%Z, x.1.2).

Fixpoint recv_candidates (node_metas : gmap string E)
    (kwargs : list gi_input) : result (list (Z * string * option E)) :=
  match kwargs with
  | [] => Ok []
  | gi :: rest =>
      if op_placeholder gi then
        cs ← recv_candidates node_metas rest;
        mret (((-1)%Z, name gi, None) :: cs)
      else
        example_value ← getitem node_metas (name gi);
        cs ← recv_candidates node_metas rest;
        mret ((get_global_rank (src_stage gi), name gi, Some example_value) :: cs)
  end.

Definition recv_step (is_forward : bool)
    (info : result (list (Z * list (Placeholder (option E)))))
    (x : Z * string * option E)
  : result (list (Z * list (Placeholder (option E)))) :=
  info ← info;
  if (x.1.1 =? -1)%Z then
    if is_forward then mret (dd_append info 0%Z (StageKwargPlaceholder x.1.2))
    else Raise AssertionError
  else mret (dd_append info x.1.1 (RecevPlaceholder x.1.2 x.1.1 x.2)).

Definition _create_recv_info (node_metas : gmap string E)
    (kwargs : list gi_input) (is_forward : bool)
  : result (list (Z * list (Placeholder (option E)))) :=
  to_sort ← recv_candidates node_metas kwargs;
  foldl (recv_step is_forward) (Ok [])
        (sort_by_key (recv_key is_forward) to_sort).

(** The names a stage posts receives for, peer by peer
    ([_create_recv_ops] keeps the [RecevPlaceholder]s, in order). *)
Definition recv_names (phs : list (Placeholder (option E))) : list string :=
  input_name <$> filter (fun ph => is_recev ph = true) phs.
End Recv.

(** *** The order on keys *)

Lemma str_ltb_lt a b : String.ltb a b = true <-> OrderedTypeEx.String_as_OT.lt a b.
Proof.
  rewrite <- OrderedTypeEx.String_as_OT.cmp_lt. unfold String.ltb, OrderedTypeEx.String_as_OT.cmp.
  destruct (String.compare a b); intuition congruence.
Qed.

Lemma str_le_alt a b : str_le a b <-> a = b \/ OrderedTypeEx.String_as_OT.lt a b.
Proof.
  unfold str_le. rewrite <- OrderedTypeEx.String_as_OT.cmp_lt, <- OrderedTypeEx.String_as_OT.cmp_eq.
  unfold String.ltb, OrderedTypeEx.String_as_OT.cmp.
  rewrite (String.compare_antisym a b).
  destruct (String.compare b a); simpl; intuition congruence.
Qed.

#[export] Instance str_le_refl : Reflexive str_le.
Proof. intros a. apply str_le_alt. by left. Qed.

#[export] Instance str_le_trans : Transitive str_le.
Proof.
  intros a b c Hab Hbc. apply str_le_alt.
  apply str_le_alt in Hab as [->|Hab]; apply str_le_alt in Hbc as [->|Hbc];
    eauto using OrderedTypeEx.String_as_OT.lt_trans.
Qed.

#[export] Instance str_le_antisymm : AntiSymm (=) str_le.
Proof.
  intros a b Hab Hba.
  apply str_le_alt in Hab as [->|Hab]; apply str_le_alt in Hba as [Hba|Hba];
    try done.
  exfalso. eapply OrderedTypeEx.String_as_OT.lt_not_eq;
    [exact (OrderedTypeEx.String_as_OT.lt_trans _ _ _ Hab Hba)|reflexivity].
Qed.

Lemma str_le_total a b : str_le a b \/ str_le b a.
Proof.
  unfold str_le, String.ltb. rewrite (String.compare_antisym a b).
  destruct (String.compare b a); simpl; auto.
Qed.

Lemma key_le_alt (a b : key) :
  key_le a b <-> (a.1 < b.1)%Z \/ (a.1 = b.1 /\ str_le a.2 b.2).
Proof.
  unfold key_le, key_ltb, str_le.
  destruct (Z.ltb_spec b.1 a.1); [intuition (try lia; try congruence)|].
  destruct (Z.eqb_spec b.1 a.1); [intuition (try lia; try congruence)|].
  intuition (try lia; try congruence).
Qed.

#[export] Instance key_le_trans : Transitive key_le.
Proof.
  intros a b c Hab Hbc. apply key_le_alt.
  apply key_le_alt in Hab as [?|[? Hab]];
    apply key_le_alt in Hbc as [?|[? Hbc]]; try (left; lia).
  right. split; [lia|]. by etrans.
Qed.

Lemma key_le_total a b : key_le a b \/ key_le b a.
Proof.
  rewrite !key_le_alt.
  destruct (Z.lt_trichotomy a.1 b.1) as [?|[?|?]]; auto.
  destruct (str_le_total a.2 b.2); auto.
Qed.

(** *** The sort *)

Section SortFacts.
Context {A : Type} (keyf : A -> key).

Definition le_by (x y : A) : Prop := key_le (keyf x) (keyf y).

#[local] Instance le_by_trans : Transitive le_by.
Proof. intros x y z. unfold le_by. apply key_le_trans. Qed.

Lemma insert_by_key_perm x l : insert_by_key keyf x l ≡ₚ x :: l.
Proof.
  induction l as [|y l IH]; simpl; [done|].
  destruct (key_ltb (keyf y) (keyf x)); [|done].
  rewrite IH. apply perm_swap.
Qed.

Lemma sort_by_key_perm l : sort_by_key keyf l ≡ₚ l.
Proof.
  induction l as [|x l IH]; simpl; [done|].
  unfold sort_by_key in *. simpl. by rewrite insert_by_key_perm, IH.
Qed.

Lemma insert_by_key_HdRel z x l :
  le_by z x -> HdRel le_by z l -> HdRel le_by z (insert_by_key keyf x l).
Proof.
  intros Hzx Hl. destruct l as [|y l]; simpl; [by constructor|].
  destruct (key_ltb (keyf y) (keyf x)); constructor; [by inv Hl|done].
Qed.

Lemma insert_by_key_sorted x l :
  Sorted le_by l -> Sorted le_by (insert_by_key keyf x l).
Proof.
  induction 1 as [|y l Hl IH Hy]; simpl; [by repeat constructor|].
  destruct (key_ltb (keyf y) (keyf x)) eqn:Hyx.
  - constructor; [done|]. apply insert_by_key_HdRel; [|done].
    unfold le_by. destruct (key_le_total (keyf y) (keyf x)) as [?|Hxy]; [done|].
    unfold key_le in Hxy. congruence.
  - constructor; [by constructor|]. constructor. exact Hyx.
Qed.

Lemma sort_by_key_sorted l : StronglySorted le_by (sort_by_key keyf l).
Proof.
  apply Sorted_StronglySorted; [apply _|].
  induction l as [|x l IH]; [constructor|].
  apply insert_by_key_sorted, IH.
Qed.
End SortFacts.

(** *** Grouping by peer *)

Lemma dd_get_append {V} (d : list (Z * list V)) k v q :
  dd_get (dd_append d k v) q =
  if (q =? k)%Z then dd_get d q ++ [v] else dd_get d q.
Proof.
  induction d as [|[k' vs] d IH]; simpl.
  - destruct (Z.eqb_spec q k); done.
  - destruct (Z.eqb_spec k k') as [->|Hk]; simpl.
    + destruct (Z.eqb_spec q k'); done.
    + destruct (Z.eqb_spec q k') as [->|Hq]; [|apply IH].
      destruct (Z.eqb_spec k' k); [congruence|done].
Qed.

Lemma dd_get_foldl_append {A V} (rk : A -> Z) (val : A -> V) l d q :
  dd_get (foldl (fun info x => dd_append info (rk x) (val x)) d l) q =
  dd_get d q ++ (val <$> filter (fun x => rk x = q) l).
Proof.
  revert d. induction l as [|x l IH]; intros d; simpl.
  - by rewrite app_nil_r.
  - rewrite IH, dd_get_append, filter_cons.
    destruct (Z.eqb_spec q (rk x)) as [->|Hq].
    + rewrite decide_True by done. by rewrite fmap_cons, <- app_assoc.
    + rewrite decide_False by congruence. done.
Qed.

Lemma group_sorted {A} (keyf : A -> key) (rk : A -> Z) (nm : A -> string) l q :
  (forall x y, rk x = rk y -> le_by keyf x y -> str_le (nm x) (nm y)) ->
  StronglySorted (le_by keyf) l ->
  StronglySorted str_le (nm <$> filter (fun x => rk x = q) l).
Proof.
  intros Hsame. induction 1 as [|x l Hl IH Hx]; [constructor|].
  rewrite filter_cons. case_decide as Hq; [|done].
  rewrite fmap_cons. constructor; [done|].
  apply Forall_fmap, Forall_forall. intros y [Hy Hin]%list_elem_of_filter.
  simpl. apply Hsame; [congruence|].
  rewrite Forall_forall in Hx. by apply Hx.
Qed.

Lemma key_le_same_rank (a b : key) : a.1 = b.1 -> key_le a b -> str_le a.2 b.2.
Proof. intros Heq [?|[_ ?]]%key_le_alt; [lia|done]. Qed.

(** *** The sending side *)

Definition send_names_to (users : list getitem_user) (d : Z) : list string :=
  (filter (fun x => x.1 = d) (send_candidates users)).*2.

Lemma send_info_get users is_forward d :
  dd_get (_create_send_info users is_forward) d =
  (filter (fun x => x.1 = d)
          (sort_by_key (send_key is_forward) (send_candidates users))).*2.
Proof. unfold _create_send_info. by rewrite dd_get_foldl_append. Qed.

Lemma send_info_sorted users is_forward d :
  StronglySorted str_le (dd_get (_create_send_info users is_forward) d).
Proof.
  rewrite send_info_get. apply (group_sorted (send_key is_forward)).
  - intros x y Hxy Hle. apply (key_le_same_rank _ _) in Hle.
    + by destruct is_forward.
    + destruct is_forward; simpl; congruence.
  - apply sort_by_key_sorted.
Qed.

Lemma send_info_perm users is_forward d :
  dd_get (_create_send_info users is_forward) d ≡ₚ send_names_to users d.
Proof.
  rewrite send_info_get. unfold send_names_to.
  by rewrite sort_by_key_perm.
Qed.

(** *** The receiving side *)

Section RecvFacts.
Context {E : Type} (get_global_rank : Z -> Z).

(** The names a stage expects from the peer of global rank [g]. *)
Definition recv_names_from (kwargs : list gi_input) (g : Z) : list string :=
  name <$> filter (fun gi => op_placeholder gi = false /\
                             get_global_rank (src_stage gi) = g) kwargs.

Lemma recv_candidates_names (node_metas : gmap string E) kwargs cs g :
  recv_candidates get_global_rank node_metas kwargs = Ok cs ->
  g <> (-1)%Z ->
  (fun x : Z * string * option E => x.1.2) <$> filter (fun x => x.1.1 = g) cs
  = recv_names_from kwargs g.
Proof.
  intros Hcs Hg. revert cs Hcs.
  induction kwargs as [|gi kwargs IH]; intros cs Hcs; simpl in Hcs.
  { by inv Hcs. }
  unfold recv_names_from. rewrite filter_cons.
  destruct (op_placeholder gi) eqn:Hop.
  - destruct (recv_candidates _ _ kwargs) as [cs'|] eqn:Hrec; inv Hcs.
    rewrite filter_cons. simpl.
    repeat case_decide; try congruence; try tauto. by apply IH.
  - destruct (getitem node_metas (name gi)) as [ex|]; [|by inv Hcs].
    simpl in Hcs.
    destruct (recv_candidates _ _ kwargs) as [cs'|] eqn:Hrec; inv Hcs.
    rewrite filter_cons. simpl.
    repeat case_decide; try congruence; try tauto.
    + rewrite !fmap_cons. simpl. f_equal. by apply IH.
    + by apply IH.
Qed.

Lemma foldl_recv_step_raise is_forward e (l : list (Z * string * option E)) :
  foldl (recv_step is_forward) (Raise e) l = Raise e.
Proof. induction l as [|x l IH]; simpl; [done|apply IH]. Qed.

Lemma recv_names_snoc (phs : list (Placeholder (option E))) ph :
  recv_names (phs ++ [ph]) =
  recv_names phs ++ (if is_recev ph then [input_name ph] else []).
Proof.
  unfold recv_names. rewrite filter_app, fmap_app. f_equal.
  rewrite filter_cons, filter_nil. destruct (is_recev ph); by case_decide.
Qed.

Lemma recv_step_Ok is_forward d (x : Z * string * option E) :
  recv_step is_forward (Ok d) x =
  if (x.1.1 =? -1)%Z then
    if is_forward then Ok (dd_append d 0%Z (StageKwargPlaceholder x.1.2))
    else Raise AssertionError
  else Ok (dd_append d x.1.1 (RecevPlaceholder x.1.2 x.1.1 x.2)).
Proof. unfold recv_step. simpl. by repeat case_match. Qed.

Lemma recv_info_get is_forward (l : list (Z * string * option E)) d info g :
  foldl (recv_step is_forward) (Ok d) l = Ok info ->
  g <> (-1)%Z ->
  recv_names (dd_get info g) =
  recv_names (dd_get d g) ++
    ((fun x : Z * string * option E => x.1.2) <$> filter (fun x => x.1.1 = g) l).
Proof.
  intros Hfold Hg. revert d Hfold.
  induction l as [|x l IH]; intros d Hfold; cbn [foldl] in Hfold.
  { inv Hfold. by rewrite app_nil_r. }
  rewrite filter_cons.
  rewrite recv_step_Ok in Hfold.
  destruct (Z.eqb_spec x.1.1 (-1)) as [Hx|Hx].
  - destruct is_forward; [|by rewrite foldl_recv_step_raise in Hfold].
    rewrite decide_False by congruence.
    rewrite (IH _ Hfold), dd_get_append.
    destruct (g =? 0)%Z; [|done].
    by rewrite recv_names_snoc, app_nil_r.
  - rewrite (IH _ Hfold), dd_get_append.
    destruct (Z.eqb_spec g x.1.1) as [->|Hgx].
    + rewrite decide_True by done.
      by rewrite recv_names_snoc, fmap_cons, <- app_assoc.
    + rewrite decide_False by congruence. done.
Qed.

Lemma recv_info_names (node_metas : gmap string E) kwargs is_forward info g :
  _create_recv_info get_global_rank node_metas kwargs is_forward = Ok info ->
  g <> (-1)%Z ->
  exists cs,
    recv_candidates get_global_rank node_metas kwargs = Ok cs /\
    recv_names (dd_get info g) =
    (fun x : Z * string * option E => x.1.2) <$>
      filter (fun x => x.1.1 = g) (sort_by_key (recv_key is_forward) cs).
Proof.
  unfold _create_recv_info. intros Hinfo Hg.
  destruct (recv_candidates _ _ kwargs) as [cs|] eqn:Hcs; [|by inv Hinfo].
  simpl in Hinfo. exists cs. split; [done|].
  by rewrite (recv_info_get _ _ _ _ _ Hinfo Hg).
Qed.

Lemma recv_info_sorted (node_metas : gmap string E) kwargs is_forward info g :
  _create_recv_info get_global_rank node_metas kwargs is_forward = Ok info ->
  g <> (-1)%Z ->
  StronglySorted str_le (recv_names (dd_get info g)).
Proof.
  intros Hinfo Hg.
  destruct (recv_info_names _ _ _ _ _ Hinfo Hg) as (cs & _ & ->).
  apply (group_sorted (recv_key is_forward) (fun x => x.1.1)).
  - intros x y Hxy Hle. apply (key_le_same_rank _ _) in Hle.
    + by destruct is_forward.
    + destruct is_forward; simpl; congruence.
  - apply sort_by_key_sorted.
Qed.

Lemma recv_info_perm (node_metas : gmap string E) kwargs is_forward info g :
  _create_recv_info get_global_rank node_metas kwargs is_forward = Ok info ->
  g <> (-1)%Z ->
  recv_names (dd_get info g) ≡ₚ recv_names_from kwargs g.
Proof.
  intros Hinfo Hg.
  destruct (recv_info_names _ _ _ _ _ Hinfo Hg) as (cs & Hcs & ->).
  rewrite sort_by_key_perm. by rewrite (recv_candidates_names _ _ _ _ Hcs Hg).
Qed.
End RecvFacts.

(** *** The order the plan is built in *)

(** "Lower rank first, alphabetical tie-break" for the forward direction,
    "higher rank first, alphabetical tie-break" for the backward one. *)
Definition plan_order (is_forward : bool) (a b : Z * string) : Prop :=
  if is_forward then (a.1 < b.1)%Z \/ (a.1 = b.1 /\ str_le a.2 b.2)
  else (a.1 > b.1)%Z \/ (a.1 = b.1 /\ str_le a.2 b.2).

Lemma StronglySorted_weaken {A} (R R' : relation A) l :
  (forall x y, R x y -> R' x y) -> StronglySorted R l -> StronglySorted R' l.
Proof.
  intros HR. induction 1 as [|x l Hl IH Hx]; constructor; [done|].
  eapply Forall_impl; [exact Hx|]. intros y. apply HR.
Qed.

Lemma send_candidates_sorted users is_forward :
  StronglySorted (plan_order is_forward)
    (sort_by_key (send_key is_forward) (send_candidates users)).
Proof.
  eapply StronglySorted_weaken; [|apply sort_by_key_sorted].
  intros x y Hle. apply key_le_alt in Hle.
  unfold plan_order. destruct is_forward; simpl in *; [done|].
  destruct Hle as [?|[? ?]]; [left; lia|right; split; [lia|done]].
Qed.

Lemma recv_candidates_sorted {E} is_forward (cs : list (Z * string * option E)) :
  StronglySorted (fun x y => plan_order is_forward x.1 y.1)
    (sort_by_key (recv_key is_forward) cs).
Proof.
  eapply StronglySorted_weaken; [|apply sort_by_key_sorted].
  intros x y Hle. apply key_le_alt in Hle.
  unfold plan_order. destruct is_forward; simpl in *; [done|].
  destruct Hle as [?|[? ?]]; [left; lia|right; split; [lia|done]].
Qed.

(** The plan of a forward node is always built; the plan of a backward
    node is built when no input is a raw step argument. *)
Lemma create_recv_info_ok {E} (get_global_rank : Z -> Z)
    (node_metas : gmap string E) kwargs is_forward :
  Forall (fun gi => if op_placeholder gi then is_forward = true
                    else is_Some (node_metas !! name gi) /\
                         get_global_rank (src_stage gi) <> (-1)%Z) kwargs ->
  exists info,
    _create_recv_info get_global_rank node_metas kwargs is_forward = Ok info.
Proof.
  intros Hk. unfold _create_recv_info.
  assert (exists cs, recv_candidates get_global_rank node_metas kwargs = Ok cs /\
            Forall (fun x : Z * string * option E =>
                      x.1.1 = (-1)%Z -> is_forward = true) cs)
    as (cs & -> & Hcs).
  { induction Hk as [|gi kwargs Hgi _ (cs & IH & Hcs)]; simpl.
    - exists []. by split.
    - rewrite IH. destruct (op_placeholder gi).
      + eexists. split; [reflexivity|]. by constructor.
      + destruct Hgi as [[ex Hex] Hm]. unfold getitem. rewrite Hex. simpl.
        eexists. split; [reflexivity|]. constructor; [|done].
        simpl. congruence. }
  simpl.
  assert (Forall (fun x : Z * string * option E =>
                    x.1.1 = (-1)%Z -> is_forward = true)
                 (sort_by_key (recv_key is_forward) cs)) as Hs.
  { by rewrite sort_by_key_perm. }
  revert Hs. generalize (sort_by_key (recv_key is_forward) cs).
  intros l. generalize (@nil (Z * list (Placeholder (option E)))).
  induction l as [|x l IH]; intros d Hl; cbn [foldl]; [by eexists|].
  inv Hl. rewrite recv_step_Ok.
  destruct (Z.eqb_spec x.1.1 (-1)) as [Hx|Hx]; [|by apply IH].
  destruct is_forward; [by apply IH|]. by specialize (H1 Hx).
Qed.

(** *** Plans to try the builders on *)

(** A stage sending ["b"] to stages 1 and 2 and ["a"] to stage 1, and
    stage 1 expecting ["a"] and ["b"] from stage 0 besides a raw step
    argument. *)
Definition ex_users : list getitem_user :=
  [ {| out_str := "b"; gi_users := [1; 2]%Z |};
    {| out_str := "a"; gi_users := [1]%Z |} ].

Definition ex_kwargs : list gi_input :=
  [ {| op_placeholder := false; name := "a"; src_stage := 0 |};
    {| op_placeholder := true; name := "x"; src_stage := 0 |};
    {| op_placeholder := false; name := "b"; src_stage := 0 |} ].

Definition ex_metas : gmap string unit := <["a" := tt]> (<["b" := tt]> ∅).

End CommPlan.

(** ** runtime.py: schedules over the [RuntimeMixin] interface *)

Module Schedule.

(** The abstract methods of [RuntimeMixin], in a monad [M] of stage
    actions; [Work] is [dist.Work]. *)
Class RuntimeMixin (M : Type -> Type) (Work : Type) : Type :=
  { forward_send_one_chunk : M (list Work);
    forward_compute_one_chunk : M unit;
    forward_recv_one_chunk : bool -> M (list Work);
    backward_recv_one_chunk : bool -> M (list Work);
    backward_compute_one_chunk : M unit;
    backward_send_one_chunk : M (list Work);
    merge_and_assign_chunked_grads : M unit;
    step : M unit }.

(** [work.wait()] *)
Class Waitable (M : Type -> Type) (Work : Type) : Type :=
  work_wait : Work -> M unit.

(** [range(a, b)] *)
Definition range (a b : Z) : list Z :=
  (fun i => (a + Z.of_nat i)%Z) <$> seq 0 (Z.to_nat (b - a)).

Section Generic.
Context {M : Type -> Type} `{!MRet M, !MBind M}.
Context {Work : Type} `{!RuntimeMixin M Work, !Waitable M Work}.

(** [for x in l: s = body(x, s)] *)
Fixpoint for_each {A S : Type} (l : list A) (body : A -> S -> M S) (s : S)
  : M S :=
  match l with
  | [] => mret s
  | x :: l' => s' ← body x s; for_each l' body s'
  end.

(** [for work in reqs: work.wait()] *)
Definition wait_all (reqs : list Work) : M unit :=
  for_each reqs (fun work _ => work_wait work) tt.

(** The body shared by the forward-only loops. *)
Definition forward_one_chunk (all_send_reqs : list Work) : M (list Work) :=
  _ ← forward_recv_one_chunk true;
  _ ← forward_compute_one_chunk;
  reqs ← forward_send_one_chunk;
  mret (all_send_reqs ++ reqs).

(** The body shared by the backward-only loops. *)
Definition backward_one_chunk (all_send_reqs : list Work) : M (list Work) :=
  _ ← backward_recv_one_chunk true;
  _ ← backward_compute_one_chunk;
  reqs ← backward_send_one_chunk;
  mret (all_send_reqs ++ reqs).

(** The end of both schedules. *)
Definition finish (step_node : bool) (all_send_reqs : list Work) : M unit :=
  _ ← wait_all all_send_reqs;
  _ ← merge_and_assign_chunked_grads;
  if step_node then step else mret tt.

(** [ScheduleGPipe.__call__]; [bw_node] and [step_node] say whether the
    node is not [None]. *)
Definition ScheduleGPipe (num_chunks : Z) (bw_node step_node : bool) : M unit :=
  all_send_reqs ← for_each (range 0 num_chunks)
                    (fun fw_chunk => forward_one_chunk) [];
  all_send_reqs ←
    (if bw_node then
       for_each (range 0 num_chunks)
         (fun bwd_chunk => backward_one_chunk) all_send_reqs
     else mret all_send_reqs);
  finish step_node all_send_reqs.

(** Warm-up phase of [ScheduleDAPPLE.__call__]. *)
Definition dapple_warmup (num_warmup : Z) (all_send_reqs : list Work)
  : M (list Work) :=
  for_each (range 0 num_warmup) (fun chunk => forward_one_chunk) all_send_reqs.

(** One iteration of the 1F1B phase. *)
Definition one_f_one_b (all_send_reqs : list Work) : M (list Work) :=
  _ ← backward_recv_one_chunk true;
  reqs ← forward_recv_one_chunk false;
  _ ← backward_compute_one_chunk;
  bw_reqs ← backward_send_one_chunk;
  _ ← wait_all reqs;
  _ ← forward_compute_one_chunk;
  fw_reqs ← forward_send_one_chunk;
  mret ((all_send_reqs ++ bw_reqs) ++ fw_reqs).

(** 1F1B phase. *)
Definition dapple_1f1b (num_warmup num_chunks : Z)
    (all_send_reqs : list Work) : M (list Work) :=
  for_each (range num_warmup num_chunks)
    (fun fwd_chunk => one_f_one_b) all_send_reqs.

(** Cool-down phase. *)
Definition dapple_cooldown (num_warmup num_chunks : Z)
    (all_send_reqs : list Work) : M (list Work) :=
  for_each (range (num_chunks - num_warmup) num_chunks)
    (fun bwd_chunk => backward_one_chunk) all_send_reqs.

(** [ScheduleDAPPLE.__call__] *)
Definition ScheduleDAPPLE (num_warmup num_chunks : Z) (step_node : bool)
  : M unit :=
  all_send_reqs ← dapple_warmup num_warmup [];
  all_send_reqs ← dapple_1f1b num_warmup num_chunks all_send_reqs;
  all_send_reqs ← dapple_cooldown num_warmup num_chunks all_send_reqs;
  finish step_node all_send_reqs.
End Generic.

(** [ScheduleDAPPLE.__init__]: the schedule needs a backward node; the
    result is [self.num_warmup]. *)
Definition ScheduleDAPPLE_init (num_stages stage_idx num_chunks : Z)
    (bw_node : bool) : result Z :=
  if bw_node then Ok (Z.min (num_stages - stage_idx) num_chunks)
  else Raise AssertionError.

(** *** A stage that only records the calls *)

(** What a schedule asks of the stage, in order.  Requests are numbered
    as they are handed out; a compute call is tagged with the chunk
    cursor it runs at. *)
Inductive event : Type :=
| EvForwardRecv (wait : bool) (req : nat)
| EvForwardCompute (chunk : nat)
| EvForwardSend (req : nat)
| EvBackwardRecv (wait : bool) (req : nat)
| EvBackwardCompute (chunk : nat)
| EvBackwardSend (req : nat)
| EvWait (req : nat)
| EvMerge
| EvStep.

Record log : Type :=
  { trace : list event;
    cur_fw_chunk_id : nat;
    cur_bw_chunk_id : nat;
    next_req : nat }.

Definition log0 : log :=
  {| trace := []; cur_fw_chunk_id := 0; cur_bw_chunk_id := 0; next_req := 0 |}.

Definition LogM (A : Type) : Type := log -> A * log.

#[export] Instance LogM_ret : MRet LogM := fun _ a s => (a, s).
#[export] Instance LogM_bind : MBind LogM :=
  fun _ _ k m s => let '(a, s') := m s in k a s'.

(** A call that posts requests: the event carries the fresh request. *)
Definition log_post (ev : nat -> event) : LogM (list nat) := fun s =>
  ([next_req s],
   {| trace := trace s ++ [ev (next_req s)];
      cur_fw_chunk_id := cur_fw_chunk_id s;
      cur_bw_chunk_id := cur_bw_chunk_id s;
      next_req := S (next_req s) |}).

Definition log_event (ev : event) : LogM unit := fun s =>
  (tt, {| trace := trace s ++ [ev];
          cur_fw_chunk_id := cur_fw_chunk_id s;
          cur_bw_chunk_id := cur_bw_chunk_id s;
          next_req := next_req s |}).

Definition log_forward_compute : LogM unit := fun s =>
  (tt, {| trace := trace s ++ [EvForwardCompute (cur_fw_chunk_id s)];
          cur_fw_chunk_id := S (cur_fw_chunk_id s);
          cur_bw_chunk_id := cur_bw_chunk_id s;
          next_req := next_req s |}).

Definition log_backward_compute : LogM unit := fun s =>
  (tt, {| trace := trace s ++ [EvBackwardCompute (cur_bw_chunk_id s)];
          cur_fw_chunk_id := cur_fw_chunk_id s;
          cur_bw_chunk_id := S (cur_bw_chunk_id s);
          next_req := next_req s |}).

#[export] Instance LogM_stage : RuntimeMixin LogM nat :=
  {| forward_send_one_chunk := log_post EvForwardSend;
     forward_compute_one_chunk := log_forward_compute;
     forward_recv_one_chunk := fun wait => log_post (EvForwardRecv wait);
     backward_recv_one_chunk := fun wait => log_post (EvBackwardRecv wait);
     backward_compute_one_chunk := log_backward_compute;
     backward_send_one_chunk := log_post EvBackwardSend;
     merge_and_assign_chunked_grads := log_event EvMerge;
     step := log_event EvStep |}.

#[export] Instance LogM_wait : Waitable LogM nat :=
  fun req => log_event (EvWait req).

(** The events of one forward-only iteration, of one backward-only
    iteration and of one 1F1B iteration, at given cursors and next
    request number. *)
Definition forward_iteration (fw req : nat) : list event :=
  [EvForwardRecv true req; EvForwardCompute fw; EvForwardSend (S req)].

Definition backward_iteration (bw req : nat) : list event :=
  [EvBackwardRecv true req; EvBackwardCompute bw; EvBackwardSend (S req)].

Definition steady_iteration (bw fw req : nat) : list event :=
  [EvBackwardRecv true req; EvForwardRecv false (S req);
   EvBackwardCompute bw; EvBackwardSend (S (S req));
   EvWait (S req);
   EvForwardCompute fw; EvForwardSend (S (S (S req)))].

Fixpoint forward_events (n fw req : nat) : list event :=
  match n with
  | 0 => []
  | S n' => forward_iteration fw req ++ forward_events n' (S fw) (S (S req))
  end.

Fixpoint backward_events (n bw req : nat) : list event :=
  match n with
  | 0 => []
  | S n' => backward_iteration bw req ++ backward_events n' (S bw) (S (S req))
  end.

Fixpoint steady_events (n bw fw req : nat) : list event :=
  match n with
  | 0 => []
  | S n' => steady_iteration bw fw req
            ++ steady_events n' (S bw) (S fw) (4 + req)
  end.

(** The send requests collected by [n] one-directional iterations and by
    [n] 1F1B iterations. *)
Fixpoint single_reqs (n req : nat) : list nat :=
  match n with
  | 0 => []
  | S n' => S req :: single_reqs n' (S (S req))
  end.

Fixpoint steady_reqs (n req : nat) : list nat :=
  match n with
  | 0 => []
  | S n' => S (S req) :: S (S (S req)) :: steady_reqs n' (4 + req)
  end.

(** *** Running the loops on the recording stage *)

Definition run {A} (m : LogM A) (s : log) : A * log := m s.

(** The calls a whole GPipe schedule makes. *)
Definition gpipe_calls (num_chunks : Z) (bw_node step_node : bool) : list event :=
  trace (run (ScheduleGPipe num_chunks bw_node step_node) log0).2.

Lemma run_bind {A B} (m : LogM A) (k : A -> LogM B) s :
  run (a ← m; k a) s = run (k (run m s).1) (run m s).2.
Proof. unfold run, mbind, LogM_bind. by destruct (m s). Qed.

Lemma range_length a b : length (range a b) = Z.to_nat (b - a).
Proof. unfold range. by rewrite length_fmap, length_seq. Qed.

Lemma log_eq tr tr' fw fw' bw bw' rq rq' :
  tr = tr' -> fw = fw' -> bw = bw' -> rq = rq' ->
  {| trace := tr; cur_fw_chunk_id := fw; cur_bw_chunk_id := bw; next_req := rq |}
  = {| trace := tr'; cur_fw_chunk_id := fw'; cur_bw_chunk_id := bw';
       next_req := rq' |}.
Proof. by intros -> -> -> ->. Qed.

Lemma forward_loop_log {A} (l : list A) reqs s :
  run (for_each l (fun _ => forward_one_chunk) reqs) s =
  (reqs ++ single_reqs (length l) (next_req s),
   {| trace := trace s ++ forward_events (length l) (cur_fw_chunk_id s) (next_req s);
      cur_fw_chunk_id := length l + cur_fw_chunk_id s;
      cur_bw_chunk_id := cur_bw_chunk_id s;
      next_req := 2 * length l + next_req s |}).
Proof.
  revert reqs s. induction l as [|x l IH]; intros reqs s.
  - destruct s. simpl. by rewrite !app_nil_r.
  - cbn [for_each]. rewrite run_bind.
    change (run (forward_one_chunk reqs) s) with
      (reqs ++ [S (next_req s)],
       {| trace := ((trace s ++ [EvForwardRecv true (next_req s)])
                      ++ [EvForwardCompute (cur_fw_chunk_id s)])
                      ++ [EvForwardSend (S (next_req s))];
          cur_fw_chunk_id := S (cur_fw_chunk_id s);
          cur_bw_chunk_id := cur_bw_chunk_id s;
          next_req := S (S (next_req s)) |}).
    rewrite IH. cbn [fst snd trace cur_fw_chunk_id cur_bw_chunk_id next_req
                     length single_reqs forward_events forward_iteration].
    f_equal; [by rewrite <- app_assoc|].
    apply log_eq; [|lia|done|lia].
    by rewrite <- !app_assoc.
Qed.

Lemma backward_loop_log {A} (l : list A) reqs s :
  run (for_each l (fun _ => backward_one_chunk) reqs) s =
  (reqs ++ single_reqs (length l) (next_req s),
   {| trace := trace s ++ backward_events (length l) (cur_bw_chunk_id s) (next_req s);
      cur_fw_chunk_id := cur_fw_chunk_id s;
      cur_bw_chunk_id := length l + cur_bw_chunk_id s;
      next_req := 2 * length l + next_req s |}).
Proof.
  revert reqs s. induction l as [|x l IH]; intros reqs s.
  - destruct s. simpl. by rewrite !app_nil_r.
  - cbn [for_each]. rewrite run_bind.
    change (run (backward_one_chunk reqs) s) with
      (reqs ++ [S (next_req s)],
       {| trace := ((trace s ++ [EvBackwardRecv true (next_req s)])
                      ++ [EvBackwardCompute (cur_bw_chunk_id s)])
                      ++ [EvBackwardSend (S (next_req s))];
          cur_fw_chunk_id := cur_fw_chunk_id s;
          cur_bw_chunk_id := S (cur_bw_chunk_id s);
          next_req := S (S (next_req s)) |}).
    rewrite IH. cbn [fst snd trace cur_fw_chunk_id cur_bw_chunk_id next_req
                     length single_reqs backward_events backward_iteration].
    f_equal; [by rewrite <- app_assoc|].
    apply log_eq; [|done|lia|lia].
    by rewrite <- !app_assoc.
Qed.

Lemma wait_all_log (reqs : list nat) s :
  run (wait_all reqs) s =
  (tt, {| trace := trace s ++ (EvWait <$> reqs);
          cur_fw_chunk_id := cur_fw_chunk_id s;
          cur_bw_chunk_id := cur_bw_chunk_id s;
          next_req := next_req s |}).
Proof.
  unfold wait_all. revert s. induction reqs as [|r reqs IH]; intros s.
  - destruct s. simpl. by rewrite app_nil_r.
  - cbn [for_each]. rewrite run_bind.
    change (run (work_wait r) s) with
      (tt, {| trace := trace s ++ [EvWait r];
              cur_fw_chunk_id := cur_fw_chunk_id s;
              cur_bw_chunk_id := cur_bw_chunk_id s;
              next_req := next_req s |}).
    cbn [fst snd]. rewrite IH. cbn [trace cur_fw_chunk_id cur_bw_chunk_id next_req].
    f_equal. apply log_eq; try done. by rewrite fmap_cons, <- app_assoc.
Qed.

Lemma steady_loop_log {A} (l : list A) reqs s :
  run (for_each l (fun _ => one_f_one_b) reqs) s =
  (reqs ++ steady_reqs (length l) (next_req s),
   {| trace := trace s ++ steady_events (length l) (cur_bw_chunk_id s)
                            (cur_fw_chunk_id s) (next_req s);
      cur_fw_chunk_id := length l + cur_fw_chunk_id s;
      cur_bw_chunk_id := length l + cur_bw_chunk_id s;
      next_req := 4 * length l + next_req s |}).
Proof.
  revert reqs s. induction l as [|x l IH]; intros reqs s.
  - destruct s. simpl. by rewrite !app_nil_r.
  - cbn [for_each]. rewrite run_bind.
    change (run (one_f_one_b reqs) s) with
      ((reqs ++ [S (S (next_req s))]) ++ [S (S (S (next_req s)))],
       {| trace := ((((((trace s ++ [EvBackwardRecv true (next_req s)])
                      ++ [EvForwardRecv false (S (next_req s))])
                      ++ [EvBackwardCompute (cur_bw_chunk_id s)])
                      ++ [EvBackwardSend (S (S (next_req s)))])
                      ++ [EvWait (S (next_req s))])
                      ++ [EvForwardCompute (cur_fw_chunk_id s)])
                      ++ [EvForwardSend (S (S (S (next_req s))))];
          cur_fw_chunk_id := S (cur_fw_chunk_id s);
          cur_bw_chunk_id := S (cur_bw_chunk_id s);
          next_req := S (S (S (S (next_req s)))) |}).
    rewrite IH. cbn [fst snd trace cur_fw_chunk_id cur_bw_chunk_id next_req
                     length steady_reqs steady_events steady_iteration].
    f_equal; [by rewrite <- !app_assoc|].
    apply log_eq; [|lia|lia|lia].
    by rewrite <- !app_assoc.
Qed.

Definition finish_events (step_node : bool) (reqs : list nat) : list event :=
  (EvWait <$> reqs) ++ EvMerge :: (if step_node then [EvStep] else []).

Lemma finish_log step_node (reqs : list nat) s :
  trace (run (finish step_node reqs) s).2 = trace s ++ finish_events step_node reqs.
Proof.
  unfold finish, finish_events. rewrite run_bind, wait_all_log. cbn [fst snd].
  rewrite run_bind. destruct step_node; simpl; by rewrite <- !app_assoc.
Qed.

(** *** The trace of a whole schedule *)

Lemma gpipe_trace (num_chunks : Z) (bw_node step_node : bool) :
  let n := Z.to_nat num_chunks in
  trace (run (ScheduleGPipe num_chunks bw_node step_node) log0).2 =
  forward_events n 0 0
  ++ (if bw_node then backward_events n 0 (2 * n) else [])
  ++ finish_events step_node
       (single_reqs n 0 ++ (if bw_node then single_reqs n (2 * n) else [])).
Proof.
  intros n. unfold ScheduleGPipe.
  rewrite run_bind, forward_loop_log, range_length. cbn [fst snd].
  replace (Z.to_nat (num_chunks - 0)) with n by (unfold n; f_equal; lia).
  rewrite run_bind. destruct bw_node.
  - rewrite backward_loop_log, range_length. cbn [fst snd].
    replace (Z.to_nat (num_chunks - 0)) with n by (unfold n; f_equal; lia).
    rewrite finish_log.
    cbn [log0 trace next_req cur_bw_chunk_id cur_fw_chunk_id app].
    by rewrite <- !app_assoc, !Nat.add_0_r.
  - change (run (mret ?x) ?s) with (x, s). cbn [fst snd].
    rewrite finish_log.
    cbn [log0 trace next_req cur_bw_chunk_id cur_fw_chunk_id app].
    by rewrite !app_nil_r.
Qed.

Lemma dapple_trace (num_warmup num_chunks : Z) (step_node : bool) :
  let a := Z.to_nat num_warmup in
  let b := Z.to_nat (num_chunks - num_warmup) in
  let c := Z.to_nat (num_chunks - (num_chunks - num_warmup)) in
  trace (run (ScheduleDAPPLE num_warmup num_chunks step_node) log0).2 =
  forward_events a 0 0
  ++ steady_events b 0 a (2 * a)
  ++ backward_events c b (2 * a + 4 * b)
  ++ finish_events step_node
       (single_reqs a 0 ++ steady_reqs b (2 * a) ++ single_reqs c (2 * a + 4 * b)).
Proof.
  intros a b c. unfold ScheduleDAPPLE, dapple_warmup, dapple_1f1b, dapple_cooldown.
  rewrite run_bind, forward_loop_log, range_length. cbn [fst snd].
  replace (Z.to_nat (num_warmup - 0)) with a by (unfold a; f_equal; lia).
  rewrite run_bind, steady_loop_log, range_length. cbn [fst snd].
  rewrite run_bind, backward_loop_log, range_length. cbn [fst snd].
  rewrite finish_log.
  cbn [log0 trace next_req cur_bw_chunk_id cur_fw_chunk_id app].
  fold b c. rewrite <- !app_assoc, !Nat.add_0_r.
  replace (4 * b + 2 * a) with (2 * a + 4 * b) by lia.
  done.
Qed.

Lemma forward_events_length n fw req : length (forward_events n fw req) = 3 * n.
Proof.
  revert fw req. induction n as [|n IH]; intros fw req; [done|].
  cbn [forward_events]. rewrite length_app, IH. simpl. lia.
Qed.

Lemma steady_events_slice n k bw fw req rest :
  k < n ->
  take 7 (drop (7 * k) (steady_events n bw fw req ++ rest)) =
  steady_iteration (k + bw) (k + fw) (4 * k + req).
Proof.
  revert n bw fw req. induction k as [|k IH]; intros n bw fw req Hk;
    (destruct n as [|n]; [lia|]); cbn [steady_events].
  - reflexivity.
  - replace (7 * S k) with (7 + 7 * k) by lia.
    rewrite <- app_assoc, drop_app_add' by done.
    rewrite IH by lia. f_equal; lia.
Qed.

(** The chunks the backward compute calls of a trace run at, in order. *)
Definition backward_computes (tr : list event) : list nat :=
  omap (fun ev => match ev with EvBackwardCompute k => Some k | _ => None end) tr.

Lemma backward_computes_backward_events n bw req :
  backward_computes (backward_events n bw req) = seq bw n.
Proof.
  revert bw req. induction n as [|n IH]; intros bw req; [done|].
  cbn [backward_events seq]. unfold backward_computes in *.
  rewrite omap_app, IH. reflexivity.
Qed.

(** C3: in a run of the 1F1B schedule, the [k]-th iteration of the steady
    state (after the [3 * num_warmup] warm-up calls) is exactly: backward
    receive with wait, forward receive without wait, backward compute of
    chunk [k], backward send, wait on the forward receive, forward
    compute of chunk [num_warmup + k], forward send. *)
Theorem dapple_steady_state_order (num_warmup num_chunks : Z)
    (step_node : bool) (k : nat) :
  k < Z.to_nat (num_chunks - num_warmup) ->
  let w := Z.to_nat num_warmup in
  let r := 2 * w + 4 * k in
  take 7 (drop (3 * w + 7 * k)
            (trace (run (ScheduleDAPPLE num_warmup num_chunks step_node) log0).2)) =
  [EvBackwardRecv true r; EvForwardRecv false (r + 1);
   EvBackwardCompute k; EvBackwardSend (r + 2);
   EvWait (r + 1);
   EvForwardCompute (w + k); EvForwardSend (r + 3)].
Proof.
  intros Hk w r. rewrite dapple_trace. fold w.
  rewrite drop_app_add' by (by rewrite forward_events_length).
  rewrite steady_events_slice by done.
  unfold steady_iteration.
  replace (4 * k + 2 * w) with r by (unfold r; lia).
  replace (k + 0) with k by lia. replace (k + w) with (w + k) by lia.
  replace (r + 1) with (S r) by lia.
  replace (r + 2) with (S (S r)) by lia.
  replace (r + 3) with (S (S (S r))) by lia.
  reflexivity.
Qed.

Lemma dapple_steady_state_order_witness :
  1 < Z.to_nat (4 - 2) /\
  take 7 (drop (3 * 2 + 7 * 1) (trace (run (ScheduleDAPPLE 2 4 true) log0).2)) =
  [EvBackwardRecv true 8; EvForwardRecv false 9;
   EvBackwardCompute 1; EvBackwardSend 10;
   EvWait 9;
   EvForwardCompute 3; EvForwardSend 11].
Proof.
  split; [simpl; lia|].
  apply (dapple_steady_state_order 2 4 true 1). simpl; lia.
Defined.

(** The claim of C5 fails on the last of four stages with eight chunks:
    one warm-up chunk, and the cool-down runs the backward of one chunk,
    the last, not of [8 - 1]. *)
Lemma cooldown_count_counterexample :
  ScheduleDAPPLE_init 4 3 8 true = Ok 1%Z /\
  (forall reqs s,
     backward_computes
       (drop (length (trace s)) (trace (run (dapple_cooldown 1 8 reqs) s).2))
     = [cur_bw_chunk_id s]) /\
  backward_computes
    (drop (3 * 1 + 7 * 7) (trace (run (ScheduleDAPPLE 1 8 false) log0).2)) = [7] /\
  length [7] <> Z.to_nat (8 - 1).
Proof.
  split; [reflexivity|]. split; [|split; [vm_compute; reflexivity|vm_compute; lia]].
  intros reqs s. unfold dapple_cooldown.
  rewrite backward_loop_log. cbn [snd trace].
  rewrite drop_app_length. reflexivity.
Qed.

(** C5, amended: with [num_warmup = min(num_stages - stage_idx,
    num_chunks)], the cool-down phase, run after warm-up and steady
    state, is [num_warmup] plain backward iterations, for the chunks
    [num_chunks - num_warmup], ..., [num_chunks - 1]. *)
Theorem dapple_cooldown_chunks (num_stages stage_idx num_chunks num_warmup : Z)
    (step_node : bool) :
  ScheduleDAPPLE_init num_stages stage_idx num_chunks true = Ok num_warmup ->
  (stage_idx <= num_stages)%Z -> (0 <= num_chunks)%Z ->
  let w := Z.to_nat num_warmup in
  let n := Z.to_nat (num_chunks - num_warmup) in
  let before := run (reqs ← dapple_warmup num_warmup [];
                     dapple_1f1b num_warmup num_chunks reqs) log0 in
  let after := run (dapple_cooldown num_warmup num_chunks before.1) before.2 in
  trace after.2 = trace before.2 ++ backward_events w n (next_req before.2) /\
  backward_computes (backward_events w n (next_req before.2)) = seq n w /\
  w + n = Z.to_nat num_chunks /\
  run (ScheduleDAPPLE num_warmup num_chunks step_node) log0 =
    run (finish step_node after.1) after.2.
Proof.
  intros Hinit Hidx HC w n before after.
  unfold ScheduleDAPPLE_init in Hinit. injection Hinit as Hw.
  assert (Z.to_nat (num_chunks - (num_chunks - num_warmup)) = w) as Hc.
  { unfold w. f_equal. lia. }
  assert (cur_bw_chunk_id before.2 = n) as Hbw.
  { unfold before, dapple_warmup, dapple_1f1b.
    rewrite run_bind, forward_loop_log. cbn [fst snd].
    rewrite steady_loop_log. cbn [snd cur_bw_chunk_id log0].
    rewrite range_length. fold n. lia. }
  split; [|split; [apply backward_computes_backward_events|split]].
  - unfold after, dapple_cooldown.
    rewrite backward_loop_log, range_length, Hc, Hbw. reflexivity.
  - unfold w, n. lia.
  - unfold ScheduleDAPPLE, after, before. by rewrite !run_bind.
Qed.

Lemma dapple_cooldown_chunks_witness :
  ScheduleDAPPLE_init 4 3 8 true = Ok 1%Z /\
  backward_computes
    (backward_events 1 7
       (next_req (run (reqs ← dapple_warmup 1 []; dapple_1f1b 1 8 reqs) log0).2))
  = [7].
Proof.
  split; [reflexivity|].
  refine (proj1 (proj2 (dapple_cooldown_chunks 4 3 8 1 false _ _ _)));
    [reflexivity|lia|lia].
Defined.

End Schedule.

(** ** runtime.py: [PipelineStage] *)

Module PipelineStage.

(** [dist.P2POp(dist.isend, val, peer, group)] and
    [dist.P2POp(dist.irecv, buffer, peer, group)]; a receive buffer is
    named by a number. *)
Inductive P2POp (T : Type) : Type :=
| isend (val : T) (peer : Z)
| irecv (buffer : nat) (peer : Z).
Arguments isend {T} val peer.
Arguments irecv {T} buffer peer.

(** What an attribute holding a dictionary refers to: a dictionary object
    of its own, or the very object stored in slot [i] of the per-chunk
    list it was reduced from. *)
Inductive dict_ref (T : Type) : Type :=
| OwnDict (d : gmap string T)
| ChunkDict (i : nat).
Arguments OwnDict {T} d.
Arguments ChunkDict {T} i.

(** The attributes of a stage that do not change after construction.
    [bw_node] and [step_node] say whether the node is not [None]; the
    backward plans exist only with a backward node. *)
Record Config : Type :=
  { stage_idx : Z;
    num_stages : Z;
    num_chunks : Z;
    bw_node : bool;
    step_node : bool;
    accumulate_grads_inplace : bool;
    fw_kwargs_recv_info : list (Z * list (Placeholder nat));
    fw_act_send_info : list (Z * list string);
    bw_kwargs_recv_info : option (list (Z * list (Placeholder nat)));
    bw_grad_send_info : option (list (Z * list string));
    output_grads_map : OneToOneMap.t;
    input_params_map : OneToOneMap.t;
    returns_nodes_chunk_spec : list string;
    return_nodes_flatten : list string }.

(** The opaque callables of [compiled_stage].  They are handed
    dictionaries they may change; each returns the dictionaries as it
    leaves them, and the forward and backward ones their output. *)
Record CompiledStage (T : Type) : Type :=
  { forward : gmap string T -> gmap string T -> gmap string (option T) ->
              gmap string T ->
              gmap string T * gmap string T * gmap string (option T) * gmap string T;
    backward : gmap string T -> gmap string T -> gmap string T ->
               gmap string T ->
               gmap string T * gmap string T * gmap string T * gmap string T;
    step_fn : gmap string T -> gmap string T -> gmap string T * gmap string T }.
Arguments forward {T} c.
Arguments backward {T} c.
Arguments step_fn {T} c.

(** The runtime state of [_init_runtime_states], the [grad] slots of the
    parameter nodes and the state of the transport. *)
Record State (T Net : Type) : Type :=
  { cur_fw_send_chunk : option (gmap string T);
    cur_bw_send_chunk : option (gmap string T);
    cur_fw_chunk_id : nat;
    cur_bw_chunk_id : nat;
    kwargs_chunks : list (gmap string T);
    saved_tensors_bw_chunks : list (gmap string T);
    saved_params_step : gmap string T;
    saved_grads_step_chunks : list (gmap string T);
    output_grads_chunks : list (gmap string T);
    returns_chunks : list (gmap string (option T));
    output_grads_reduced : option (dict_ref T);
    step_grads_reduced : option (dict_ref T);
    param_grads : gmap string (option T);
    net : Net }.
Arguments cur_fw_send_chunk {T Net} s.
Arguments cur_bw_send_chunk {T Net} s.
Arguments cur_fw_chunk_id {T Net} s.
Arguments cur_bw_chunk_id {T Net} s.
Arguments kwargs_chunks {T Net} s.
Arguments saved_tensors_bw_chunks {T Net} s.
Arguments saved_params_step {T Net} s.
Arguments saved_grads_step_chunks {T Net} s.
Arguments output_grads_chunks {T Net} s.
Arguments returns_chunks {T Net} s.
Arguments output_grads_reduced {T Net} s.
Arguments step_grads_reduced {T Net} s.
Arguments param_grads {T Net} s.
Arguments net {T Net} s.
Arguments Build_State {T Net}.

(** [l[i]] on a list *)
Definition index {A} (l : list A) (i : nat) : result A :=
  match l !! i with
  | Some x => Ok x
  | None => Raise IndexError
  end.

(** Reading an attribute that refers to a dictionary, when [chunks] is
    the per-chunk list it may point into. *)
Definition deref {T} (chunks : list (gmap string T))
    (attr : option (dict_ref T)) : result (gmap string T) :=
  match attr with
  | None => Raise AttributeError
  | Some (OwnDict d) => Ok d
  | Some (ChunkDict i) => index chunks i
  end.

(** Changing the dictionary an attribute refers to, in place. *)
Definition store {T} (chunks : list (gmap string T)) (r : dict_ref T)
    (d : gmap string T) : list (gmap string T) * dict_ref T :=
  match r with
  | OwnDict _ => (chunks, OwnDict d)
  | ChunkDict i => (<[i := d]> chunks, ChunkDict i)
  end.

(** [for chunk in chunks_list: chunk.clear()] *)
Definition clear_single {V} (chunks_list : list (gmap string V))
  : list (gmap string V) :=
  (fun _ => ∅) <$> chunks_list.

(** [for chunk in chunks_list: assert len(chunk) == 0] *)
Definition check_single {V} (chunks_list : list (gmap string V)) : result unit :=
  if forallb (fun chunk => Nat.eqb (size chunk) 0) chunks_list then Ok tt
  else Raise AssertionError.

(** Assignments to the attributes. *)
Section Setters.
Context {T Net : Type}.

Definition set_cur_fw_send_chunk (v : option (gmap string T)) (s : State T Net) : State T Net :=
  {| cur_fw_send_chunk := v;
     cur_bw_send_chunk := cur_bw_send_chunk s;
     cur_fw_chunk_id := cur_fw_chunk_id s;
     cur_bw_chunk_id := cur_bw_chunk_id s;
     kwargs_chunks := kwargs_chunks s;
     saved_tensors_bw_chunks := saved_tensors_bw_chunks s;
     saved_params_step := saved_params_step s;
     saved_grads_step_chunks := saved_grads_step_chunks s;
     output_grads_chunks := output_grads_chunks s;
     returns_chunks := returns_chunks s;
     output_grads_reduced := output_grads_reduced s;
     step_grads_reduced := step_grads_reduced s;
     param_grads := param_grads s;
     net := net s |}.

Definition set_cur_bw_send_chunk (v : option (gmap string T)) (s : State T Net) : State T Net :=
  {| cur_fw_send_chunk := cur_fw_send_chunk s;
     cur_bw_send_chunk := v;
     cur_fw_chunk_id := cur_fw_chunk_id s;
     cur_bw_chunk_id := cur_bw_chunk_id s;
     kwargs_chunks := kwargs_chunks s;
     saved_tensors_bw_chunks := saved_tensors_bw_chunks s;
     saved_params_step := saved_params_step s;
     saved_grads_step_chunks := saved_grads_step_chunks s;
     output_grads_chunks := output_grads_chunks s;
     returns_chunks := returns_chunks s;
     output_grads_reduced := output_grads_reduced s;
     step_grads_reduced := step_grads_reduced s;
     param_grads := param_grads s;
     net := net s |}.

Definition set_cur_fw_chunk_id (v : nat) (s : State T Net) : State T Net :=
  {| cur_fw_send_chunk := cur_fw_send_chunk s;
     cur_bw_send_chunk := cur_bw_send_chunk s;
     cur_fw_chunk_id := v;
     cur_bw_chunk_id := cur_bw_chunk_id s;
     kwargs_chunks := kwargs_chunks s;
     saved_tensors_bw_chunks := saved_tensors_bw_chunks s;
     saved_params_step := saved_params_step s;
     saved_grads_step_chunks := saved_grads_step_chunks s;
     output_grads_chunks := output_grads_chunks s;
     returns_chunks := returns_chunks s;
     output_grads_reduced := output_grads_reduced s;
     step_grads_reduced := step_grads_reduced s;
     param_grads := param_grads s;
     net := net s |}.

Definition set_cur_bw_chunk_id (v : nat) (s : State T Net) : State T Net :=
  {| cur_fw_send_chunk := cur_fw_send_chunk s;
     cur_bw_send_chunk := cur_bw_send_chunk s;
     cur_fw_chunk_id := cur_fw_chunk_id s;
     cur_bw_chunk_id := v;
     kwargs_chunks := kwargs_chunks s;
     saved_tensors_bw_chunks := saved_tensors_bw_chunks s;
     saved_params_step := saved_params_step s;
     saved_grads_step_chunks := saved_grads_step_chunks s;
     output_grads_chunks := output_grads_chunks s;
     returns_chunks := returns_chunks s;
     output_grads_reduced := output_grads_reduced s;
     step_grads_reduced := step_grads_reduced s;
     param_grads := param_grads s;
     net := net s |}.

Definition set_kwargs_chunks (v : list (gmap string T)) (s : State T Net) : State T Net :=
  {| cur_fw_send_chunk := cur_fw_send_chunk s;
     cur_bw_send_chunk := cur_bw_send_chunk s;
     cur_fw_chunk_id := cur_fw_chunk_id s;
     cur_bw_chunk_id := cur_bw_chunk_id s;
     kwargs_chunks := v;
     saved_tensors_bw_chunks := saved_tensors_bw_chunks s;
     saved_params_step := saved_params_step s;
     saved_grads_step_chunks := saved_grads_step_chunks s;
     output_grads_chunks := output_grads_chunks s;
     returns_chunks := returns_chunks s;
     output_grads_reduced := output_grads_reduced s;
     step_grads_reduced := step_grads_reduced s;
     param_grads := param_grads s;
     net := net s |}.

Definition set_saved_tensors_bw_chunks (v : list (gmap string T)) (s : State T Net) : State T Net :=
  {| cur_fw_send_chunk := cur_fw_send_chunk s;
     cur_bw_send_chunk := cur_bw_send_chunk s;
     cur_fw_chunk_id := cur_fw_chunk_id s;
     cur_bw_chunk_id := cur_bw_chunk_id s;
     kwargs_chunks := kwargs_chunks s;
     saved_tensors_bw_chunks := v;
     saved_params_step := saved_params_step s;
     saved_grads_step_chunks := saved_grads_step_chunks s;
     output_grads_chunks := output_grads_chunks s;
     returns_chunks := returns_chunks s;
     output_grads_reduced := output_grads_reduced s;
     step_grads_reduced := step_grads_reduced s;
     param_grads := param_grads s;
     net := net s |}.

Definition set_saved_params_step (v : gmap string T) (s : State T Net) : State T Net :=
  {| cur_fw_send_chunk := cur_fw_send_chunk s;
     cur_bw_send_chunk := cur_bw_send_chunk s;
     cur_fw_chunk_id := cur_fw_chunk_id s;
     cur_bw_chunk_id := cur_bw_chunk_id s;
     kwargs_chunks := kwargs_chunks s;
     saved_tensors_bw_chunks := saved_tensors_bw_chunks s;
     saved_params_step := v;
     saved_grads_step_chunks := saved_grads_step_chunks s;
     output_grads_chunks := output_grads_chunks s;
     returns_chunks := returns_chunks s;
     output_grads_reduced := output_grads_reduced s;
     step_grads_reduced := step_grads_reduced s;
     param_grads := param_grads s;
     net := net s |}.

Definition set_saved_grads_step_chunks (v : list (gmap string T)) (s : State T Net) : State T Net :=
  {| cur_fw_send_chunk := cur_fw_send_chunk s;
     cur_bw_send_chunk := cur_bw_send_chunk s;
     cur_fw_chunk_id := cur_fw_chunk_id s;
     cur_bw_chunk_id := cur_bw_chunk_id s;
     kwargs_chunks := kwargs_chunks s;
     saved_tensors_bw_chunks := saved_tensors_bw_chunks s;
     saved_params_step := saved_params_step s;
     saved_grads_step_chunks := v;
     output_grads_chunks := output_grads_chunks s;
     returns_chunks := returns_chunks s;
     output_grads_reduced := output_grads_reduced s;
     step_grads_reduced := step_grads_reduced s;
     param_grads := param_grads s;
     net := net s |}.

Definition set_output_grads_chunks (v : list (gmap string T)) (s : State T Net) : State T Net :=
  {| cur_fw_send_chunk := cur_fw_send_chunk s;
     cur_bw_send_chunk := cur_bw_send_chunk s;
     cur_fw_chunk_id := cur_fw_chunk_id s;
     cur_bw_chunk_id := cur_bw_chunk_id s;
     kwargs_chunks := kwargs_chunks s;
     saved_tensors_bw_chunks := saved_tensors_bw_chunks s;
     saved_params_step := saved_params_step s;
     saved_grads_step_chunks := saved_grads_step_chunks s;
     output_grads_chunks := v;
     returns_chunks := returns_chunks s;
     output_grads_reduced := output_grads_reduced s;
     step_grads_reduced := step_grads_reduced s;
     param_grads := param_grads s;
     net := net s |}.

Definition set_returns_chunks (v : list (gmap string (option T))) (s : State T Net) : State T Net :=
  {| cur_fw_send_chunk := cur_fw_send_chunk s;
     cur_bw_send_chunk := cur_bw_send_chunk s;
     cur_fw_chunk_id := cur_fw_chunk_id s;
     cur_bw_chunk_id := cur_bw_chunk_id s;
     kwargs_chunks := kwargs_chunks s;
     saved_tensors_bw_chunks := saved_tensors_bw_chunks s;
     saved_params_step := saved_params_step s;
     saved_grads_step_chunks := saved_grads_step_chunks s;
     output_grads_chunks := output_grads_chunks s;
     returns_chunks := v;
     output_grads_reduced := output_grads_reduced s;
     step_grads_reduced := step_grads_reduced s;
     param_grads := param_grads s;
     net := net s |}.

Definition set_output_grads_reduced (v : option (dict_ref T)) (s : State T Net) : State T Net :=
  {| cur_fw_send_chunk := cur_fw_send_chunk s;
     cur_bw_send_chunk := cur_bw_send_chunk s;
     cur_fw_chunk_id := cur_fw_chunk_id s;
     cur_bw_chunk_id := cur_bw_chunk_id s;
     kwargs_chunks := kwargs_chunks s;
     saved_tensors_bw_chunks := saved_tensors_bw_chunks s;
     saved_params_step := saved_params_step s;
     saved_grads_step_chunks := saved_grads_step_chunks s;
     output_grads_chunks := output_grads_chunks s;
     returns_chunks := returns_chunks s;
     output_grads_reduced := v;
     step_grads_reduced := step_grads_reduced s;
     param_grads := param_grads s;
     net := net s |}.

Definition set_step_grads_reduced (v : option (dict_ref T)) (s : State T Net) : State T Net :=
  {| cur_fw_send_chunk := cur_fw_send_chunk s;
     cur_bw_send_chunk := cur_bw_send_chunk s;
     cur_fw_chunk_id := cur_fw_chunk_id s;
     cur_bw_chunk_id := cur_bw_chunk_id s;
     kwargs_chunks := kwargs_chunks s;
     saved_tensors_bw_chunks := saved_tensors_bw_chunks s;
     saved_params_step := saved_params_step s;
     saved_grads_step_chunks := saved_grads_step_chunks s;
     output_grads_chunks := output_grads_chunks s;
     returns_chunks := returns_chunks s;
     output_grads_reduced := output_grads_reduced s;
     step_grads_reduced := v;
     param_grads := param_grads s;
     net := net s |}.

Definition set_param_grads (v : gmap string (option T)) (s : State T Net) : State T Net :=
  {| cur_fw_send_chunk := cur_fw_send_chunk s;
     cur_bw_send_chunk := cur_bw_send_chunk s;
     cur_fw_chunk_id := cur_fw_chunk_id s;
     cur_bw_chunk_id := cur_bw_chunk_id s;
     kwargs_chunks := kwargs_chunks s;
     saved_tensors_bw_chunks := saved_tensors_bw_chunks s;
     saved_params_step := saved_params_step s;
     saved_grads_step_chunks := saved_grads_step_chunks s;
     output_grads_chunks := output_grads_chunks s;
     returns_chunks := returns_chunks s;
     output_grads_reduced := output_grads_reduced s;
     step_grads_reduced := step_grads_reduced s;
     param_grads := v;
     net := net s |}.

Definition set_net (v : Net) (s : State T Net) : State T Net :=
  {| cur_fw_send_chunk := cur_fw_send_chunk s;
     cur_bw_send_chunk := cur_bw_send_chunk s;
     cur_fw_chunk_id := cur_fw_chunk_id s;
     cur_bw_chunk_id := cur_bw_chunk_id s;
     kwargs_chunks := kwargs_chunks s;
     saved_tensors_bw_chunks := saved_tensors_bw_chunks s;
     saved_params_step := saved_params_step s;
     saved_grads_step_chunks := saved_grads_step_chunks s;
     output_grads_chunks := output_grads_chunks s;
     returns_chunks := returns_chunks s;
     output_grads_reduced := output_grads_reduced s;
     step_grads_reduced := step_grads_reduced s;
     param_grads := param_grads s;
     net := v |}.

End Setters.

(** *** Gradient dictionaries *)

Section Grads.
Context {T : Type} (torch_add : T -> T -> T).

(** The loop of [backward_compute_one_chunk] under
    [accumulate_grads_inplace]:
    [if grad_node in reduced: reduced[grad_node].add_(grad)
     else: reduced[grad_node] = grad], for the items of [chunk]. *)
Definition accumulate (reduced chunk : gmap string T) : gmap string T :=
  map_fold (fun grad_node grad reduced =>
              match reduced !! grad_node with
              | Some acc => <[grad_node := torch_add acc grad]> reduced
              | None => <[grad_node := grad]> reduced
              end) reduced chunk.

(** [{k: torch.add(a[k], b[k]) for k in a}] *)
Definition add_dicts (a b : gmap string T) : result (gmap string T) :=
  map_fold (fun k x acc =>
              acc ← acc;
              y ← getitem b k;
              mret (<[k := torch_add x y]> acc)) (Ok ∅) a.

Fixpoint reduce_from (a : gmap string T) (rest : list (gmap string T))
  : result (gmap string T) :=
  match rest with
  | [] => Ok a
  | b :: rest' => a' ← add_dicts a b; reduce_from a' rest'
  end.

(** [reduce(lambda a, b: {...}, chunks)]: no initial value, so an empty
    list is a [TypeError] and a list of one dictionary gives back that
    dictionary itself, not a copy. *)
Definition reduce_chunks (chunks : list (gmap string T)) : result (dict_ref T) :=
  match chunks with
  | [] => Raise TypeError
  | [_] => Ok (ChunkDict 0)
  | a :: rest => d ← reduce_from a rest; mret (OwnDict d)
  end.
End Grads.

(** *** Communication *)

Section Comm.
Context {T Net : Type}.
(** The transport: [dist.batch_isend_irecv] posts a batch and returns
    its requests, [work_wait] is [req.wait()], and [buffer_value] reads
    a receive buffer as the transport has left it. *)
Context (batch_isend_irecv : list (P2POp T) -> Net -> list nat * Net).
Context (work_wait : nat -> Net -> Net).
Context (buffer_value : Net -> nat -> T).
Context (get_global_rank : Z -> Z).

Definition maybe_batch_isend_irecv (p2p_op_list : list (P2POp T)) (n : Net)
  : list nat * Net :=
  match p2p_op_list with
  | [] => ([], n)
  | _ => batch_isend_irecv p2p_op_list n
  end.

(** [for ops in ops_list: reqs += maybe_batch_isend_irecv(ops)] *)
Fixpoint post_all (ops_list : list (list (P2POp T))) (n : Net)
  : list nat * Net :=
  match ops_list with
  | [] => ([], n)
  | ops :: rest =>
      let '(reqs, n1) := maybe_batch_isend_irecv ops n in
      let '(reqs', n2) := post_all rest n1 in
      (reqs ++ reqs', n2)
  end.

(** [for req in reqs: req.wait()] *)
Definition wait_reqs (reqs : list nat) (n : Net) : Net :=
  foldl (fun n req => work_wait req n) n reqs.

Definition _create_recv_ops (recv_info : list (Z * list (Placeholder nat)))
  : list (list (P2POp T)) :=
  (fun item : Z * list (Placeholder nat) =>
     omap (fun ph : Placeholder nat =>
             match ph with
             | RecevPlaceholder _ _ buffer => Some (irecv buffer item.1)
             | StageKwargPlaceholder _ => None
             end) item.2) <$> recv_info.

(** [stage_index_to_group_rank[dst]]: the dictionary has the stage
    indices [0 .. num_stages - 1], each mapped to itself. *)
Definition stage_index_to_group_rank (num_stages dst : Z) : result Z :=
  if ((0 <=? dst) && (dst <? num_stages))%Z then Ok dst else Raise KeyError.

(** [output_dict[node]], the output being [None] before any compute. *)
Definition output_item (output_dict : option (gmap string T)) (node : string)
  : result T :=
  match output_dict with
  | None => Raise TypeError
  | Some d => getitem d node
  end.

Fixpoint send_ops_to (peer : Z) (output_dict : option (gmap string T))
    (nodes : list string) : result (list (P2POp T)) :=
  match nodes with
  | [] => Ok []
  | node :: rest =>
      val ← output_item output_dict node;
      ops ← send_ops_to peer output_dict rest;
      mret (isend val peer :: ops)
  end.

Fixpoint send_ops_by_dst (num_stages : Z) (send_info : list (Z * list string))
    (output_dict : option (gmap string T))
  : result (list (Z * list (P2POp T))) :=
  match send_info with
  | [] => Ok []
  | (dst, nodes) :: rest =>
      peer_rank ← stage_index_to_group_rank num_stages dst;
      ops ← send_ops_to (get_global_rank peer_rank) output_dict nodes;
      by_dst ← send_ops_by_dst num_stages rest output_dict;
      mret ((dst, ops) :: by_dst)
  end.

(** The batches are returned by ascending destination:
    [[send_ops_by_dst[dst] for dst in sorted(send_info.keys())]]. *)
Definition _create_send_ops (num_stages : Z) (send_info : list (Z * list string))
    (output_dict : option (gmap string T)) : result (list (list (P2POp T))) :=
  by_dst ← send_ops_by_dst num_stages send_info output_dict;
  mret ((fun dst => CommPlan.dd_get by_dst dst)
          <$> merge_sort Z.le (send_info.*1)).

(** [collect_kwargs]: a received value is a copy of its buffer, a
    step argument is taken from the chunk's kwargs. *)
Fixpoint collect_list (chunk_kwargs : gmap string T) (n : Net)
    (ph_list : list (Placeholder nat)) (composite_kwargs : gmap string T)
  : result (gmap string T) :=
  match ph_list with
  | [] => Ok composite_kwargs
  | RecevPlaceholder name _ buffer :: rest =>
      collect_list chunk_kwargs n rest
        (<[name := buffer_value n buffer]> composite_kwargs)
  | StageKwargPlaceholder name :: rest =>
      v ← getitem chunk_kwargs name;
      collect_list chunk_kwargs n rest (<[name := v]> composite_kwargs)
  end.

Fixpoint collect_info (chunk_kwargs : gmap string T) (n : Net)
    (recv_info : list (Z * list (Placeholder nat)))
    (composite_kwargs : gmap string T) : result (gmap string T) :=
  match recv_info with
  | [] => Ok composite_kwargs
  | (rank, ph_list) :: rest =>
      composite_kwargs ← collect_list chunk_kwargs n ph_list composite_kwargs;
      collect_info chunk_kwargs n rest composite_kwargs
  end.

Definition collect_kwargs (recv_info : list (Z * list (Placeholder nat)))
    (chunk : nat) (st : State T Net) : result (gmap string T) :=
  chunk_kwargs ← index (kwargs_chunks st) chunk;
  collect_info chunk_kwargs (net st) recv_info ∅.
End Comm.

(** *** The stage actions *)

(** An action on the runtime state that may raise. *)
Definition StageM (T Net : Type) (A : Type) : Type :=
  State T Net -> result (A * State T Net).

#[export] Instance StageM_ret {T Net} : MRet (StageM T Net) :=
  fun _ a st => Ok (a, st).
#[export] Instance StageM_bind {T Net} : MBind (StageM T Net) :=
  fun _ _ k m st =>
    match m st with
    | Ok (a, st') => k a st'
    | Raise e => Raise e
    end.

(** Reading an attribute that exists only under a condition. *)
Definition attr {A} (a : option A) : result A :=
  match a with
  | Some x => Ok x
  | None => Raise AttributeError
  end.

Section Stage.
Context {T Net : Type}.
Context (torch_add : T -> T -> T).
Context (batch_isend_irecv : list (P2POp T) -> Net -> list nat * Net).
Context (work_wait : nat -> Net -> Net).
Context (buffer_value : Net -> nat -> T).
Context (get_global_rank : Z -> Z).
Context (compiled_stage : CompiledStage T).
Context (cfg : Config).

Definition forward_recv_one_chunk (wait : bool) : StageM T Net (list nat) :=
  fun st =>
    let recv_ops_by_src := _create_recv_ops (fw_kwargs_recv_info cfg) in
    let '(recv_reqs, n1) := post_all batch_isend_irecv recv_ops_by_src (net st) in
    let n2 := if wait then wait_reqs work_wait recv_reqs n1 else n1 in
    Ok (recv_reqs, set_net n2 st).

Definition forward_compute_one_chunk : StageM T Net unit := fun st =>
  let cur := cur_fw_chunk_id st in
  composite_kwargs_chunk ←
    collect_kwargs buffer_value (fw_kwargs_recv_info cfg) cur st;
  saved_tensors_bw ← index (saved_tensors_bw_chunks st) cur;
  returns_chunk ← index (returns_chunks st) cur;
  let '(saved_tensors_bw', saved_params_step', returns_chunk', output) :=
    forward compiled_stage saved_tensors_bw (saved_params_step st)
            returns_chunk composite_kwargs_chunk in
  mret (tt,
        set_cur_fw_chunk_id (S cur)
          (set_cur_fw_send_chunk (Some output)
             (set_returns_chunks (<[cur := returns_chunk']> (returns_chunks st))
                (set_saved_params_step saved_params_step'
                   (set_saved_tensors_bw_chunks
                      (<[cur := saved_tensors_bw']> (saved_tensors_bw_chunks st))
                      st))))).

Definition forward_send_one_chunk : StageM T Net (list nat) := fun st =>
  send_ops_by_dst ←
    _create_send_ops get_global_rank (num_stages cfg) (fw_act_send_info cfg)
                     (cur_fw_send_chunk st);
  let '(reqs, n1) := post_all batch_isend_irecv send_ops_by_dst (net st) in
  mret (reqs, set_net n1 st).

Definition backward_recv_one_chunk (wait : bool) : StageM T Net (list nat) :=
  fun st =>
    recv_info ← attr (bw_kwargs_recv_info cfg);
    let recv_ops_by_src := _create_recv_ops recv_info in
    let '(recv_reqs, n1) := post_all batch_isend_irecv recv_ops_by_src (net st) in
    let n2 := if wait then wait_reqs work_wait recv_reqs n1 else n1 in
    mret (recv_reqs, set_net n2 st).

(** The accumulation of chunk [cur] into the reduced dictionary and
    the clearing of the chunk.  The attribute is only read inside the
    loop over the items of the chunk. *)
Definition accumulate_into (chunks : list (gmap string T))
    (reduced_attr : option (dict_ref T)) (cur : nat)
  : result (list (gmap string T) * option (dict_ref T)) :=
  chunk ← index chunks cur;
  res ← (if Nat.eqb (size chunk) 0 then Ok (chunks, reduced_attr)
         else
           r ← attr reduced_attr;
           reduced ← deref chunks reduced_attr;
           let '(chunks', r') := store chunks r (accumulate torch_add reduced chunk) in
           mret (chunks', Some r'));
  mret (<[cur := ∅]> res.1, res.2).

Definition backward_compute_one_chunk : StageM T Net unit := fun st =>
  let cur := cur_bw_chunk_id st in
  recv_info ← attr (bw_kwargs_recv_info cfg);
  composite_kwargs_chunk ← collect_kwargs buffer_value recv_info cur st;
  saved_tensors_bw ← index (saved_tensors_bw_chunks st) cur;
  saved_grads_step ← index (saved_grads_step_chunks st) cur;
  output_grads ← index (output_grads_chunks st) cur;
  let '(saved_tensors_bw', saved_grads_step', output_grads', output) :=
    backward compiled_stage saved_tensors_bw saved_grads_step output_grads
             composite_kwargs_chunk in
  let st1 :=
    set_cur_bw_send_chunk (Some output)
      (set_output_grads_chunks (<[cur := output_grads']> (output_grads_chunks st))
         (set_saved_grads_step_chunks
            (<[cur := saved_grads_step']> (saved_grads_step_chunks st))
            (set_saved_tensors_bw_chunks
               (<[cur := saved_tensors_bw']> (saved_tensors_bw_chunks st)) st))) in
  st2 ← (if accumulate_grads_inplace cfg then
           sg ← accumulate_into (saved_grads_step_chunks st1)
                                (step_grads_reduced st1) cur;
           og ← accumulate_into (output_grads_chunks st1)
                                (output_grads_reduced st1) cur;
           mret (set_output_grads_reduced og.2
                   (set_output_grads_chunks og.1
                      (set_step_grads_reduced sg.2
                         (set_saved_grads_step_chunks sg.1 st1))))
         else mret st1);
  mret (tt, set_cur_bw_chunk_id (S cur) st2).

Definition backward_send_one_chunk : StageM T Net (list nat) := fun st =>
  send_info ← attr (bw_grad_send_info cfg);
  send_ops_by_dst ←
    _create_send_ops get_global_rank (num_stages cfg) send_info
                     (cur_bw_send_chunk st);
  let '(reqs, n1) := post_all batch_isend_irecv send_ops_by_dst (net st) in
  mret (reqs, set_net n1 st).

(** [compiled_stage.step(self.saved_params_step, self.step_grads_reduced)],
    the callable being free to change both dictionaries. *)
Definition step : StageM T Net unit := fun st =>
  r ← attr (step_grads_reduced st);
  reduced ← deref (saved_grads_step_chunks st) (step_grads_reduced st);
  let '(saved_params_step', reduced') :=
    step_fn compiled_stage (saved_params_step st) reduced in
  let '(chunks, r') := store (saved_grads_step_chunks st) r reduced' in
  mret (tt,
        set_step_grads_reduced (Some r')
          (set_saved_grads_step_chunks chunks
             (set_saved_params_step saved_params_step' st))).

(** The loop of [merge_and_assign_chunked_grads] that writes the
    reduced output gradients to the [grad] of their parameters.  The
    items are visited in the order of the map; the result does not
    depend on it as long as distinct gradients go to distinct
    parameters. *)
Definition assign_grads (reduced : gmap string T)
    (grads : gmap string (option T)) : result (gmap string (option T)) :=
  map_fold (fun grad_name grad acc =>
              grads ← acc;
              param_torch_name ← OneToOneMap.inv_get (output_grads_map cfg) grad_name;
              param_node_name ← OneToOneMap.get (input_params_map cfg) param_torch_name;
              _ ← getitem grads param_node_name;
              mret (<[param_node_name := Some grad]> grads))
           (Ok grads) reduced.

Definition merge_and_assign_chunked_grads : StageM T Net unit := fun st =>
  st1 ← (if accumulate_grads_inplace cfg then mret st
         else
           sr ← reduce_chunks torch_add (saved_grads_step_chunks st);
           let st' := set_saved_grads_step_chunks
                        (clear_single (saved_grads_step_chunks st))
                        (set_step_grads_reduced (Some sr) st) in
           or ← reduce_chunks torch_add (output_grads_chunks st');
           mret (set_output_grads_chunks
                   (clear_single (output_grads_chunks st'))
                   (set_output_grads_reduced (Some or) st')));
  st2 ← (if step_node cfg then mret st1
         else
           reduced ← deref (output_grads_chunks st1) (output_grads_reduced st1);
           grads ← assign_grads reduced (param_grads st1);
           mret (set_param_grads grads st1));
  r ← attr (output_grads_reduced st2);
  let '(chunks, r') := store (output_grads_chunks st2) r ∅ in
  mret (tt, set_output_grads_reduced (Some r')
              (set_output_grads_chunks chunks st2)).

Definition reset_and_check_runtime_states : StageM T Net unit := fun st =>
  let st :=
    set_kwargs_chunks (clear_single (kwargs_chunks st))
      (set_cur_bw_chunk_id 0
         (set_cur_fw_chunk_id 0
            (set_cur_bw_send_chunk None
               (set_cur_fw_send_chunk None st)))) in
  _ ← check_single (returns_chunks st);
  _ ← check_single (saved_tensors_bw_chunks st);
  _ ← check_single (saved_grads_step_chunks st);
  _ ← check_single (output_grads_chunks st);
  if accumulate_grads_inplace cfg then
    og ← deref (output_grads_chunks st) (output_grads_reduced st);
    _ ← (if Nat.eqb (size og) 0 then Ok tt else Raise AssertionError);
    sg ← deref (saved_grads_step_chunks st) (step_grads_reduced st);
    _ ← (if Nat.eqb (size sg) 0 then Ok tt else Raise AssertionError);
    mret (tt, st)
  else mret (tt, st).

#[local] Instance stage_runtime : Schedule.RuntimeMixin (StageM T Net) nat :=
  {| Schedule.forward_send_one_chunk := forward_send_one_chunk;
     Schedule.forward_compute_one_chunk := forward_compute_one_chunk;
     Schedule.forward_recv_one_chunk := forward_recv_one_chunk;
     Schedule.backward_recv_one_chunk := backward_recv_one_chunk;
     Schedule.backward_compute_one_chunk := backward_compute_one_chunk;
     Schedule.backward_send_one_chunk := backward_send_one_chunk;
     Schedule.merge_and_assign_chunked_grads := merge_and_assign_chunked_grads;
     Schedule.step := step |}.

#[local] Instance stage_wait : Schedule.Waitable (StageM T Net) nat :=
  fun req st => Ok (tt, set_net (work_wait req (net st)) st).
End Stage.

(** *** A whole step *)

(** [for node_name in spec: chunk[node_name] = chunk.get(node_name, None)] *)
Definition fill_chunk {T} (spec_names : list string)
    (chunk : gmap string (option T)) : gmap string (option T) :=
  foldl (fun chunk node_name =>
           <[node_name := default None (chunk !! node_name)]> chunk)
        chunk spec_names.

(** The loops over the gathered results:
    [for returns in returns_all_gather:
       for k, v in returns.items():
         if v is not None: returns_dict[k] = v]. *)
Definition gather_step {T} (returns_dict : gmap string T)
    (returns : gmap string (option T)) : gmap string T :=
  map_fold (fun k v returns_dict =>
              match v with
              | Some t => <[k := t]> returns_dict
              | None => returns_dict
              end) returns_dict returns.

Definition gather_returns {T} (returns_all_gather : list (gmap string (option T)))
  : gmap string T :=
  foldl gather_step ∅ returns_all_gather.

Section Call.
Context {T Net : Type}.
Context (torch_add : T -> T -> T).
Context (batch_isend_irecv : list (P2POp T) -> Net -> list nat * Net).
Context (work_wait : nat -> Net -> Net).
Context (buffer_value : Net -> nat -> T).
Context (get_global_rank : Z -> Z).
(** The microbatch library and the collective of the transport:
    [split_args_kwargs_into_chunks((), kwargs, num_chunks, ...)[1]],
    [merge_chunks(chunks, spec)] and [dist.all_gather_object], which
    returns the partial results of all stages in stage order. *)
Context (split_args_kwargs_into_chunks :
           gmap string T -> Z -> list (gmap string T)).
Context (merge_chunks :
           list (gmap string (option T)) -> gmap string (option T)).
Context (all_gather_object :
           gmap string (option T) -> Net -> list (gmap string (option T)) * Net).
Context (compiled_stage : CompiledStage T).
Context (cfg : Config).

Definition split_input_kwargs (kwargs : gmap string T) : list (gmap string T) :=
  split_args_kwargs_into_chunks kwargs (num_chunks cfg).

(** The result is the list [return_tensors]; its unflattening is left
    to the caller. *)
Definition merge_chunked_returns : StageM T Net (list T) := fun st =>
  let chunks := fill_chunk (returns_nodes_chunk_spec cfg) <$> returns_chunks st in
  let returns := merge_chunks chunks in
  let st1 := set_returns_chunks (clear_single chunks) st in
  let '(returns_all_gather, n1) := all_gather_object returns (net st1) in
  let returns_dict := gather_returns returns_all_gather in
  return_tensors ← mapM (getitem returns_dict) (return_nodes_flatten cfg);
  mret (return_tensors, set_net n1 st1).

(** [PipelineStage.__call__], from the dictionary [input_node_vals] it
    builds out of its arguments (the flattening of the arguments and their
    resharding come before and are not modelled); [schedule] is
    [self.schedule]. *)
Definition __call__ (schedule : StageM T Net unit)
    (input_node_vals : gmap string T) : StageM T Net (list T) :=
  _ ← reset_and_check_runtime_states cfg;
  _ ← (fun st => Ok (tt, set_kwargs_chunks (split_input_kwargs input_node_vals) st));
  _ ← schedule;
  merge_chunked_returns.

(** [ScheduleGPipe(self)] and [ScheduleDAPPLE(self)] on this stage. *)
Definition gpipe : StageM T Net unit :=
  Schedule.ScheduleGPipe
    (RuntimeMixin0 := stage_runtime torch_add batch_isend_irecv work_wait
                        buffer_value get_global_rank compiled_stage cfg)
    (Waitable0 := stage_wait work_wait)
    (num_chunks cfg) (bw_node cfg) (step_node cfg).

Definition dapple (num_warmup : Z) : StageM T Net unit :=
  Schedule.ScheduleDAPPLE
    (RuntimeMixin0 := stage_runtime torch_add batch_isend_irecv work_wait
                        buffer_value get_global_rank compiled_stage cfg)
    (Waitable0 := stage_wait work_wait)
    num_warmup (num_chunks cfg) (step_node cfg).
End Call.

(** *** Assembling the returned values *)

(** The values the stages contribute for the name [k], in stage order. *)
Definition contributions {T} (returns_all_gather : list (gmap string (option T)))
    (k : string) : list T :=
  omap (fun returns : gmap string (option T) => mjoin (returns !! k))
       returns_all_gather.

Lemma fill_chunk_lookup {T} spec_names (chunk : gmap string (option T)) k :
  fill_chunk spec_names chunk !! k =
  if decide (k ∈ spec_names) then Some (default None (chunk !! k))
  else chunk !! k.
Proof.
  unfold fill_chunk. revert chunk.
  induction spec_names as [|n spec_names IH]; intros chunk; simpl; [done|].
  rewrite IH. destruct (decide (k = n)) as [->|Hne].
  - rewrite lookup_insert_eq. simpl.
    rewrite (decide_True (P := n ∈ n :: spec_names)) by left.
    by case_decide.
  - rewrite lookup_insert_ne by done.
    destruct (decide (k ∈ spec_names)) as [Hin|Hin].
    + rewrite decide_True by (by right). done.
    + rewrite decide_False; [done|]. by intros [?|?]%elem_of_cons.
Qed.

Lemma gather_step_lookup {T} (returns_dict : gmap string T) returns k :
  gather_step returns_dict returns !! k =
  match mjoin (returns !! k) with
  | Some t => Some t
  | None => returns_dict !! k
  end.
Proof.
  unfold gather_step.
  apply (map_fold_weak_ind
           (fun r (m : gmap string (option T)) =>
              r !! k = match mjoin (m !! k) with
                       | Some t => Some t
                       | None => returns_dict !! k
                       end)).
  - by rewrite lookup_empty.
  - intros i x m r Hi IH. destruct (decide (k = i)) as [->|Hne].
    + rewrite lookup_insert_eq. rewrite Hi in IH. simpl in *.
      destruct x as [t|]; [by rewrite lookup_insert_eq|done].
    + rewrite (lookup_insert_ne m) by done. rewrite <- IH.
      destruct x as [t|]; [by rewrite lookup_insert_ne|done].
Qed.

Lemma gather_fold_lookup {T} (acc : gmap string T) l k :
  foldl gather_step acc l !! k =
  match last (contributions l k) with
  | Some t => Some t
  | None => acc !! k
  end.
Proof.
  revert acc. induction l as [|d l IH]; intros acc; simpl; [done|].
  rewrite IH, gather_step_lookup. unfold contributions. simpl.
  fold (contributions l k).
  destruct (mjoin (d !! k)) as [t|]; [|done].
  rewrite last_cons. by destruct (last (contributions l k)).
Qed.

Lemma gather_returns_lookup {T} (l : list (gmap string (option T))) k :
  gather_returns l !! k = last (contributions l k).
Proof.
  unfold gather_returns. rewrite gather_fold_lookup, lookup_empty.
  by destruct (last (contributions l k)).
Qed.

Lemma mapM_getitem {V} (d : gmap string V) names :
  match mapM (getitem d) names with
  | Ok vs => mapM (fun k => d !! k) names = Some vs
  | Raise e => e = KeyError /\ exists k, k ∈ names /\ d !! k = None
  end.
Proof.
  induction names as [|n names IH]; cbn [mapM]; [done|].
  destruct (d !! n) as [v|] eqn:Hn.
  - replace (getitem d n) with (Ok v) by (unfold getitem; by rewrite Hn).
    destruct (mapM (getitem d) names) as [vs|e]; cbn.
    + by rewrite IH.
    + destruct IH as (-> & k & Hk & Hd). split; [done|].
      exists k. split; [by right|done].
  - replace (getitem d n) with (@Raise V KeyError)
      by (unfold getitem; by rewrite Hn).
    cbn. split; [done|]. exists n. split; [by left|done].
Qed.

Section ReturnsFacts.
Context {T Net : Type}.
Context (merge_chunks : list (gmap string (option T)) -> gmap string (option T)).
Context (all_gather_object :
           gmap string (option T) -> Net -> list (gmap string (option T)) * Net).
Context (cfg : Config).

(** The loop over the gathered results overwrites: the partial result of
    a stage is the merge of its chunks with the missing declared names
    filled with [None], and the final result holds, for each declared
    return name, the last contribution that is not [None] in stage order;
    a declared name with no contribution raises [KeyError]. *)
Lemma merge_chunked_returns_last_contribution (st : State T Net) :
  let chunks := fill_chunk (returns_nodes_chunk_spec cfg) <$> returns_chunks st in
  let returns_all_gather := (all_gather_object (merge_chunks chunks) (net st)).1 in
  (forall (chunk : gmap string (option T)) k,
     k ∈ returns_nodes_chunk_spec cfg ->
     fill_chunk (returns_nodes_chunk_spec cfg) chunk !! k
     = Some (default None (chunk !! k))) /\
  match merge_chunked_returns merge_chunks all_gather_object cfg st with
  | Ok (return_tensors, _) =>
      mapM (fun k => last (contributions returns_all_gather k))
           (return_nodes_flatten cfg) = Some return_tensors
  | Raise e =>
      e = KeyError /\
      exists k, k ∈ return_nodes_flatten cfg /\
                contributions returns_all_gather k = []
  end.
Proof.
  intros chunks returns_all_gather. split.
  { intros chunk k Hk. rewrite fill_chunk_lookup. by rewrite decide_True. }
  unfold merge_chunked_returns. fold chunks. cbn [net set_returns_chunks].
  unfold returns_all_gather.
  destruct (all_gather_object (merge_chunks chunks) (net st)) as [gathered n1].
  cbn [fst].
  pose proof (mapM_getitem (gather_returns gathered) (return_nodes_flatten cfg)) as H.
  destruct (mapM (getitem (gather_returns gathered)) (return_nodes_flatten cfg))
    as [ts|e]; cbn.
  - rewrite <- H. clear H.
    induction (return_nodes_flatten cfg) as [|k ks IH]; cbn [mapM]; [done|].
    by rewrite IH, gather_returns_lookup.
  - destruct H as (-> & k & Hk & Hnone). split; [done|].
    exists k. split; [done|].
    rewrite gather_returns_lookup in Hnone.
    by apply last_None in Hnone.
Qed.

(** Every declared return value is produced by one stage at most: among
    the gathered partial results, at most one holds a value for it that
    is not [None]. *)
Definition produced_once (returns_all_gather : list (gmap string (option T))) : Prop :=
  forall k, k ∈ return_nodes_flatten cfg ->
            length (contributions returns_all_gather k) <= 1.

Lemma head_last_once {A} (l : list A) : length l <= 1 -> head l = last l.
Proof. destruct l as [|x [|y l]]; cbn; [done|done|lia]. Qed.

(** C8: the partial result of a stage is the merge of its chunks with the
    missing declared names filled with [None]; when every declared value
    is produced by one stage at most, the final result takes, for each
    declared return name, the first contribution that is not [None] in
    stage order among the gathered partial results, and raises
    [KeyError] when a declared name has no contribution. *)
Theorem merge_chunked_returns_first_contribution (st : State T Net) :
  let chunks := fill_chunk (returns_nodes_chunk_spec cfg) <$> returns_chunks st in
  let returns_all_gather := (all_gather_object (merge_chunks chunks) (net st)).1 in
  produced_once returns_all_gather ->
  (forall (chunk : gmap string (option T)) k,
     k ∈ returns_nodes_chunk_spec cfg ->
     fill_chunk (returns_nodes_chunk_spec cfg) chunk !! k
     = Some (default None (chunk !! k))) /\
  match merge_chunked_returns merge_chunks all_gather_object cfg st with
  | Ok (return_tensors, _) =>
      mapM (fun k => head (contributions returns_all_gather k))
           (return_nodes_flatten cfg) = Some return_tensors
  | Raise e =>
      e = KeyError /\
      exists k, k ∈ return_nodes_flatten cfg /\
                contributions returns_all_gather k = []
  end.
Proof.
  intros chunks returns_all_gather Honce.
  destruct (merge_chunked_returns_last_contribution st) as [Hfill Hlast].
  split; [exact Hfill|].
  fold chunks in Hlast. fold returns_all_gather in Hlast.
  destruct (merge_chunked_returns merge_chunks all_gather_object cfg st)
    as [[return_tensors st']|e]; [|exact Hlast].
  rewrite <- Hlast. clear Hlast. unfold produced_once in Honce.
  induction (return_nodes_flatten cfg) as [|k ks IH]; [done|].
  cbn [mapM]. rewrite IH by (intros k' Hk'; apply Honce; by right).
  rewrite (head_last_once (contributions returns_all_gather k)); [done|].
  apply Honce. by left.
Qed.
End ReturnsFacts.

(** Were two stages to produce the declared value ["r"], the step would
    return the value of the second. *)
Definition two_producers : list (gmap string (option Z)) :=
  [ {["r" := Some 1%Z]}; {["r" := Some 2%Z]} ].

Definition returns_cfg : Config :=
  {| stage_idx := 0; num_stages := 2; num_chunks := 1;
     bw_node := false; step_node := false; accumulate_grads_inplace := false;
     fw_kwargs_recv_info := []; fw_act_send_info := [];
     bw_kwargs_recv_info := None; bw_grad_send_info := None;
     output_grads_map := OneToOneMap.empty; input_params_map := OneToOneMap.empty;
     returns_nodes_chunk_spec := ["r"]; return_nodes_flatten := ["r"] |}.

Definition returns_state : State Z unit :=
  {| cur_fw_send_chunk := None; cur_bw_send_chunk := None;
     cur_fw_chunk_id := 1; cur_bw_chunk_id := 0;
     kwargs_chunks := [∅]; saved_tensors_bw_chunks := [∅];
     saved_params_step := ∅; saved_grads_step_chunks := [∅];
     output_grads_chunks := [∅]; returns_chunks := [{["r" := Some 1%Z]}];
     output_grads_reduced := None; step_grads_reduced := None;
     param_grads := ∅; net := tt |}.

Lemma two_producers_last_wins :
  let result :=
    fst <$> match merge_chunked_returns
                    (fun chunks => default ∅ (head chunks))
                    (fun _ n => (two_producers, n)) returns_cfg returns_state with
            | Ok x => Some x
            | Raise _ => None
            end in
  let firsts :=
    mapM (fun k => head (contributions two_producers k))
         (return_nodes_flatten returns_cfg) in
  firsts = Some [1%Z] /\ result = Some [2%Z] /\ result <> firsts.
Proof.
  assert (forall a b : Z, a <> b -> Some [a] <> Some [b]) as Hne by congruence.
  split; [vm_compute; reflexivity|]. split; [vm_compute; reflexivity|].
  vm_compute. by apply Hne.
Qed.

(** Two stages, of which the first alone produces the declared value
    ["r"]. *)
Definition one_producer : list (gmap string (option Z)) :=
  [ {["r" := Some 1%Z]}; {["r" := None]} ].

Lemma merge_chunked_returns_first_contribution_witness :
  fst <$> match merge_chunked_returns
                  (fun chunks => default ∅ (head chunks))
                  (fun _ n => (one_producer, n)) returns_cfg returns_state with
          | Ok x => Some x
          | Raise _ => None
          end = Some [1%Z] /\
  match merge_chunked_returns
          (fun chunks => default ∅ (head chunks))
          (fun _ n => (one_producer, n)) returns_cfg returns_state with
  | Ok (return_tensors, _) =>
      mapM (fun k => head (contributions one_producer k))
           (return_nodes_flatten returns_cfg) = Some return_tensors
  | Raise e =>
      e = KeyError /\
      exists k, k ∈ return_nodes_flatten returns_cfg /\
                contributions one_producer k = []
  end.
Proof.
  split; [vm_compute; reflexivity|].
  refine (proj2 (merge_chunked_returns_first_contribution
                   (fun chunks => default ∅ (head chunks))
                   (fun _ n => (one_producer, n)) returns_cfg returns_state _)).
  intros k Hk. apply list_elem_of_singleton in Hk as ->. vm_compute. lia.
Defined.

(** *** The start of a step *)

Definition all_empty {V} (chunks_list : list (gmap string V)) : bool :=
  forallb (fun chunk => Nat.eqb (size chunk) 0) chunks_list.

(** The per-chunk buffers other than kwargs are all empty. *)
Definition buffers_empty {T Net} (st : State T Net) : bool :=
  all_empty (returns_chunks st) && all_empty (saved_tensors_bw_chunks st)
  && all_empty (saved_grads_step_chunks st) && all_empty (output_grads_chunks st).

(** The state [reset_and_check_runtime_states] leaves when it returns. *)
Definition reset_state {T Net} (st : State T Net) : State T Net :=
  set_kwargs_chunks (clear_single (kwargs_chunks st))
    (set_cur_bw_chunk_id 0
       (set_cur_fw_chunk_id 0
          (set_cur_bw_send_chunk None (set_cur_fw_send_chunk None st)))).

Lemma all_empty_Forall {V} (chunks_list : list (gmap string V)) :
  all_empty chunks_list = true <-> Forall (fun chunk => chunk = ∅) chunks_list.
Proof.
  unfold all_empty. rewrite forallb_forall, Forall_forall.
  split; intros H chunk Hin.
  - apply map_size_empty_iff, Nat.eqb_eq, H. by apply list_elem_of_In.
  - apply Nat.eqb_eq, map_size_empty_iff, H. by apply list_elem_of_In.
Qed.

Lemma check_single_all_empty {V} (chunks_list : list (gmap string V)) :
  check_single chunks_list =
  if all_empty chunks_list then Ok tt else Raise AssertionError.
Proof. reflexivity. Qed.

Section CallFacts.
Context {T Net : Type}.
Context (split_args_kwargs_into_chunks : gmap string T -> Z -> list (gmap string T)).
Context (merge_chunks : list (gmap string (option T)) -> gmap string (option T)).
Context (all_gather_object :
           gmap string (option T) -> Net -> list (gmap string (option T)) * Net).
Context (cfg : Config).

Lemma reset_not_empty (st : State T Net) :
  buffers_empty st = false ->
  reset_and_check_runtime_states cfg st = Raise AssertionError.
Proof.
  unfold buffers_empty, reset_and_check_runtime_states. fold (reset_state st).
  rewrite !check_single_all_empty. cbn [reset_state returns_chunks
    saved_tensors_bw_chunks saved_grads_step_chunks output_grads_chunks
    set_kwargs_chunks set_cur_bw_chunk_id set_cur_fw_chunk_id
    set_cur_bw_send_chunk set_cur_fw_send_chunk].
  intros H.
  destruct (all_empty (returns_chunks st)); [|done].
  destruct (all_empty (saved_tensors_bw_chunks st)); [|done].
  destruct (all_empty (saved_grads_step_chunks st)); [|done].
  destruct (all_empty (output_grads_chunks st)); done.
Qed.

Lemma reset_ok_inv (st : State T Net) x :
  reset_and_check_runtime_states cfg st = Ok x ->
  buffers_empty st = true /\ x = (tt, reset_state st).
Proof.
  destruct (buffers_empty st) eqn:He.
  2:{ rewrite reset_not_empty by done. discriminate. }
  intros H. split; [done|].
  unfold reset_and_check_runtime_states in H. fold (reset_state st) in H.
  repeat match type of H with
         | context [check_single ?l] => destruct (check_single l); [|discriminate]
         end.
  cbn in H. destruct (accumulate_grads_inplace cfg); [|by inv H].
  repeat (apply bind_Ok_inv in H as (? & _ & H)).
  by inv H.
Qed.

Lemma reset_ok (st : State T Net) :
  buffers_empty st = true ->
  (if accumulate_grads_inplace cfg
   then output_grads_reduced st = Some (OwnDict ∅) /\
        step_grads_reduced st = Some (OwnDict ∅)
   else True) ->
  reset_and_check_runtime_states cfg st = Ok (tt, reset_state st).
Proof.
  unfold buffers_empty, reset_and_check_runtime_states. fold (reset_state st).
  rewrite !check_single_all_empty. cbn [reset_state returns_chunks
    saved_tensors_bw_chunks saved_grads_step_chunks output_grads_chunks
    output_grads_reduced step_grads_reduced
    set_kwargs_chunks set_cur_bw_chunk_id set_cur_fw_chunk_id
    set_cur_bw_send_chunk set_cur_fw_send_chunk].
  intros H Hacc. repeat (apply andb_prop in H as [H ?]).
  repeat match goal with Hx : all_empty _ = true |- _ => rewrite Hx; clear Hx end.
  rewrite !bind_Ok. destruct (accumulate_grads_inplace cfg); [|done].
  destruct Hacc as [-> ->]. reflexivity.
Qed.
End CallFacts.

Section CallStart.
Context {T Net : Type}.
Context (split_args_kwargs_into_chunks : gmap string T -> Z -> list (gmap string T)).
Context (merge_chunks : list (gmap string (option T)) -> gmap string (option T)).
Context (all_gather_object :
           gmap string (option T) -> Net -> list (gmap string (option T)) * Net).
Context (cfg : Config).

(** The state the schedule of a step starts from. *)
Definition step_start (input_node_vals : gmap string T) (st : State T Net)
  : State T Net :=
  set_kwargs_chunks (split_input_kwargs split_args_kwargs_into_chunks cfg input_node_vals)
                    (reset_state st).

(** C2: a call of the stage raises [AssertionError] when a per-chunk buffer
    other than kwargs (returns, saved tensors, step gradients, output
    gradients) is not empty; otherwise (in in-place mode: when the reduced
    accumulators are empty too) the schedule is run from the state in
    which the kwargs chunks are the split inputs of the new step, both
    chunk cursors are 0 and the other buffers are as they were, that is,
    empty. *)
Theorem call_checks_and_resets (schedule : StageM T Net unit)
    (input_node_vals : gmap string T) (st : State T Net) :
  let call := __call__ split_args_kwargs_into_chunks merge_chunks
                       all_gather_object cfg schedule input_node_vals in
  let start := step_start input_node_vals st in
  (buffers_empty st = false -> call st = Raise AssertionError) /\
  (buffers_empty st = true ->
   (if accumulate_grads_inplace cfg
    then output_grads_reduced st = Some (OwnDict ∅) /\
         step_grads_reduced st = Some (OwnDict ∅)
    else True) ->
   call st = (schedule ≫= fun _ => merge_chunked_returns merge_chunks
                                      all_gather_object cfg) start) /\
  (forall x, reset_and_check_runtime_states cfg st = Ok x ->
     buffers_empty st = true /\
     call st = (schedule ≫= fun _ => merge_chunked_returns merge_chunks
                                        all_gather_object cfg) start) /\
  kwargs_chunks start = split_input_kwargs split_args_kwargs_into_chunks cfg
                          input_node_vals /\
  cur_fw_chunk_id start = 0 /\ cur_bw_chunk_id start = 0 /\
  buffers_empty start = buffers_empty st.
Proof.
  intros call start.
  assert (forall x, reset_and_check_runtime_states cfg st = Ok x ->
            call st = (schedule ≫= fun _ => merge_chunked_returns merge_chunks
                                               all_gather_object cfg) start) as Hrun.
  { intros x Hx. destruct (reset_ok_inv cfg st x Hx) as [_ ->].
    unfold call, __call__. unfold mbind at 1, StageM_bind. rewrite Hx.
    reflexivity. }
  split; [|split; [|split]].
  - intros He. unfold call, __call__. unfold mbind at 1, StageM_bind.
    by rewrite reset_not_empty.
  - intros He Hacc. by eapply Hrun, reset_ok.
  - intros x Hx. split; [by eapply reset_ok_inv|by eapply Hrun].
  - done.
Qed.
End CallStart.

(** *** A one-stage pipeline to run steps on *)

(** Tensors are integers and there is no peer.  The forward callable saves
    its input ["x"] as ["a"] for the backward, returns it as ["out"] and
    outputs it as ["y"];
    the backward callable consumes ["a"] and produces the step gradient
    ["w.grad"] and the output gradient ["p.grad"]; the step callable
    updates the parameter ["w"] and leaves the gradients it is given. *)
Definition demo_stage : CompiledStage Z :=
  {| forward := fun saved_tensors_bw saved_params_step returns_chunk kwargs =>
       let x := default 0%Z (kwargs !! "x") in
       (<["a" := x]> saved_tensors_bw, saved_params_step,
        <["out" := Some x]> returns_chunk, {["y" := x]});
     backward := fun saved_tensors_bw saved_grads_step output_grads kwargs =>
       let a := default 0%Z (saved_tensors_bw !! "a") in
       (delete "a" saved_tensors_bw, <["w.grad" := a]> saved_grads_step,
        <["p.grad" := a]> output_grads, ∅);
     step_fn := fun saved_params_step step_grads_reduced =>
       (<["w" := (default 0 (saved_params_step !! "w")
                  - default 0 (step_grads_reduced !! "w.grad"))%Z]> saved_params_step,
        step_grads_reduced) |}.

Definition demo_cfg (chunks : Z) (bw step inplace : bool) : Config :=
  {| stage_idx := 0; num_stages := 1; num_chunks := chunks;
     bw_node := bw; step_node := step; accumulate_grads_inplace := inplace;
     fw_kwargs_recv_info := [(0%Z, [StageKwargPlaceholder "x"])];
     fw_act_send_info := [];
     bw_kwargs_recv_info := if bw then Some [] else None;
     bw_grad_send_info := if bw then Some [] else None;
     output_grads_map :=
       {| OneToOneMap._map := {["p" := "p.grad"]};
          OneToOneMap._inv := {["p.grad" := "p"]} |};
     input_params_map :=
       {| OneToOneMap._map := {["p" := "p_node"]};
          OneToOneMap._inv := {["p_node" := "p"]} |};
     returns_nodes_chunk_spec := ["out"]; return_nodes_flatten := ["out"] |}.

(** [_init_runtime_states] followed by the split of the inputs [xs], one
    per chunk. *)
Definition demo_init (xs : list Z) (inplace : bool) : State Z unit :=
  {| cur_fw_send_chunk := None; cur_bw_send_chunk := None;
     cur_fw_chunk_id := 0; cur_bw_chunk_id := 0;
     kwargs_chunks := (fun x => {["x" := x]}) <$> xs;
     saved_tensors_bw_chunks := (fun _ => ∅) <$> xs;
     saved_params_step := {["w" := 100%Z]};
     saved_grads_step_chunks := (fun _ => ∅) <$> xs;
     output_grads_chunks := (fun _ => ∅) <$> xs;
     returns_chunks := (fun _ => ∅) <$> xs;
     output_grads_reduced := if inplace then Some (OwnDict ∅) else None;
     step_grads_reduced := if inplace then Some (OwnDict ∅) else None;
     param_grads := {["p_node" := None]};
     net := tt |}.

(** The GPipe schedule of the one-stage pipeline on the inputs [xs]; the
    transport has nothing to do. *)
Definition demo_gpipe (xs : list Z) (bw step inplace : bool)
  : result (unit * State Z unit) :=
  gpipe Z.add (fun _ n => ([], n)) (fun _ n => n) (fun _ _ => 0%Z) id demo_stage
        (demo_cfg (Z.of_nat (length xs)) bw step inplace)
        (demo_init xs inplace).

(** What the step callable is given, and the gradient written to the
    parameter, at the end of a schedule. *)
Definition reduced_step_grads (r : result (unit * State Z unit))
  : result (gmap string Z) :=
  x ← r; deref (saved_grads_step_chunks x.2) (step_grads_reduced x.2).

Definition param_grad (r : result (unit * State Z unit)) (p : string)
  : result (option Z) :=
  x ← r; getitem (param_grads x.2) p.

(** *** The two ways of reducing the gradients *)

Section GradsFacts.
Context {T : Type} (torch_add : T -> T -> T).

Lemma accumulate_lookup (reduced chunk : gmap string T) k :
  accumulate torch_add reduced chunk !! k =
  match chunk !! k with
  | Some grad => Some (match reduced !! k with
                       | Some acc => torch_add acc grad
                       | None => grad
                       end)
  | None => reduced !! k
  end.
Proof.
  unfold accumulate.
  apply (map_fold_weak_ind
           (fun r (m : gmap string T) =>
              (forall j, m !! j = None -> r !! j = reduced !! j) /\
              r !! k = match m !! k with
                       | Some grad => Some (match reduced !! k with
                                            | Some acc => torch_add acc grad
                                            | None => grad
                                            end)
                       | None => reduced !! k
                       end)).
  - split; [done|]. by rewrite lookup_empty.
  - intros i x m r Hi [Hout IH]. split.
    + intros j Hj. apply lookup_insert_None in Hj as [Hj Hne].
      destruct (r !! i); rewrite lookup_insert_ne by done; by apply Hout.
    + destruct (decide (k = i)) as [->|Hne].
      * rewrite (lookup_insert_eq m). rewrite <- (Hout i Hi).
        destruct (r !! i); by rewrite lookup_insert_eq.
      * rewrite (lookup_insert_ne m) by done. rewrite <- IH.
        destruct (r !! i); by rewrite lookup_insert_ne.
Qed.

Lemma add_dicts_spec (a b : gmap string T) :
  match add_dicts torch_add a b with
  | Ok d => forall k, d !! k = (x ← a !! k; y ← b !! k; Some (torch_add x y)) /\
                      (is_Some (a !! k) -> is_Some (b !! k))
  | Raise e => e = KeyError /\ exists k, is_Some (a !! k) /\ b !! k = None
  end.
Proof.
  unfold add_dicts.
  apply (map_fold_weak_ind
           (fun r (m : gmap string T) =>
              match r with
              | Ok d => forall k, d !! k = (x ← m !! k; y ← b !! k; Some (torch_add x y)) /\
                                  (is_Some (m !! k) -> is_Some (b !! k))
              | Raise e => e = KeyError /\ exists k, is_Some (m !! k) /\ b !! k = None
              end)).
  - intros k. rewrite !lookup_empty. split; [done|]. by intros [? ?].
  - intros i x m r Hi IH. destruct r as [d|e]; cbn.
    + unfold getitem. destruct (b !! i) as [y|] eqn:Hb; cbn.
      * intros k. destruct (decide (k = i)) as [->|Hne].
        -- rewrite !lookup_insert_eq. cbn. rewrite Hb. by split.
        -- rewrite !lookup_insert_ne by done. apply IH.
      * split; [done|]. exists i. by rewrite lookup_insert_eq.
    + destruct IH as (-> & k & [v Hk] & Hb). split; [done|].
      exists k. split; [|done]. rewrite lookup_insert_ne; [by eexists|].
      intros ->. congruence.
Qed.

(** When the dictionaries have the same keys, one step of the end-of-step
    reduction is one step of the in-place accumulation. *)
Lemma add_dicts_accumulate (a b : gmap string T) :
  dom b = dom a -> add_dicts torch_add a b = Ok (accumulate torch_add a b).
Proof.
  intros Hdom. pose proof (add_dicts_spec a b) as H.
  assert (forall k, is_Some (a !! k) <-> is_Some (b !! k)) as Hk.
  { intros k. by rewrite <- !elem_of_dom, Hdom. }
  destruct (add_dicts torch_add a b) as [d|e].
  - f_equal. apply map_eq. intros k. rewrite accumulate_lookup.
    destruct (H k) as [-> _]. specialize (Hk k).
    destruct (a !! k), (b !! k); cbn; try done.
    + destruct (proj1 Hk) as [? ?]; [eauto|done].
    + destruct (proj2 Hk) as [? ?]; [eauto|done].
  - destruct H as (_ & k & Ha & Hb). apply Hk in Ha. rewrite Hb in Ha.
    by destruct Ha.
Qed.

Lemma accumulate_dom (a b : gmap string T) :
  dom b = dom a -> dom (accumulate torch_add a b) = dom a.
Proof.
  intros Hdom. apply set_eq. intros k.
  rewrite !elem_of_dom, accumulate_lookup.
  assert (is_Some (a !! k) <-> is_Some (b !! k)) as Hk
    by (by rewrite <- !elem_of_dom, Hdom).
  destruct (b !! k); [|done]. split; [intros _; apply Hk; eauto|eauto].
Qed.

Lemma accumulate_empty_l (chunk : gmap string T) :
  accumulate torch_add ∅ chunk = chunk.
Proof.
  apply map_eq. intros k. rewrite accumulate_lookup, lookup_empty.
  by destruct (chunk !! k).
Qed.

(** With two chunks or more, all with the same keys, the end-of-step
    reduction computes what the in-place accumulation computes, summed in
    the same order. *)
Lemma reduce_from_accumulate (a : gmap string T) rest :
  Forall (fun b => dom b = dom a) rest ->
  reduce_from torch_add a rest = Ok (foldl (accumulate torch_add) a rest).
Proof.
  revert a. induction rest as [|b rest IH]; intros a Hrest; [done|].
  inv Hrest. cbn [reduce_from foldl]. rewrite add_dicts_accumulate by done.
  cbn. apply IH. eapply Forall_impl; [done|].
  intros c Hc. cbn in Hc. by rewrite accumulate_dom.
Qed.

Lemma reduce_chunks_accumulate (a b : gmap string T) rest :
  Forall (fun c => dom c = dom a) (b :: rest) ->
  reduce_chunks torch_add (a :: b :: rest) =
  Ok (OwnDict (foldl (accumulate torch_add) ∅ (a :: b :: rest))).
Proof.
  intros H. unfold reduce_chunks.
  rewrite reduce_from_accumulate by done. cbn [foldl].
  by rewrite accumulate_empty_l.
Qed.
End GradsFacts.

(** C6: with a single chunk the two paths differ.  The end-of-step
    reduction of a one-element list is that element itself, which the
    clearing of the per-chunk buffers then empties: the step callable is
    given no gradient and no parameter receives its gradient, where the
    in-place accumulation delivers both.  With two chunks the paths
    agree. *)
Theorem single_chunk_reduction_loses_gradients :
  reduced_step_grads (demo_gpipe [5%Z] true true true) = Ok {["w.grad" := 5%Z]} /\
  reduced_step_grads (demo_gpipe [5%Z] true true false) = Ok ∅ /\
  param_grad (demo_gpipe [5%Z] true false true) "p_node" = Ok (Some 5%Z) /\
  param_grad (demo_gpipe [5%Z] true false false) "p_node" = Ok None /\
  reduced_step_grads (demo_gpipe [5%Z; 7%Z] true true true)
  = Ok {["w.grad" := 12%Z]} /\
  reduced_step_grads (demo_gpipe [5%Z; 7%Z] true true false)
  = Ok {["w.grad" := 12%Z]}.
Proof. repeat split; vm_compute; reflexivity. Qed.

(** *** The end of a step *)

Lemma deref_store {T} (chunks : list (gmap string T)) r d d0 :
  deref chunks (Some r) = Ok d0 ->
  deref (store chunks r d).1 (Some (store chunks r d).2) = Ok d.
Proof.
  destruct r as [d1|i]; cbn; [done|].
  unfold index. destruct (chunks !! i) eqn:Hi; [|discriminate]. intros _.
  rewrite list_lookup_insert_eq; [done|]. by eapply lookup_lt_Some.
Qed.

Lemma reduce_chunks_valid {T} (torch_add : T -> T -> T) chunks r :
  reduce_chunks torch_add chunks = Ok r ->
  match r with
  | OwnDict _ => True
  | ChunkDict i => i < length chunks
  end.
Proof.
  destruct chunks as [|a [|b rest]]; cbn [reduce_chunks]; [discriminate| |].
  - intros [= <-]. simpl. lia.
  - intros (d & _ & [= <-])%bind_Ok_inv. done.
Qed.

Lemma length_clear_single {V} (chunks : list (gmap string V)) :
  length (clear_single chunks) = length chunks.
Proof. unfold clear_single. by rewrite length_fmap. Qed.

Lemma clear_single_lookup {V} (chunks : list (gmap string V)) i :
  i < length chunks -> clear_single chunks !! i = Some ∅.
Proof.
  intros Hi. unfold clear_single. rewrite list_lookup_fmap.
  destruct (lookup_lt_is_Some_2 chunks i Hi) as [c ->]. done.
Qed.

Section StageFacts.
Context {T Net : Type}.
Context (torch_add : T -> T -> T).
Context (batch_isend_irecv : list (P2POp T) -> Net -> list nat * Net).
Context (work_wait : nat -> Net -> Net).
Context (buffer_value : Net -> nat -> T).
Context (get_global_rank : Z -> Z).
Context (compiled_stage : CompiledStage T).
Context (cfg : Config).

(** In in-place mode the reduced output gradients are a dictionary of
    their own, as [_init_runtime_states] makes them. *)
Definition own_accumulators (st : State T Net) : Prop :=
  accumulate_grads_inplace cfg = true ->
  exists d, output_grads_reduced st = Some (OwnDict d).

Lemma merge_clears_output (st st1 : State T Net) :
  merge_and_assign_chunked_grads torch_add cfg st = Ok (tt, st1) ->
  own_accumulators st ->
  deref (output_grads_chunks st1) (output_grads_reduced st1) = Ok ∅.
Proof.
  unfold merge_and_assign_chunked_grads, own_accumulators. intros H Hown.
  apply bind_Ok_inv in H as (sa & Ha & H).
  apply bind_Ok_inv in H as (sb & Hb & H).
  apply bind_Ok_inv in H as (r & Hr & H).
  assert (exists d0, deref (output_grads_chunks sa) (output_grads_reduced sa) = Ok d0)
    as [d0 Hvalid].
  { destruct (accumulate_grads_inplace cfg).
    - inv Ha. destruct Hown as [d Hd]; [done|]. rewrite Hd. by eexists.
    - apply bind_Ok_inv in Ha as (sr & _ & Ha).
      apply bind_Ok_inv in Ha as (or & Hor & Ha). inv Ha.
      cbn in Hor |- *. apply reduce_chunks_valid in Hor.
      destruct or as [d|i]; cbn; [by eexists|].
      unfold index. rewrite clear_single_lookup by done. by eexists. }
  assert (output_grads_chunks sb = output_grads_chunks sa /\
          output_grads_reduced sb = output_grads_reduced sa) as [Hc Hrf].
  { destruct (step_node cfg); [by inv Hb|].
    apply bind_Ok_inv in Hb as (? & _ & Hb).
    apply bind_Ok_inv in Hb as (? & _ & Hb). by inv Hb. }
  rewrite Hc, Hrf in *.
  destruct (output_grads_reduced sa) as [r0|]; [|discriminate]. inv Hr.
  pose proof (deref_store _ _ ∅ _ Hvalid) as Hs.
  destruct (store (output_grads_chunks sa) r ∅) as [chunks r'].
  inv H. exact Hs.
Qed.

Lemma wait_all_stage (reqs : list nat) (st : State T Net) :
  Schedule.wait_all (Waitable0 := stage_wait work_wait) reqs st =
  Ok (tt, set_net (wait_reqs work_wait reqs (net st)) st).
Proof.
  unfold Schedule.wait_all. revert st.
  induction reqs as [|req reqs IH]; intros st; cbn [Schedule.for_each].
  - by destruct st.
  - unfold mbind, StageM_bind. unfold Schedule.work_wait at 1, stage_wait at 1.
    rewrite IH. reflexivity.
Qed.
Lemma accumulate_into_own chunks d cur res :
  accumulate_into torch_add chunks (Some (OwnDict d)) cur = Ok res ->
  exists d', res.2 = Some (OwnDict d').
Proof.
  unfold accumulate_into. intros H.
  apply bind_Ok_inv in H as (chunk & _ & H).
  apply bind_Ok_inv in H as (res' & Hres & H). inv H. cbn.
  destruct (size chunk =? 0)%nat; [inv Hres; by eexists|].
  cbn in Hres. inv Hres. by eexists.
Qed.

(** An action keeps [P] when every state it returns satisfies it. *)
Definition keeps {A} (P : State T Net -> Prop) (m : StageM T Net A) : Prop :=
  forall st a st', P st -> m st = Ok (a, st') -> P st'.

Lemma keeps_bind {A B} P (m : StageM T Net A) (k : A -> StageM T Net B) :
  keeps P m -> (forall a, keeps P (k a)) -> keeps P (m ≫= k).
Proof.
  intros Hm Hk st b st' HP H. unfold mbind, StageM_bind in H.
  destruct (m st) as [[a st1]|e] eqn:Hmst; [|discriminate].
  eapply Hk; [|exact H]. by eapply Hm.
Qed.

Lemma keeps_ret {A} P (a : A) : keeps P (mret a : StageM T Net A).
Proof. intros st a' st' HP H. by inv H. Qed.

Lemma keeps_for_each {A S} P (l : list A) (body : A -> S -> StageM T Net S) s :
  (forall x s, keeps P (body x s)) -> keeps P (Schedule.for_each l body s).
Proof.
  intros Hbody. revert s. induction l as [|x l IH]; intros s; cbn.
  - apply keeps_ret.
  - apply keeps_bind; [apply Hbody|apply IH].
Qed.

Lemma keeps_own_forward_recv wait :
  keeps own_accumulators (forward_recv_one_chunk batch_isend_irecv work_wait cfg wait).
Proof.
  intros st a st' HP H. unfold forward_recv_one_chunk in H.
  destruct (post_all _ _ _) as [reqs n1]. by inv H.
Qed.

Lemma keeps_own_forward_compute :
  keeps own_accumulators (forward_compute_one_chunk buffer_value compiled_stage cfg).
Proof.
  intros st a st' HP H. unfold forward_compute_one_chunk in H.
  apply bind_Ok_inv in H as (kw & _ & H).
  apply bind_Ok_inv in H as (stb & _ & H).
  apply bind_Ok_inv in H as (rc & _ & H).
  destruct (forward _ _ _ _ _) as [[[? ?] ?] ?]. by inv H.
Qed.

Lemma keeps_own_forward_send :
  keeps own_accumulators (forward_send_one_chunk batch_isend_irecv get_global_rank cfg).
Proof.
  intros st a st' HP H. unfold forward_send_one_chunk in H.
  apply bind_Ok_inv in H as (ops & _ & H).
  destruct (post_all _ _ _) as [reqs n1]. by inv H.
Qed.

Lemma keeps_own_backward_recv wait :
  keeps own_accumulators (backward_recv_one_chunk batch_isend_irecv work_wait cfg wait).
Proof.
  intros st a st' HP H. unfold backward_recv_one_chunk in H.
  apply bind_Ok_inv in H as (info & _ & H).
  destruct (post_all _ _ _) as [reqs n1]. by inv H.
Qed.

Lemma keeps_own_backward_send :
  keeps own_accumulators (backward_send_one_chunk batch_isend_irecv get_global_rank cfg).
Proof.
  intros st a st' HP H. unfold backward_send_one_chunk in H.
  apply bind_Ok_inv in H as (info & _ & H).
  apply bind_Ok_inv in H as (ops & _ & H).
  destruct (post_all _ _ _) as [reqs n1]. by inv H.
Qed.

Lemma keeps_own_backward_compute :
  keeps own_accumulators
        (backward_compute_one_chunk torch_add buffer_value compiled_stage cfg).
Proof.
  intros st a st' HP H. unfold backward_compute_one_chunk in H.
  apply bind_Ok_inv in H as (info & _ & H).
  apply bind_Ok_inv in H as (kw & _ & H).
  apply bind_Ok_inv in H as (stb & _ & H).
  apply bind_Ok_inv in H as (sg & _ & H).
  apply bind_Ok_inv in H as (og & _ & H).
  destruct (backward _ _ _ _ _) as [[[? ?] ?] ?].
  apply bind_Ok_inv in H as (st2 & Hst2 & H). inv H.
  unfold own_accumulators in *. intros Hacc. specialize (HP Hacc).
  rewrite Hacc in Hst2. destruct HP as [d Hd].
  apply bind_Ok_inv in Hst2 as (sgr & _ & Hst2).
  apply bind_Ok_inv in Hst2 as (ogr & Hogr & Hst2). inv Hst2.
  cbn in Hogr |- *. rewrite Hd in Hogr.
  by apply accumulate_into_own in Hogr.
Qed.

Lemma keeps_own_wait req :
  keeps own_accumulators (stage_wait work_wait req).
Proof. intros st a st' HP H. by inv H. Qed.

#[local] Instance facts_runtime : Schedule.RuntimeMixin (StageM T Net) nat :=
  stage_runtime torch_add batch_isend_irecv work_wait buffer_value
                get_global_rank compiled_stage cfg.
#[local] Instance facts_wait : Schedule.Waitable (StageM T Net) nat :=
  stage_wait work_wait.

Lemma keeps_own_forward_one_chunk reqs :
  keeps own_accumulators (Schedule.forward_one_chunk reqs).
Proof.
  unfold Schedule.forward_one_chunk.
  apply keeps_bind; [apply keeps_own_forward_recv|intros _].
  apply keeps_bind; [apply keeps_own_forward_compute|intros _].
  apply keeps_bind; [apply keeps_own_forward_send|intros ?].
  apply keeps_ret.
Qed.

Lemma keeps_own_backward_one_chunk reqs :
  keeps own_accumulators (Schedule.backward_one_chunk reqs).
Proof.
  unfold Schedule.backward_one_chunk.
  apply keeps_bind; [apply keeps_own_backward_recv|intros _].
  apply keeps_bind; [apply keeps_own_backward_compute|intros _].
  apply keeps_bind; [apply keeps_own_backward_send|intros ?].
  apply keeps_ret.
Qed.

Lemma keeps_own_wait_all reqs :
  keeps own_accumulators (Schedule.wait_all reqs).
Proof.
  unfold Schedule.wait_all. apply keeps_for_each.
  intros req _. apply keeps_own_wait.
Qed.

Lemma keeps_own_one_f_one_b reqs :
  keeps own_accumulators (Schedule.one_f_one_b reqs).
Proof.
  unfold Schedule.one_f_one_b.
  apply keeps_bind; [apply keeps_own_backward_recv|intros _].
  apply keeps_bind; [apply keeps_own_forward_recv|intros ?].
  apply keeps_bind; [apply keeps_own_backward_compute|intros _].
  apply keeps_bind; [apply keeps_own_backward_send|intros ?].
  apply keeps_bind; [apply keeps_own_wait_all|intros _].
  apply keeps_bind; [apply keeps_own_forward_compute|intros _].
  apply keeps_bind; [apply keeps_own_forward_send|intros ?].
  apply keeps_ret.
Qed.

(** The reduced output gradients read as the empty dictionary. *)
Definition output_cleared (st : State T Net) : Prop :=
  deref (output_grads_chunks st) (output_grads_reduced st) = Ok ∅.

(** An action ends with the reduced output gradients cleared. *)
Definition clears {A} (m : StageM T Net A) : Prop :=
  forall st a st', own_accumulators st -> m st = Ok (a, st') -> output_cleared st'.

Lemma clears_bind {A B} (m : StageM T Net A) (k : A -> StageM T Net B) :
  keeps own_accumulators m -> (forall a, clears (k a)) -> clears (m ≫= k).
Proof.
  intros Hm Hk st b st' HP H. unfold mbind, StageM_bind in H.
  destruct (m st) as [[a st1]|e] eqn:Hmst; [|discriminate].
  eapply Hk; [|exact H]. by eapply Hm.
Qed.

Lemma step_spec (st st' : State T Net) :
  step compiled_stage st = Ok (tt, st') ->
  output_grads_chunks st' = output_grads_chunks st /\
  output_grads_reduced st' = output_grads_reduced st /\
  exists sg,
    deref (saved_grads_step_chunks st) (step_grads_reduced st) = Ok sg /\
    deref (saved_grads_step_chunks st') (step_grads_reduced st')
    = Ok (step_fn compiled_stage (saved_params_step st) sg).2.
Proof.
  unfold step. intros H.
  apply bind_Ok_inv in H as (r & Hr & H).
  apply bind_Ok_inv in H as (sg & Hsg & H).
  destruct (step_grads_reduced st) as [r0|] eqn:Hattr; [|discriminate]. inv Hr.
  pose proof (deref_store _ _
                (step_fn compiled_stage (saved_params_step st) sg).2 _ Hsg) as Hs.
  destruct (step_fn compiled_stage (saved_params_step st) sg)
    as [sps red'] eqn:Hfn.
  cbn [snd] in Hs.
  destruct (store (saved_grads_step_chunks st) r red') as [chunks r'].
  inv H. split; [done|]. split; [done|]. exists sg. split; [done|].
  rewrite Hfn. exact Hs.
Qed.

Lemma clears_finish reqs : clears (Schedule.finish (step_node cfg) reqs).
Proof.
  unfold Schedule.finish.
  apply clears_bind; [apply keeps_own_wait_all|intros _].
  intros st a st' Hown H. unfold mbind, StageM_bind in H.
  change (@Schedule.merge_and_assign_chunked_grads _ _ facts_runtime)
    with (merge_and_assign_chunked_grads (Net := Net) torch_add cfg) in H.
  destruct (merge_and_assign_chunked_grads torch_add cfg st)
    as [[[] st1]|e] eqn:Hm; [|discriminate].
  pose proof (merge_clears_output _ _ Hm Hown) as Hc.
  destruct (step_node cfg); [|by inv H].
  destruct a. apply step_spec in H as (Hch & Hrf & _).
  unfold output_cleared. by rewrite Hch, Hrf.
Qed.

Lemma clears_gpipe :
  clears (Schedule.ScheduleGPipe (num_chunks cfg) (bw_node cfg) (step_node cfg)).
Proof.
  unfold Schedule.ScheduleGPipe.
  apply clears_bind.
  { apply keeps_for_each. intros _ reqs. apply keeps_own_forward_one_chunk. }
  intros reqs. apply clears_bind; [|intros ?; apply clears_finish].
  destruct (bw_node cfg); [|apply keeps_ret].
  apply keeps_for_each. intros _ ?. apply keeps_own_backward_one_chunk.
Qed.

Lemma clears_dapple num_warmup :
  clears (Schedule.ScheduleDAPPLE num_warmup (num_chunks cfg) (step_node cfg)).
Proof.
  unfold Schedule.ScheduleDAPPLE, Schedule.dapple_warmup, Schedule.dapple_1f1b,
    Schedule.dapple_cooldown.
  apply clears_bind.
  { apply keeps_for_each. intros _ reqs. apply keeps_own_forward_one_chunk. }
  intros reqs. apply clears_bind.
  { apply keeps_for_each. intros _ ?. apply keeps_own_one_f_one_b. }
  intros reqs'. apply clears_bind; [|intros ?; apply clears_finish].
  apply keeps_for_each. intros _ ?. apply keeps_own_backward_one_chunk.
Qed.

End StageFacts.

Lemma stage_bind_Ok_inv {T Net A B} (m : StageM T Net A)
    (k : A -> StageM T Net B) st b st' :
  (m ≫= k) st = Ok (b, st') ->
  exists a st1, m st = Ok (a, st1) /\ k a st1 = Ok (b, st').
Proof.
  unfold mbind, StageM_bind. destruct (m st) as [[a st1]|e]; [|discriminate].
  intros H. by exists a, st1.
Qed.

(** A complete step of the one-stage pipeline, on inputs already split. *)
Definition demo_call (xs : list Z) (bw step inplace : bool)
  : result (list Z * State Z unit) :=
  __call__ (fun _ _ => (fun x => {["x" := x]}) <$> xs)
           (fun chunks => default ∅ (head chunks))
           (fun returns n => ([returns], n))
           (demo_cfg (Z.of_nat (length xs)) bw step inplace)
           (gpipe Z.add (fun _ n => ([], n)) (fun _ n => n) (fun _ _ => 0%Z) id
                  demo_stage (demo_cfg (Z.of_nat (length xs)) bw step inplace))
           ∅ (demo_init xs inplace).

(** *** A stage without a backward node under GPipe *)

(** The names of the step arguments among the placeholders of a plan. *)
Definition kwarg_names (recv_info : list (Z * list (Placeholder nat))) : list string :=
  flat_map (fun item : Z * list (Placeholder nat) =>
              omap (fun ph : Placeholder nat =>
                      match ph with
                      | StageKwargPlaceholder name => Some name
                      | RecevPlaceholder _ _ _ => None
                      end) item.2) recv_info.

Definition has_names {V} (names : list string) (d : gmap string V) : bool :=
  forallb (fun name => bool_decide (is_Some (d !! name))) names.

Lemma has_names_lookup {V} names (d : gmap string V) name :
  has_names names d = true -> name ∈ names -> is_Some (d !! name).
Proof.
  unfold has_names. rewrite forallb_forall. intros H Hin.
  apply list_elem_of_In, H in Hin. by apply bool_decide_eq_true in Hin.
Qed.

Section CommFacts.
Context {T Net : Type}.
Context (buffer_value : Net -> nat -> T).
Context (get_global_rank : Z -> Z).

Lemma collect_list_ok (chunk_kwargs : gmap string T) n ph_list acc :
  (forall name, StageKwargPlaceholder name ∈ ph_list ->
                is_Some (chunk_kwargs !! name)) ->
  exists r, collect_list buffer_value chunk_kwargs n ph_list acc = Ok r.
Proof.
  revert acc. induction ph_list as [|ph ph_list IH]; intros acc Hn; cbn.
  - by eexists.
  - destruct ph as [name|name src buf].
    + destruct (Hn name) as [v Hv]; [by left|].
      unfold getitem. rewrite Hv. cbn. apply IH.
      intros name' Hin. apply Hn. by right.
    + apply IH. intros name' Hin. apply Hn. by right.
Qed.

Lemma collect_info_ok (chunk_kwargs : gmap string T) n recv_info acc :
  has_names (kwarg_names recv_info) chunk_kwargs = true ->
  exists r, collect_info buffer_value chunk_kwargs n recv_info acc = Ok r.
Proof.
  revert acc. induction recv_info as [|[rank ph_list] recv_info IH];
    intros acc Hn; cbn.
  - by eexists.
  - destruct (collect_list_ok chunk_kwargs n ph_list acc) as [r ->].
    { intros name Hin. eapply has_names_lookup; [exact Hn|].
      cbn. apply elem_of_app. left. apply list_elem_of_omap.
      by exists (StageKwargPlaceholder name). }
    cbn. apply IH. unfold has_names in *. cbn in Hn.
    rewrite forallb_app in Hn. by apply andb_prop in Hn as [_ ?].
Qed.

Lemma send_ops_to_ok peer (output : gmap string T) nodes :
  has_names nodes output = true ->
  exists ops, send_ops_to peer (Some output) nodes = Ok ops.
Proof.
  induction nodes as [|node nodes IH]; intros Hn; cbn; [by eexists|].
  cbn in Hn. apply andb_prop in Hn as [Hnode Hn].
  apply bool_decide_eq_true in Hnode as [v Hv].
  unfold getitem. rewrite Hv. cbn.
  destruct (IH Hn) as [ops ->]. cbn. by eexists.
Qed.

(** Every destination of a plan is a stage index. *)
Definition dsts_in_range (num_stages : Z) (send_info : list (Z * list string)) : bool :=
  forallb (fun item : Z * list string =>
             ((0 <=? item.1) && (item.1 <? num_stages))%Z) send_info.

Lemma create_send_ops_ok num_stages send_info (output : gmap string T) :
  dsts_in_range num_stages send_info = true ->
  has_names (flat_map snd send_info) output = true ->
  exists ops, _create_send_ops get_global_rank num_stages send_info (Some output)
              = Ok ops.
Proof.
  intros Hd Hn. unfold _create_send_ops.
  assert (exists by_dst, send_ops_by_dst get_global_rank num_stages send_info
                           (Some output) = Ok by_dst) as [by_dst ->];
    [|cbn; by eexists].
  induction send_info as [|[dst nodes] send_info IH]; cbn; [by eexists|].
  cbn in Hd. apply andb_prop in Hd as [Hdst Hd].
  unfold has_names in Hn. cbn in Hn. rewrite forallb_app in Hn.
  apply andb_prop in Hn as [Hnodes Hn].
  unfold stage_index_to_group_rank. rewrite Hdst. cbn.
  destruct (send_ops_to_ok (get_global_rank dst) output nodes Hnodes) as [ops ->].
  cbn. destruct (IH Hd Hn) as [by_dst ->]. cbn. by eexists.
Qed.
End CommFacts.

Section ForwardOnly.
Context {T Net : Type}.
Context (torch_add : T -> T -> T).
Context (batch_isend_irecv : list (P2POp T) -> Net -> list nat * Net).
Context (work_wait : nat -> Net -> Net).
Context (buffer_value : Net -> nat -> T).
Context (get_global_rank : Z -> Z).
Context (compiled_stage : CompiledStage T).
Context (cfg : Config).

(** What the plans of the stage ask of the step: every kwargs chunk has
    the step arguments of the forward plan, the destinations of the forward
    plan are stages, and the forward callable outputs every value the plan
    sends. *)
Definition forward_plan_met (st : State T Net) : Prop :=
  forallb (has_names (kwarg_names (fw_kwargs_recv_info cfg))) (kwargs_chunks st) = true /\
  dsts_in_range (num_stages cfg) (fw_act_send_info cfg) = true /\
  forall a b c d,
    has_names (flat_map snd (fw_act_send_info cfg))
              (forward compiled_stage a b c d).2 = true.

(** The state a step starts its schedule from: cursor at 0, one slot per
    chunk in each per-chunk list, no gradient left, and the reduced
    accumulators as [_init_runtime_states] makes them. *)
Definition grads_ready (st : State T Net) : Prop :=
  let n := Z.to_nat (num_chunks cfg) in
  length (saved_grads_step_chunks st) = n /\
  length (output_grads_chunks st) = n /\
  all_empty (saved_grads_step_chunks st) = true /\
  all_empty (output_grads_chunks st) = true /\
  (if accumulate_grads_inplace cfg
   then output_grads_reduced st = Some (OwnDict ∅) /\
        step_grads_reduced st = Some (OwnDict ∅)
   else 0 < n).

Definition step_ready (st : State T Net) : Prop :=
  let n := Z.to_nat (num_chunks cfg) in
  cur_fw_chunk_id st = 0 /\
  length (kwargs_chunks st) = n /\
  length (saved_tensors_bw_chunks st) = n /\
  length (returns_chunks st) = n /\
  grads_ready st.

(** The attributes the forward calls leave alone. *)
Definition same_rest (st0 st : State T Net) : Prop :=
  kwargs_chunks st = kwargs_chunks st0 /\
  saved_grads_step_chunks st = saved_grads_step_chunks st0 /\
  output_grads_chunks st = output_grads_chunks st0 /\
  output_grads_reduced st = output_grads_reduced st0 /\
  step_grads_reduced st = step_grads_reduced st0 /\
  param_grads st = param_grads st0 /\
  cur_bw_chunk_id st = cur_bw_chunk_id st0 /\
  cur_bw_send_chunk st = cur_bw_send_chunk st0.

Definition forward_inv (st0 : State T Net) (i : nat) (st : State T Net) : Prop :=
  cur_fw_chunk_id st = i /\
  length (saved_tensors_bw_chunks st) = Z.to_nat (num_chunks cfg) /\
  length (returns_chunks st) = Z.to_nat (num_chunks cfg) /\
  same_rest st0 st.

#[local] Instance fwd_runtime : Schedule.RuntimeMixin (StageM T Net) nat :=
  stage_runtime torch_add batch_isend_irecv work_wait buffer_value
                get_global_rank compiled_stage cfg.
#[local] Instance fwd_wait : Schedule.Waitable (StageM T Net) nat :=
  stage_wait work_wait.

Lemma index_lookup {A} (l : list A) i x : l !! i = Some x -> index l i = Ok x.
Proof. unfold index. by intros ->. Qed.

Lemma stage_bind_Ok {A B} (m : StageM T Net A) (k : A -> StageM T Net B) st a st1 :
  m st = Ok (a, st1) -> (m ≫= k) st = k a st1.
Proof. unfold mbind, StageM_bind. by intros ->. Qed.

Lemma forward_recv_ok wait (st : State T Net) :
  exists reqs n', forward_recv_one_chunk batch_isend_irecv work_wait cfg wait st
                  = Ok (reqs, set_net n' st).
Proof.
  unfold forward_recv_one_chunk. destruct (post_all _ _ _) as [reqs n1].
  by eexists _, _.
Qed.

Lemma forward_compute_ok (st0 st : State T Net) i :
  forward_plan_met st0 ->
  length (kwargs_chunks st0) = Z.to_nat (num_chunks cfg) ->
  forward_inv st0 i st -> i < Z.to_nat (num_chunks cfg) ->
  exists st',
    forward_compute_one_chunk buffer_value compiled_stage cfg st = Ok (tt, st') /\
    forward_inv st0 (S i) st' /\
    exists out, cur_fw_send_chunk st' = Some out /\
                has_names (flat_map snd (fw_act_send_info cfg)) out = true.
Proof.
  intros (Hkw & Hdst & Hout) Hlen (Hcur & Hl1 & Hl2 & Hrest) Hi.
  destruct Hrest as (Hk & Hsg & Hog & Hogr & Hsgr & Hpg & Hbw & Hbs).
  destruct (lookup_lt_is_Some_2 (kwargs_chunks st0) i) as [chunk Hchunk]; [lia|].
  destruct (lookup_lt_is_Some_2 (saved_tensors_bw_chunks st) i) as [stb Hstb]; [lia|].
  destruct (lookup_lt_is_Some_2 (returns_chunks st) i) as [rc Hrc]; [lia|].
  destruct (collect_info_ok buffer_value chunk (net st)
              (fw_kwargs_recv_info cfg) ∅) as [kw Hkwargs].
  { rewrite forallb_forall in Hkw. apply Hkw, list_elem_of_In.
    by eapply list_elem_of_lookup_2. }
  assert (collect_kwargs buffer_value (fw_kwargs_recv_info cfg) i st = Ok kw) as Hc.
  { unfold collect_kwargs. rewrite Hk, (index_lookup _ _ _ Hchunk). exact Hkwargs. }
  unfold forward_compute_one_chunk. rewrite Hcur, Hc.
  rewrite (index_lookup _ _ _ Hstb), (index_lookup _ _ _ Hrc).
  cbn [mbind result_bind rbind].
  specialize (Hout stb (saved_params_step st) rc kw).
  destruct (forward compiled_stage stb (saved_params_step st) rc kw)
    as [[[stb' sps'] rc'] out].
  eexists. split; [reflexivity|]. split.
  - repeat split; cbn; try done; by rewrite length_insert.
  - by exists out.
Qed.

Lemma forward_send_ok (st : State T Net) out :
  dsts_in_range (num_stages cfg) (fw_act_send_info cfg) = true ->
  cur_fw_send_chunk st = Some out ->
  has_names (flat_map snd (fw_act_send_info cfg)) out = true ->
  exists reqs n', forward_send_one_chunk batch_isend_irecv get_global_rank cfg st
                  = Ok (reqs, set_net n' st).
Proof.
  intros Hdst Hcur Hout. unfold forward_send_one_chunk. rewrite Hcur.
  destruct (create_send_ops_ok get_global_rank (num_stages cfg)
              (fw_act_send_info cfg) out Hdst Hout) as [ops ->].
  cbn [mbind result_bind rbind].
  destruct (post_all _ _ _) as [reqs n1]. by eexists _, _.
Qed.

Lemma forward_inv_set_net st0 i (st : State T Net) n' :
  forward_inv st0 i st -> forward_inv st0 i (set_net n' st).
Proof. done. Qed.

Lemma forward_one_chunk_ok (st0 st : State T Net) i reqs :
  forward_plan_met st0 ->
  length (kwargs_chunks st0) = Z.to_nat (num_chunks cfg) ->
  forward_inv st0 i st -> i < Z.to_nat (num_chunks cfg) ->
  exists reqs' st',
    Schedule.forward_one_chunk reqs st = Ok (reqs', st') /\
    forward_inv st0 (S i) st'.
Proof.
  intros Hmet Hlen Hinv Hi. unfold Schedule.forward_one_chunk.
  cbn [Schedule.forward_recv_one_chunk Schedule.forward_compute_one_chunk
       Schedule.forward_send_one_chunk fwd_runtime stage_runtime].
  destruct (forward_recv_ok true st) as (r1 & n1 & H1).
  rewrite (stage_bind_Ok _ _ _ _ _ H1).
  destruct (forward_compute_ok st0 (set_net n1 st) i Hmet Hlen
              (forward_inv_set_net _ _ _ _ Hinv) Hi)
    as (st2 & H2 & Hinv2 & out & Hsend & Hout).
  rewrite (stage_bind_Ok _ _ _ _ _ H2).
  destruct (forward_send_ok st2 out (proj1 (proj2 Hmet)) Hsend Hout)
    as (r3 & n3 & H3).
  rewrite (stage_bind_Ok _ _ _ _ _ H3).
  eexists _, _. split; [reflexivity|]. by apply forward_inv_set_net.
Qed.

Lemma forward_loop_ok {A} (l : list A) (st0 st : State T Net) i reqs :
  forward_plan_met st0 ->
  length (kwargs_chunks st0) = Z.to_nat (num_chunks cfg) ->
  forward_inv st0 i st -> i + length l <= Z.to_nat (num_chunks cfg) ->
  exists reqs' st',
    Schedule.for_each l (fun _ => Schedule.forward_one_chunk) reqs st
    = Ok (reqs', st') /\
    forward_inv st0 (i + length l) st'.
Proof.
  intros Hmet Hlen. revert st i reqs.
  induction l as [|x l IH]; intros st i reqs Hinv Hi; cbn [Schedule.for_each length].
  - eexists _, _. split; [reflexivity|]. by rewrite Nat.add_0_r.
  - cbn [length] in Hi.
    destruct (forward_one_chunk_ok st0 st i reqs Hmet Hlen Hinv) as (r1 & st1 & H1 & Hinv1);
      [lia|].
    rewrite (stage_bind_Ok _ _ _ _ _ H1).
    destruct (IH st1 (S i) r1 Hinv1) as (r2 & st2 & H2 & Hinv2); [lia|].
    eexists _, _. split; [exact H2|].
    by replace (i + S (length l)) with (S i + length l) by lia.
Qed.
Lemma reduce_from_empty (rest : list (gmap string T)) :
  reduce_from torch_add ∅ rest = Ok ∅.
Proof.
  induction rest as [|b rest IH]; [done|]. cbn [reduce_from].
  unfold add_dicts. rewrite map_fold_empty. exact IH.
Qed.

Lemma reduce_chunks_all_empty (chunks : list (gmap string T)) :
  all_empty chunks = true -> 0 < length chunks ->
  exists r, reduce_chunks torch_add chunks = Ok r /\
            deref (clear_single chunks) (Some r) = Ok ∅.
Proof.
  intros He Hl. destruct chunks as [|a [|b rest]]; [cbn in Hl; lia| |].
  - exists (ChunkDict 0). by split.
  - apply all_empty_Forall in He. inv He.
    exists (OwnDict ∅). split; [|done].
    unfold reduce_chunks. by rewrite reduce_from_empty.
Qed.

Lemma assign_grads_empty (grads : gmap string (option T)) :
  assign_grads cfg ∅ grads = Ok grads.
Proof. unfold assign_grads. by rewrite map_fold_empty. Qed.

Lemma merge_ok (st : State T Net) :
  grads_ready st ->
  exists st',
    merge_and_assign_chunked_grads torch_add cfg st = Ok (tt, st') /\
    cur_fw_chunk_id st' = cur_fw_chunk_id st /\
    cur_bw_chunk_id st' = cur_bw_chunk_id st /\
    cur_bw_send_chunk st' = cur_bw_send_chunk st /\
    exists d, deref (saved_grads_step_chunks st') (step_grads_reduced st') = Ok d.
Proof.
  intros (Hlsg & Hlog & Hsg & Hog & Hacc).
  unfold merge_and_assign_chunked_grads.
  destruct (accumulate_grads_inplace cfg).
  - destruct Hacc as [Ho Hs]. cbn [mbind mret result_bind result_ret rbind].
    destruct (step_node cfg); cbn [mbind mret result_bind result_ret rbind].
    + rewrite Ho. cbn. eexists. split; [reflexivity|].
      cbn. rewrite Hs. repeat split; by eexists.
    + rewrite Ho. cbn [deref]. rewrite bind_Ok, assign_grads_empty, !bind_Ok.
      cbn. rewrite Ho. cbn. eexists. split; [reflexivity|].
      cbn. rewrite Hs. repeat split; by eexists.
  - destruct (reduce_chunks_all_empty (saved_grads_step_chunks st))
      as (sr & -> & Hsr); [done|lia|].
    cbn [mbind result_bind rbind output_grads_chunks
         set_saved_grads_step_chunks set_step_grads_reduced].
    destruct (reduce_chunks_all_empty (output_grads_chunks st))
      as (or & -> & Hor); [done|lia|].
    cbn [mbind mret result_bind result_ret rbind].
    set (st1 := set_output_grads_chunks _ _).
    assert (deref (output_grads_chunks st1) (output_grads_reduced st1) = Ok ∅)
      as Hd by exact Hor.
    assert (exists st2,
              (if step_node cfg then Ok st1
               else deref (output_grads_chunks st1) (output_grads_reduced st1)
                    ≫= fun reduced => assign_grads cfg reduced (param_grads st1)
                    ≫= fun grads => Ok (set_param_grads grads st1)) = Ok st2 /\
              output_grads_chunks st2 = output_grads_chunks st1 /\
              output_grads_reduced st2 = Some or /\
              saved_grads_step_chunks st2 = clear_single (saved_grads_step_chunks st) /\
              step_grads_reduced st2 = Some sr /\
              cur_fw_chunk_id st2 = cur_fw_chunk_id st /\
              cur_bw_chunk_id st2 = cur_bw_chunk_id st /\
              cur_bw_send_chunk st2 = cur_bw_send_chunk st)
      as (st2 & Hst2 & Ha & Hb & Hc & He & Hf & Hg & Hh).
    { destruct (step_node cfg).
      - by exists st1.
      - rewrite Hd, bind_Ok, assign_grads_empty, bind_Ok.
        by eexists. }
    unfold mret, result_ret in *. rewrite Hst2, bind_Ok, Hb.
    cbn [attr]. rewrite bind_Ok.
    destruct (store (output_grads_chunks st2) or ∅) as [chunks r'].
    eexists. split; [reflexivity|]. cbn.
    rewrite Hc, He, Hf, Hg, Hh. repeat split. by eexists.
Qed.

Lemma step_ok (st : State T Net) d :
  deref (saved_grads_step_chunks st) (step_grads_reduced st) = Ok d ->
  exists st',
    step compiled_stage st = Ok (tt, st') /\
    cur_fw_chunk_id st' = cur_fw_chunk_id st /\
    cur_bw_chunk_id st' = cur_bw_chunk_id st /\
    cur_bw_send_chunk st' = cur_bw_send_chunk st.
Proof.
  intros Hd. unfold step. rewrite Hd.
  destruct (step_grads_reduced st) as [r|]; [|discriminate].
  cbn [attr mbind result_bind rbind].
  destruct (step_fn compiled_stage (saved_params_step st) d) as [sps red].
  destruct (store (saved_grads_step_chunks st) r red) as [chunks r'].
  by eexists.
Qed.


End ForwardOnly.

(** The first of two stages, without backward or step node: it sends the
    output ["y"] of its forward callable to stage 1.  Every posted batch
    gets the request 0. *)
Definition sender_cfg (chunks : Z) (inplace : bool) : Config :=
  {| stage_idx := 0; num_stages := 2; num_chunks := chunks;
     bw_node := false; step_node := false; accumulate_grads_inplace := inplace;
     fw_kwargs_recv_info := [(0%Z, [StageKwargPlaceholder "x"])];
     fw_act_send_info := [(1%Z, ["y"])];
     bw_kwargs_recv_info := None; bw_grad_send_info := None;
     output_grads_map := OneToOneMap.empty; input_params_map := OneToOneMap.empty;
     returns_nodes_chunk_spec := ["out"]; return_nodes_flatten := ["out"] |}.


End PipelineStage.

(** ** runtime.py: receive buffers as shared tensors *)

(** In [PipelineStage] above a tensor is a value.  Here tensors are objects
    in a store, named by their position, so that a buffer, its clone and
    what a dictionary holds can be told apart: dictionaries hold
    references. *)
Module RecvBuffers.

Section Store.
Context {T : Type}.

(** [t.clone()]: a new object with the value of [t]. *)
Definition clone (h : list T) (t : nat) : result (nat * list T) :=
  match h !! t with
  | Some v => Ok (length h, h ++ [v])
  | None => Raise RuntimeError
  end.

(** What a completed [irecv] does to its buffer: the value is written in
    place. *)
Definition irecv_write (h : list T) (buffer : nat) (v : T) : list T :=
  <[buffer := v]> h.

Fixpoint collect_list (chunk_kwargs : gmap string nat)
    (ph_list : list (Placeholder nat)) (composite_kwargs : gmap string nat)
    (h : list T) : result (gmap string nat * list T) :=
  match ph_list with
  | [] => Ok (composite_kwargs, h)
  | RecevPlaceholder name _ buffer :: rest =>
      c ← clone h buffer;
      collect_list chunk_kwargs rest (<[name := c.1]> composite_kwargs) c.2
  | StageKwargPlaceholder name :: rest =>
      t ← getitem chunk_kwargs name;
      collect_list chunk_kwargs rest (<[name := t]> composite_kwargs) h
  end.

Fixpoint collect_info (chunk_kwargs : gmap string nat)
    (recv_info : list (Z * list (Placeholder nat)))
    (composite_kwargs : gmap string nat) (h : list T)
  : result (gmap string nat * list T) :=
  match recv_info with
  | [] => Ok (composite_kwargs, h)
  | (rank, ph_list) :: rest =>
      c ← collect_list chunk_kwargs ph_list composite_kwargs h;
      collect_info chunk_kwargs rest c.1 c.2
  end.

(** [collect_kwargs(recv_info, chunk)], [chunk_kwargs] being
    [self.kwargs_chunks[chunk]]. *)
Definition collect_kwargs (recv_info : list (Z * list (Placeholder nat)))
    (chunk_kwargs : gmap string nat) (h : list T)
  : result (gmap string nat * list T) :=
  collect_info chunk_kwargs recv_info ∅ h.

(** All placeholders of a plan, in the order they are visited. *)
Definition placeholders (recv_info : list (Z * list (Placeholder nat)))
  : list (Placeholder nat) :=
  flat_map snd recv_info.

(** The buffers of the placeholders exist in the store. *)
Definition buffers_allocated (h : list T) (phs : list (Placeholder nat)) : Prop :=
  forall name src buffer, RecevPlaceholder name src buffer ∈ phs ->
                          buffer < length h.
End Store.

Section StoreFacts.
Context {T : Type}.

Lemma collect_info_flat (chunk_kwargs : gmap string nat) recv_info comp (h : list T) :
  collect_info chunk_kwargs recv_info comp h =
  collect_list chunk_kwargs (placeholders recv_info) comp h.
Proof.
  revert comp h. induction recv_info as [|[rank ph_list] recv_info IH];
    intros comp h; [done|].
  cbn [collect_info placeholders flat_map snd].
  fold (placeholders recv_info).
  revert comp h. induction ph_list as [|ph ph_list IHl]; intros comp h.
  - cbn. apply IH.
  - destruct ph as [name|name src buf]; cbn.
    + destruct (getitem chunk_kwargs name) as [t|e]; cbn; [apply IHl|done].
    + destruct (clone h buf) as [[l h1]|e]; cbn; [apply IHl|done].
Qed.

Lemma collect_list_clones (chunk_kwargs : gmap string nat) phs comp
    (h : list T) kw h' :
  collect_list chunk_kwargs phs comp h = Ok (kw, h') ->
  NoDup (input_name <$> phs) ->
  buffers_allocated h phs ->
  length h <= length h' /\
  (forall l, l < length h -> h' !! l = h !! l) /\
  (forall name, name ∉ input_name <$> phs -> kw !! name = comp !! name) /\
  (forall name src buffer,
     RecevPlaceholder name src buffer ∈ phs ->
     exists l, kw !! name = Some l /\ length h <= l < length h' /\
               h' !! l = h !! buffer).
Proof.
  revert comp h. induction phs as [|ph phs IH]; intros comp h Hc Hnd Hb.
  { inv Hc. repeat split; try done. intros ??? Hin. by inv Hin. }
  rewrite fmap_cons in Hnd. apply NoDup_cons in Hnd as [Hfresh Hnd].
  destruct ph as [name|name src buf]; cbn [collect_list] in Hc.
  - apply bind_Ok_inv in Hc as (t & Ht & Hc).
    destruct (IH _ _ Hc Hnd) as (Hlen & Hext & Hout & Hin).
    { intros n s b Hm. eapply Hb. by right. }
    repeat split; try done.
    + intros n Hn. rewrite fmap_cons in Hn. apply not_elem_of_cons in Hn as [Hne Hn].
      rewrite (Hout n Hn). by rewrite lookup_insert_ne.
    + intros n s b Hm. apply elem_of_cons in Hm as [Hm|Hm]; [done|]. by eapply Hin.
  - unfold clone in Hc.
    assert (buf < length h) as Hbuf by (eapply Hb; by left).
    destruct (lookup_lt_is_Some_2 h buf Hbuf) as [v Hv]. rewrite Hv in Hc.
    rewrite bind_Ok in Hc. cbn [fst snd] in Hc.
    destruct (IH _ _ Hc Hnd) as (Hlen & Hext & Hout & Hin).
    { intros n s b Hm. rewrite length_app. cbn.
      assert (b < length h) by (eapply Hb; by right). lia. }
    rewrite length_app in Hlen, Hext, Hin. cbn [length] in Hlen, Hext, Hin.
    split; [lia|]. split; [|split].
    + intros l Hl. rewrite Hext by lia. by rewrite lookup_app_l.
    + intros n Hn. rewrite fmap_cons in Hn. apply not_elem_of_cons in Hn as [Hne Hn].
      rewrite (Hout n Hn). by rewrite lookup_insert_ne.
    + intros n s b Hm. apply elem_of_cons in Hm as [Hm|Hm].
      * inv Hm. exists (length h). cbn [input_name] in Hfresh.
        rewrite (Hout _ Hfresh), lookup_insert_eq. split; [done|]. split; [lia|].
        rewrite Hext by lia. rewrite lookup_app_r by lia.
        by rewrite Nat.sub_diag.
      * destruct (Hin n s b Hm) as (l & Hkw & Hl & Hval).
        exists l. split; [done|]. split; [lia|].
        rewrite Hval. apply lookup_app_l. eapply Hb. by right.
Qed.

(** C7: after [collect_kwargs], the value passed for a [RecevPlaceholder]
    is a new tensor holding the value its buffer had at the call; writing
    afterwards into any tensor that existed at the call, this buffer
    included, leaves it unchanged. *)
Theorem collect_kwargs_clones (recv_info : list (Z * list (Placeholder nat)))
    (chunk_kwargs : gmap string nat) (h h' : list T) (kw : gmap string nat)
    (name : string) (src : Z) (buffer : nat) :
  collect_kwargs recv_info chunk_kwargs h = Ok (kw, h') ->
  NoDup (input_name <$> placeholders recv_info) ->
  buffers_allocated h (placeholders recv_info) ->
  RecevPlaceholder name src buffer ∈ placeholders recv_info ->
  exists t,
    kw !! name = Some t /\ t <> buffer /\ length h <= t /\
    h' !! t = h !! buffer /\
    forall b v, b < length h -> irecv_write h' b v !! t = h !! buffer.
Proof.
  unfold collect_kwargs. rewrite collect_info_flat. intros Hc Hnd Hb Hin.
  destruct (collect_list_clones _ _ _ _ _ _ Hc Hnd Hb) as (_ & _ & _ & Hcl).
  destruct (Hcl name src buffer Hin) as (t & Hkw & Hl & Hval).
  assert (buffer < length h) by (by eapply Hb).
  exists t. split; [done|]. split; [lia|]. split; [lia|]. split; [done|].
  intros b v Hbl. unfold irecv_write. rewrite list_lookup_insert_ne by lia. done.
Qed.
End StoreFacts.

(** A forward plan with a step argument ["x"] and a value ["act"] received
    from stage 0 into the buffer 1 of the store [[10; 20]]. *)
Definition ex_plan : list (Z * list (Placeholder nat)) :=
  [ (0%Z, [StageKwargPlaceholder "x"; RecevPlaceholder "act" 0 1]) ].

Lemma collect_kwargs_clones_witness :
  collect_kwargs ex_plan {["x" := 0]} [10%Z; 20%Z]
  = Ok ({["x" := 0; "act" := 2]}, [10%Z; 20%Z; 20%Z]) /\
  irecv_write [10%Z; 20%Z; 20%Z] 1 99%Z !! 2 = Some 20%Z.
Proof.
  split; [vm_compute; reflexivity|].
  destruct (collect_kwargs_clones ex_plan {["x" := 0]} [10%Z; 20%Z]
              [10%Z; 20%Z; 20%Z] {["x" := 0; "act" := 2]} "act" 0 1)
    as (t & Hkw & _ & _ & _ & Hw).
  - vm_compute; reflexivity.
  - apply (bool_decide_unpack _). vm_compute. exact I.
  - intros n s b Hin. vm_compute in Hin.
    apply elem_of_cons in Hin as [Hin|Hin]; [discriminate|].
    apply elem_of_cons in Hin as [Hin|Hin];
      [injection Hin as -> -> ->; simpl; lia|].
    by apply elem_of_nil in Hin.
  - vm_compute. right. left.
  - vm_compute in Hkw. inv Hkw. apply (Hw 1 99%Z). simpl. lia.
Defined.

End RecvBuffers.

(** ** utils.py: more on [OneToOneMap] *)

Module OneToOneMapFacts.
Import OneToOneMap.

(** [_map] and [_inv] are inverse of each other. *)
Definition consistent (m : t) : Prop :=
  forall k v, _map m !! k = Some v <-> _inv m !! v = Some k.

(** [apply], on [self.items()] in their order:
    [for k, v in self.items(): mapping.add(k, other.get(v))]. *)
Fixpoint apply_from (items : list (string * string)) (other mapping : t)
  : result t :=
  match items with
  | [] => Ok mapping
  | (k, v) :: rest =>
      w ← get other v;
      mapping ← add mapping k w;
      apply_from rest other mapping
  end.

Definition apply (items : list (string * string)) (other : t) : result t :=
  apply_from items other empty.

(** [map_dict_key], on [dictt.items()] in their order:
    [for k, v in dictt.items(): ret[self._map[k]] = v]. *)
Fixpoint map_dict_key_from {V} (m : t) (items : list (string * V))
    (ret : gmap string V) : result (gmap string V) :=
  match items with
  | [] => Ok ret
  | (k, v) :: rest =>
      k' ← getitem (_map m) k;
      map_dict_key_from m rest (<[k' := v]> ret)
  end.

Definition map_dict_key {V} (m : t) (items : list (string * V))
  : result (gmap string V) :=
  map_dict_key_from m items ∅.

Lemma getitem_Ok {V} (d : gmap string V) k v : getitem d k = Ok v <-> d !! k = Some v.
Proof. unfold getitem. destruct (d !! k); split; intros H; by inv H. Qed.

Lemma add_Ok_inv m key value m' :
  add m key value = Ok m' ->
  _map m !! key = None /\ _map m !! value = None /\
  m' = {| _map := <[key := value]> (_map m); _inv := <[value := key]> (_inv m) |}.
Proof.
  unfold add, contains. intros H.
  destruct (bool_decide (is_Some (_map m !! key))) eqn:Hk; [discriminate|].
  destruct (bool_decide (is_Some (_map m !! value))) eqn:Hv; [discriminate|].
  apply bool_decide_eq_false in Hk, Hv.
  rewrite <- eq_None_not_Some in Hk, Hv. by inv H.
Qed.

(** X1: after a successful [add(key, value)], [get(key)] is [value],
    [inv_get(value)] is [key], and the other lookups are as before. *)
Theorem add_get_roundtrip m key value m' :
  add m key value = Ok m' ->
  get m' key = Ok value /\ inv_get m' value = Ok key /\
  (forall k, k <> key -> get m' k = get m k) /\
  (forall v, v <> value -> inv_get m' v = inv_get m v).
Proof.
  intros (_ & _ & ->)%add_Ok_inv. unfold get, inv_get, getitem. cbn.
  rewrite !lookup_insert_eq.
  repeat split; try done; intros x Hx; by rewrite lookup_insert_ne.
Qed.

Lemma add_get_roundtrip_witness :
  add empty "a" "x" = Ok {| _map := {["a" := "x"]}; _inv := {["x" := "a"]} |} /\
  get {| _map := {["a" := "x"]}; _inv := {["x" := "a"]} |} "a" = Ok "x".
Proof.
  split; [reflexivity|].
  refine (proj1 (add_get_roundtrip empty "a" "x" _ _)). reflexivity.
Defined.

Lemma add_Raise_iff m key value e :
  add m key value = Raise e <->
  e = RuntimeError /\ (is_Some (_map m !! key) \/ is_Some (_map m !! value)).
Proof.
  unfold add, contains.
  destruct (bool_decide (is_Some (_map m !! key))) eqn:Hk; cbn.
  { apply bool_decide_eq_true in Hk. split; [intros [= <-]; auto|by intros [-> _]]. }
  destruct (bool_decide (is_Some (_map m !! value))) eqn:Hv; cbn.
  { apply bool_decide_eq_true in Hv. split; [intros [= <-]; auto|by intros [-> _]]. }
  apply bool_decide_eq_false in Hk, Hv. split; [discriminate|tauto].
Qed.

Lemma add_consistent m key value m' :
  consistent m -> _inv m !! value = None ->
  add m key value = Ok m' -> consistent m'.
Proof.
  intros Hc Hv (Hk & _ & ->)%add_Ok_inv k v. cbn.
  destruct (decide (k = key)) as [->|Hne].
  - rewrite lookup_insert_eq. split.
    + intros [= <-]. by rewrite lookup_insert_eq.
    + intros Hi. destruct (decide (v = value)) as [->|Hnv]; [done|].
      rewrite lookup_insert_ne in Hi by done. apply Hc in Hi. congruence.
  - rewrite lookup_insert_ne by done. split.
    + intros Hm. destruct (decide (v = value)) as [->|Hnv].
      * apply Hc in Hm. congruence.
      * rewrite lookup_insert_ne by done. by apply Hc.
    + intros Hi. destruct (decide (v = value)) as [->|Hnv].
      * rewrite lookup_insert_eq in Hi. congruence.
      * rewrite lookup_insert_ne in Hi by done. by apply Hc.
Qed.

Lemma consistent_empty : consistent empty.
Proof. intros k v. cbn. by rewrite !lookup_empty. Qed.

(** X3: on a map whose [_map] and [_inv] are inverse of each other, an
    [add] that returns leaves them inverse of each other exactly when the
    value was not yet a value of the map, which [add] does not test. *)
Theorem add_keeps_consistent m key value m' :
  consistent m -> add m key value = Ok m' ->
  (consistent m' <-> _inv m !! value = None).
Proof.
  intros Hc Hadd. split.
  - intros Hc'. destruct (_inv m !! value) as [k0|] eqn:Hv; [|done]. exfalso.
    pose proof Hadd as (Hk & _ & ->)%add_Ok_inv.
    apply Hc in Hv. assert (k0 <> key) as Hne by congruence.
    assert (<[value := key]> (_inv m) !! value = Some k0) as H1.
    { apply (Hc' k0 value). cbn. by rewrite lookup_insert_ne. }
    rewrite lookup_insert_eq in H1. congruence.
  - intros Hv. by eapply add_consistent.
Qed.

Lemma add_keeps_consistent_witness :
  consistent {| _map := <["a" := "x"]> ∅; _inv := <["x" := "a"]> ∅ |}.
Proof.
  refine (proj2 (add_keeps_consistent empty "a" "x" _ consistent_empty _) _);
    reflexivity.
Defined.

Lemma from_items_facts items m0 m :
  from_items items m0 = Ok m ->
  (forall k v, _map m0 !! k = Some v -> _map m !! k = Some v) /\
  (forall k v, (k, v) ∈ items -> _map m !! k = Some v) /\
  (consistent m0 -> NoDup items.*2 ->
   (forall v, v ∈ items.*2 -> _inv m0 !! v = None) -> consistent m).
Proof.
  revert m0. induction items as [|[k v] items IH]; intros m0 H; cbn in H.
  { inv H. split; [done|]. split; [|done]. intros k v Hin. by inv Hin. }
  destruct (add m0 k v) as [m1|e] eqn:Hadd; [|discriminate]. cbn in H.
  destruct (IH _ H) as (Hkeep & Hin & Hcons).
  pose proof Hadd as (Hk & Hv & ->)%add_Ok_inv. cbn in *.
  split; [|split].
  - intros k' v' Hm. apply Hkeep. rewrite lookup_insert_ne; [done|]. congruence.
  - intros k' v' [[= -> ->]|Hm]%elem_of_cons; [|by apply Hin].
    apply Hkeep. by rewrite lookup_insert_eq.
  - intros Hc Hnd Hfresh. apply NoDup_cons in Hnd as [Hnv Hnd]. apply Hcons.
    + eapply add_consistent; [exact Hc| |exact Hadd].
      apply Hfresh. by left.
    + done.
    + intros v' Hv'. rewrite lookup_insert_ne by (intros ->; done).
      apply Hfresh. by right.
Qed.

(** X4: when [from_dict] returns, the map looks up every item of the
    dictionary; if moreover the values of the dictionary are distinct,
    [_map] and [_inv] are inverse of each other, so [inv_get] undoes
    [get]. *)
Theorem from_dict_roundtrip items m :
  from_items items empty = Ok m ->
  (forall k v, (k, v) ∈ items -> get m k = Ok v) /\
  (NoDup items.*2 ->
   consistent m /\ forall k v, (k, v) ∈ items -> inv_get m v = Ok k).
Proof.
  intros H. destruct (from_items_facts _ _ _ H) as (_ & Hin & Hcons). split.
  - intros k v Hkv. by apply getitem_Ok, Hin.
  - intros Hnd. assert (consistent m) as Hc.
    { apply Hcons; [apply consistent_empty|done|]. intros v _. apply lookup_empty. }
    split; [done|]. intros k v Hkv. by apply getitem_Ok, Hc, Hin.
Qed.

Lemma from_dict_roundtrip_witness :
  exists m, from_items [("a", "x"); ("b", "y")] empty = Ok m /\
            get m "b" = Ok "y".
Proof.
  eexists. split; [reflexivity|].
  refine (proj1 (from_dict_roundtrip [("a", "x"); ("b", "y")] _ _) "b" "y" _).
  - reflexivity.
  - right. left.
Defined.

(** X5: [from_dict] raises exactly when some item has a key or a value that
    is the key of an earlier item. *)
Theorem from_dict_raises_iff items :
  (exists e, from_items items empty = Raise e) <->
  exists l1 k v l2, items = l1 ++ (k, v) :: l2 /\ (k ∈ l1.*1 \/ v ∈ l1.*1).
Proof.
  assert (forall items m0,
    (exists e, from_items items m0 = Raise e) <->
    exists l1 k v l2, items = l1 ++ (k, v) :: l2 /\
      ((is_Some (_map m0 !! k) \/ k ∈ l1.*1) \/
       (is_Some (_map m0 !! v) \/ v ∈ l1.*1))) as Hgen.
  { clear items. induction items as [|[k v] items IH]; intros m0; cbn.
    { split; [by intros [? ?]|]. intros (l1 & ? & ? & ? & H & _).
      by destruct l1. }
    destruct (add m0 k v) as [m1|e] eqn:Hadd; cbn.
    - rewrite IH. pose proof Hadd as (Hk & Hv & ->)%add_Ok_inv. cbn.
      split.
      + intros (l1 & k' & v' & l2 & -> & Hor).
        exists ((k, v) :: l1), k', v', l2. split; [done|].
        rewrite !lookup_insert_is_Some in Hor. rewrite fmap_cons, !elem_of_cons.
        cbn. destruct Hor as [[[->|[_ ?]]|?]|[[->|[_ ?]]|?]]; auto.
      + intros (l1 & k' & v' & l2 & Heq & Hor).
        destruct l1 as [|[k0 v0] l1]; cbn in Heq; inv Heq.
        { exfalso. rewrite Hk, Hv in Hor.
          destruct Hor as [[[? ?]|Hin]|[[? ?]|Hin]]; try done; by inv Hin. }
        exists l1, k', v', l2. split; [done|].
        rewrite !lookup_insert_is_Some. rewrite fmap_cons, !elem_of_cons in Hor.
        cbn in Hor.
        destruct (decide (k0 = k')), (decide (k0 = v')); subst; intuition auto.
    - split; [intros _|by eexists].
      exists [], k, v, items. split; [done|].
      apply add_Raise_iff in Hadd as [_ Hadd]. tauto. }
  rewrite Hgen. cbn. setoid_rewrite lookup_empty.
  split; intros (l1 & k & v & l2 & ? & Hor); exists l1, k, v, l2;
    (split; [done|]).
  - destruct Hor as [[[? ?]|?]|[[? ?]|?]]; auto; done.
  - tauto.
Qed.

(** X6: on a map whose two dictionaries are inverse of each other, the
    inverse view looks a value up to its key, and is such a map too. *)
Theorem inverse_get m k v :
  consistent m -> get m k = Ok v ->
  get (inverse m) v = Ok k /\ inv_get (inverse m) k = Ok v /\
  consistent (inverse m).
Proof.
  intros Hc Hg. apply getitem_Ok in Hg. unfold get, inv_get, inverse. cbn.
  split; [by apply getitem_Ok, Hc|]. split; [by apply getitem_Ok|].
  intros k' v'. cbn. symmetry. apply Hc.
Qed.

Lemma inverse_get_witness :
  get (inverse {| _map := <["a" := "x"]> ∅; _inv := <["x" := "a"]> ∅ |}) "x"
  = Ok "a".
Proof.
  refine (proj1 (inverse_get _ "a" "x" _ _)); [|reflexivity].
  eapply add_consistent; [apply consistent_empty| |]; reflexivity.
Defined.

Lemma apply_from_facts items other m0 m :
  apply_from items other m0 = Ok m ->
  (forall k w, _map m0 !! k = Some w -> _map m !! k = Some w) /\
  (forall k v, (k, v) ∈ items ->
     exists w, get other v = Ok w /\ _map m !! k = Some w).
Proof.
  revert m0. induction items as [|[k v] items IH]; intros m0 H; cbn in H.
  { inv H. split; [done|]. intros k v Hin. by inv Hin. }
  apply bind_Ok_inv in H as (w & Hw & H).
  apply bind_Ok_inv in H as (m1 & Hadd & H).
  destruct (IH _ H) as (Hkeep & Hin).
  apply add_Ok_inv in Hadd as (Hk & _ & ->). cbn in *. split.
  - intros k' w' Hm. apply Hkeep. rewrite lookup_insert_ne; [done|]. congruence.
  - intros k' v' [[= -> ->]|Hm]%elem_of_cons; [|by apply Hin].
    exists w. split; [done|]. apply Hkeep. by rewrite lookup_insert_eq.
Qed.

(** X7: when [apply] returns, the new map sends every key of [self] to what
    [other] gives for its value: it is the composition of the two maps,
    whatever the order in which the items of [self] are visited. *)
Theorem apply_composes self items other m k v :
  items ≡ₚ map_to_list (_map self) ->
  apply items other = Ok m -> get self k = Ok v ->
  exists w, get other v = Ok w /\ get m k = Ok w.
Proof.
  intros Hperm H Hk. destruct (apply_from_facts _ _ _ _ H) as [_ Hall].
  assert ((k, v) ∈ items) as Hin.
  { rewrite Hperm. apply elem_of_map_to_list. by apply getitem_Ok. }
  destruct (Hall k v Hin) as (w & Hw & Hm). exists w. split; [done|].
  by apply getitem_Ok.
Qed.

Lemma apply_composes_witness :
  exists m,
    apply [("a", "x")] {| _map := {["x" := "1"]}; _inv := {["1" := "x"]} |} = Ok m /\
    exists w, get {| _map := {["x" := "1"]}; _inv := {["1" := "x"]} |} "x" = Ok w /\
              get m "a" = Ok w.
Proof.
  eexists. split; [reflexivity|].
  refine (apply_composes {| _map := {["a" := "x"]}; _inv := {["x" := "a"]} |}
            [("a", "x")] _ _ "a" "x" _ _ _).
  - cbn [_map]. by rewrite map_to_list_singleton.
  - reflexivity.
  - reflexivity.
Defined.

Lemma map_dict_key_from_facts {V} m (items : list (string * V)) ret0 ret :
  map_dict_key_from m items ret0 = Ok ret ->
  consistent m -> NoDup items.*1 ->
  (forall k v, (k, v) ∈ items ->
     exists k', _map m !! k = Some k' /\ ret !! k' = Some v) /\
  (forall k', (forall k, k ∈ items.*1 -> _map m !! k <> Some k') ->
              ret !! k' = ret0 !! k').
Proof.
  intros H Hc. revert ret0 H.
  induction items as [|[k v] items IH]; intros ret0 H Hnd; cbn in H.
  { inv H. split; [|done]. intros k v Hin. by inv Hin. }
  apply bind_Ok_inv in H as (k' & Hk' & H). apply getitem_Ok in Hk'.
  rewrite fmap_cons in Hnd. apply NoDup_cons in Hnd as [Hfresh Hnd]. cbn in Hfresh.
  destruct (IH _ H Hnd) as (Hin & Hout). split.
  - intros k1 v1 [[= -> ->]|Hm]%elem_of_cons; [|by apply Hin].
    exists k'. split; [done|]. rewrite Hout; [by rewrite lookup_insert_eq|].
    intros k2 Hk2 Hm2. apply Hc in Hk', Hm2. congruence.
  - intros k1 Hk1. rewrite Hout.
    + rewrite lookup_insert_ne; [done|]. intros ->. eapply Hk1; [by left|done].
    + intros k2 Hk2. apply Hk1. by right.
Qed.

(** X8: on a map whose two dictionaries are inverse of each other,
    [map_dict_key] renames the keys of a dictionary and keeps every
    value. *)
Theorem map_dict_key_renames {V} m (items : list (string * V)) ret k v :
  map_dict_key m items = Ok ret ->
  consistent m -> NoDup items.*1 -> (k, v) ∈ items ->
  exists k', get m k = Ok k' /\ ret !! k' = Some v.
Proof.
  intros H Hc Hnd Hin.
  destruct (map_dict_key_from_facts _ _ _ _ H Hc Hnd) as [Hall _].
  destruct (Hall k v Hin) as (k' & Hk' & Hr). exists k'. split; [|done].
  by apply getitem_Ok.
Qed.

Lemma map_dict_key_renames_witness :
  exists ret,
    map_dict_key {| _map := <["a" := "x"]> ∅; _inv := <["x" := "a"]> ∅ |}
                 [("a", 7)] = Ok ret /\
    exists k', get {| _map := <["a" := "x"]> ∅; _inv := <["x" := "a"]> ∅ |} "a"
               = Ok k' /\ ret !! k' = Some 7.
Proof.
  eexists. split; [reflexivity|].
  refine (map_dict_key_renames _ [("a", 7)] _ "a" 7 _ _ _ _).
  - reflexivity.
  - eapply add_consistent; [apply consistent_empty| |]; reflexivity.
  - apply NoDup_singleton.
  - left.
Defined.

(** X9: [map_dict_key] raises exactly when a key of the dictionary is not a
    key of the map, and then it is a [KeyError]. *)
Theorem map_dict_key_raises_iff {V} m (items : list (string * V)) :
  (map_dict_key m items = Raise KeyError <->
   exists k, k ∈ items.*1 /\ _map m !! k = None) /\
  (forall e, map_dict_key m items = Raise e -> e = KeyError).
Proof.
  unfold map_dict_key. generalize (∅ : gmap string V).
  induction items as [|[k v] items IH]; intros ret0; cbn.
  { split; [|done]. split; [done|]. intros (k & Hin & _). by inv Hin. }
  destruct (_map m !! k) as [k'|] eqn:Hk;
    [apply getitem_Ok in Hk as Hg|
     assert (getitem (_map m) k = Raise KeyError) as Hg by (unfold getitem; by rewrite Hk)];
    rewrite Hg; cbn.
  - destruct (IH (<[k' := v]> ret0)) as [IH1 IH2]. split; [|done].
    rewrite IH1. split; intros (k1 & Hin & Hn); exists k1.
    + split; [by right|done].
    + split; [|done]. apply elem_of_cons in Hin as [->|?]; [congruence|done].
  - split; [|by intros e [= <-]]. split; [|done]. intros _.
    exists k. split; [by left|done].
Qed.
End OneToOneMapFacts.

(** ** utils.py: [ordered_gi_users] *)

Module GraphUtils.

(** A user of a node: whether it is a call of [operator.getitem], its
    [args[1]] and its name. *)
Record user : Type := { is_getitem : bool; args1 : Z; user_name : string }.

(** [l[i] = x] on a list, a negative index counting from the end. *)
Definition list_setitem {A} (l : list A) (i : Z) (x : A) : result (list A) :=
  let n := Z.of_nat (length l) in
  let j := if (i <? 0)%Z then (i + n)%Z else i in
  if ((0 <=? j) && (j <? n))%Z then Ok (<[Z.to_nat j := x]> l)
  else Raise IndexError.

Fixpoint place_users (users : list user) (ret : list (option user))
  : result (list (option user)) :=
  match users with
  | [] => Ok ret
  | u :: rest => ret ← list_setitem ret (args1 u) (Some u); place_users rest ret
  end.

Definition ordered_gi_users (users : list user) : result (list (option user)) :=
  if forallb is_getitem users
  then place_users users (replicate (length users) None)
  else Raise AssertionError.

Lemma place_users_facts users ret0 :
  NoDup (args1 <$> users) ->
  (forall u, u ∈ users -> (0 <= args1 u < Z.of_nat (length ret0))%Z) ->
  exists ret,
    place_users users ret0 = Ok ret /\ length ret = length ret0 /\
    (forall u, u ∈ users -> ret !! Z.to_nat (args1 u) = Some (Some u)) /\
    (forall j, (forall u, u ∈ users -> args1 u <> Z.of_nat j) ->
               ret !! j = ret0 !! j).
Proof.
  revert ret0. induction users as [|u users IH]; intros ret0 Hnd Hrange; cbn.
  { exists ret0. repeat split; try done. intros u Hu. by inv Hu. }
  rewrite fmap_cons in Hnd. apply NoDup_cons in Hnd as [Hfresh Hnd].
  assert (0 <= args1 u < Z.of_nat (length ret0))%Z as Hu by (apply Hrange; by left).
  unfold list_setitem.
  destruct (Z.ltb_spec (args1 u) 0); [lia|].
  replace ((0 <=? args1 u)%Z && (args1 u <? Z.of_nat (length ret0))%Z) with true
    by (symmetry; apply andb_true_intro; split; [apply Z.leb_le|apply Z.ltb_lt]; lia).
  rewrite bind_Ok.
  destruct (IH (<[Z.to_nat (args1 u) := Some u]> ret0) Hnd)
    as (ret & -> & Hlen & Hin & Hout).
  { intros u' Hu'. rewrite length_insert. apply Hrange. by right. }
  rewrite length_insert in Hlen.
  exists ret. split; [done|]. split; [done|]. split.
  - intros u' [->|Hu']%elem_of_cons; [|by apply Hin].
    rewrite Hout.
    + apply list_lookup_insert_eq. lia.
    + intros u2 Hu2 Heq. apply Hfresh. apply list_elem_of_fmap.
      exists u2. split; [|done]. rewrite Z2Nat.id in Heq by lia. done.
  - intros j Hj. rewrite Hout.
    + apply list_lookup_insert_ne. intros <-.
      apply (Hj u); [by left|]. rewrite Z2Nat.id; lia.
    + intros u' Hu'. apply Hj. by right.
Qed.

(** X10: when all users are [getitem] calls whose indices are distinct and
    within [0, len(users)), [ordered_gi_users] returns them ordered by
    index: position [i] holds the user of index [i], and no position is
    left [None]. *)
Theorem ordered_gi_users_sorted (users : list user) :
  forallb is_getitem users = true ->
  NoDup (args1 <$> users) ->
  (forall u, u ∈ users -> (0 <= args1 u < Z.of_nat (length users))%Z) ->
  exists ret,
    ordered_gi_users users = Ok ret /\ length ret = length users /\
    (forall u, u ∈ users -> ret !! Z.to_nat (args1 u) = Some (Some u)) /\
    (forall j, j < length users ->
               exists u, u ∈ users /\ args1 u = Z.of_nat j /\ ret !! j = Some (Some u)).
Proof.
  intros Hall Hnd Hrange. unfold ordered_gi_users. rewrite Hall.
  destruct (place_users_facts users (replicate (length users) None) Hnd)
    as (ret & Hret & Hlen & Hin & _).
  { intros u Hu. rewrite length_replicate. by apply Hrange. }
  rewrite length_replicate in Hlen.
  exists ret. split; [done|]. split; [done|]. split; [done|].
  intros j Hj.
  assert ((fun u => Z.to_nat (args1 u)) <$> users ≡ₚ seq 0 (length users)) as Hperm.
  { apply submseteq_length_Permutation; [|by rewrite length_fmap, length_seq].
    apply NoDup_submseteq.
    - change ((fun u => Z.to_nat (args1 u)) <$> users)
        with ((Z.to_nat ∘ args1) <$> users).
      rewrite (list_fmap_compose args1 Z.to_nat users).
      apply NoDup_fmap_2_strong; [|done].
      intros i1 i2 (u1 & -> & Hu1)%list_elem_of_fmap (u2 & -> & Hu2)%list_elem_of_fmap Heq.
      apply Hrange in Hu1, Hu2.
      apply (f_equal Z.of_nat) in Heq. rewrite !Z2Nat.id in Heq by lia.
      exact Heq.
    - intros i (u & -> & Hu)%list_elem_of_fmap. apply elem_of_seq.
      apply Hrange in Hu. lia. }
  assert (j ∈ (fun u => Z.to_nat (args1 u)) <$> users) as (u & -> & Hu)%list_elem_of_fmap.
  { rewrite Hperm. apply elem_of_seq. lia. }
  exists u. split; [done|]. split; [|by apply Hin].
  apply Hrange in Hu. rewrite Z2Nat.id; lia.
Qed.

Definition ex_gi_users : list user :=
  [ {| is_getitem := true; args1 := 1; user_name := "getitem_1" |};
    {| is_getitem := true; args1 := 0; user_name := "getitem" |} ].

Lemma ordered_gi_users_sorted_witness :
  exists ret,
    ordered_gi_users ex_gi_users = Ok ret /\ length ret = length ex_gi_users /\
    (forall u, u ∈ ex_gi_users -> ret !! Z.to_nat (args1 u) = Some (Some u)) /\
    (forall j, j < length ex_gi_users ->
               exists u, u ∈ ex_gi_users /\ args1 u = Z.of_nat j /\
                         ret !! j = Some (Some u)).
Proof.
  apply (ordered_gi_users_sorted ex_gi_users).
  - reflexivity.
  - apply (bool_decide_unpack _). vm_compute. exact I.
  - intros u Hu. unfold ex_gi_users in Hu.
    repeat (apply elem_of_cons in Hu as [->|Hu]; [simpl; lia|]).
    by apply elem_of_nil in Hu.
Defined.

End GraphUtils.

(** ** pp_passes.py: [get_partition] *)

Module PPPasses.

(** What [get_partition] reads of a node's target. *)
Inductive target : Type :=
| fw_bw_split
| step_split
| other_target.

Record node : Type := { node_name : string; op : string; node_target : target }.

(** [node.op == 'call_function' and node.target in [fw_bw_split, step_split]] *)
Definition is_split (n : node) : bool :=
  String.eqb (op n) "call_function" &&
  match node_target n with
  | fw_bw_split | step_split => true
  | other_target => false
  end.

Fixpoint partition_from (nodes : list node) (partitions : list (gset string))
    (cur_par : gset string) : list (gset string) :=
  match nodes with
  | [] => partitions ++ [cur_par]
  | n :: rest =>
      let cur_par := cur_par ∪ {[node_name n]} in
      if is_split n then partition_from rest (partitions ++ [cur_par]) ∅
      else partition_from rest partitions cur_par
  end.

Definition get_partition (nodes : list node) : list (gset string) :=
  partition_from nodes [] ∅.

(** The number of split nodes among [nodes]. *)
Definition splits (nodes : list node) : nat := length (filter (fun n => is_split n = true) nodes).

Lemma splits_cons n nodes :
  splits (n :: nodes) = (if is_split n then 1 else 0) + splits nodes.
Proof.
  unfold splits. rewrite filter_cons. destruct (is_split n) eqn:Hs.
  - by rewrite decide_True.
  - by rewrite decide_False.
Qed.

Lemma partition_from_spec nodes partitions cur_par :
  length (partition_from nodes partitions cur_par)
    = length partitions + S (splits nodes) /\
  (forall j p, partitions !! j = Some p ->
               partition_from nodes partitions cur_par !! j = Some p) /\
  (forall j x,
     (exists p, partition_from nodes partitions cur_par !! (length partitions + j) = Some p
                /\ x ∈ p) <->
     (j = 0 /\ x ∈ cur_par) \/
     (exists i n, nodes !! i = Some n /\ node_name n = x /\
                  splits (take i nodes) = j)).
Proof.
  revert partitions cur_par.
  induction nodes as [|n nodes IH]; intros partitions cur_par; cbn [partition_from].
  { split; [|split].
    - rewrite length_app. cbn. unfold splits. cbn. lia.
    - intros j p Hj. by apply lookup_app_l_Some.
    - intros j x. rewrite lookup_app_r by lia.
      replace (length partitions + j - length partitions) with j by lia.
      split.
      + intros (p & Hp & Hx). destruct j; [|done]. inv Hp. by left.
      + intros [[-> Hx]|(i & n & Hn & _)]; [|done]. by exists cur_par. }
  rewrite splits_cons. destruct (is_split n) eqn:Hs.
  - destruct (IH (partitions ++ [cur_par ∪ {[node_name n]}]) ∅) as (Hlen & Hkeep & Hin).
    rewrite length_app in Hlen, Hin. cbn [length] in Hlen, Hin.
    split; [lia|]. split.
    + intros j p Hj. apply Hkeep. by apply lookup_app_l_Some.
    + intros j x. destruct j as [|j].
      * rewrite Hkeep with (p := cur_par ∪ {[node_name n]}).
        2:{ rewrite lookup_app_r by lia.
            by replace (length partitions + 0 - length partitions) with 0 by lia. }
        split.
        -- intros (p & [= <-] & [Hx| ->%elem_of_singleton]%elem_of_union); [by left|].
           right. exists 0, n. by rewrite take_0.
        -- intros Hx. eexists. split; [done|]. apply elem_of_union.
           destruct Hx as [[_ Hx]|(i & n' & Hn' & Hname & Hcount)]; [by left|].
           destruct i as [|i];
             [cbn in Hn'; injection Hn' as <-; right; by apply elem_of_singleton|].
           rewrite firstn_cons, splits_cons, Hs in Hcount. done.
      * replace (length partitions + S j) with (length partitions + 1 + j) by lia.
        rewrite Hin. split.
        -- intros [[_ Hx]|(i & n' & Hn' & Hname & Hcount)];
             [by apply elem_of_empty in Hx|].
           right. exists (S i), n'. rewrite firstn_cons, splits_cons, Hs. cbn.
           by rewrite Hcount.
        -- intros [[? _]|(i & n' & Hn' & Hname & Hcount)]; [done|].
           destruct i as [|i]; [by rewrite take_0 in Hcount|].
           rewrite firstn_cons, splits_cons, Hs in Hcount. cbn in Hn', Hcount.
           right. exists i, n'. split; [done|]. split; [done|]. lia.
  - destruct (IH partitions (cur_par ∪ {[node_name n]})) as (Hlen & Hkeep & Hin).
    split; [cbn; lia|]. split; [done|].
    intros j x. rewrite Hin. split.
    + intros [[-> [Hx| ->%elem_of_singleton]%elem_of_union]|(i & n' & Hn' & Hname & Hcount)].
      * by left.
      * right. exists 0, n. by rewrite take_0.
      * right. exists (S i), n'. rewrite firstn_cons, splits_cons, Hs. done.
    + intros [[-> Hx]|(i & n' & Hn' & Hname & Hcount)].
      * left. split; [done|]. apply elem_of_union. by left.
      * destruct i as [|i].
        -- cbn in Hn'. injection Hn' as <-. rewrite take_0 in Hcount. left.
           split; [done|]. apply elem_of_union. right.
           by apply elem_of_singleton.
        -- rewrite firstn_cons, splits_cons, Hs in Hcount. right. by exists i, n'.
Qed.

(** X11: [get_partition] returns one partition more than the graph has split
    nodes, and a name is in partition [j] exactly when it is the name of a
    node that has [j] split nodes strictly before it: the split node closes
    its own partition. *)
Theorem get_partition_spec (nodes : list node) :
  length (get_partition nodes) = S (splits nodes) /\
  (forall j x,
     (exists p, get_partition nodes !! j = Some p /\ x ∈ p) <->
     (exists i n, nodes !! i = Some n /\ node_name n = x /\
                  splits (take i nodes) = j)).
Proof.
  destruct (partition_from_spec nodes [] ∅) as (Hlen & _ & Hin).
  split; [done|]. intros j x. cbn in Hin. rewrite Hin.
  split; [|by right]. intros [[_ Hx]|H]; [by apply elem_of_empty in Hx|done].
Qed.

(** X12: when the names of the nodes are distinct, the partitions are
    pairwise disjoint. *)
Theorem get_partition_disjoint (nodes : list node) j1 j2 p1 p2 :
  NoDup (node_name <$> nodes) ->
  get_partition nodes !! j1 = Some p1 ->
  get_partition nodes !! j2 = Some p2 ->
  j1 <> j2 -> p1 ## p2.
Proof.
  intros Hnd H1 H2 Hne x Hx1 Hx2.
  assert (forall j y,
            (exists p, get_partition nodes !! j = Some p /\ y ∈ p) ->
            exists i n, nodes !! i = Some n /\ node_name n = y /\
                        splits (take i nodes) = j) as Hspec.
  { destruct (partition_from_spec nodes [] ∅) as (_ & _ & Hin).
    intros j y Hy. apply (Hin j y) in Hy as [[_ Hy]|Hy]; [|done].
    by apply elem_of_empty in Hy. }
  destruct (Hspec j1 x) as (i1 & n1 & Hn1 & Hname1 & Hc1); [by exists p1|].
  destruct (Hspec j2 x) as (i2 & n2 & Hn2 & Hname2 & Hc2); [by exists p2|].
  assert (i1 = i2) as ->; [|congruence].
  apply (NoDup_lookup _ i1 i2 x Hnd); rewrite list_lookup_fmap.
  - rewrite Hn1. cbn. by rewrite Hname1.
  - rewrite Hn2. cbn. by rewrite Hname2.
Qed.

Definition ex_nodes : list node :=
  [ {| node_name := "x"; op := "placeholder"; node_target := other_target |};
    {| node_name := "fw_bw_split"; op := "call_function"; node_target := fw_bw_split |};
    {| node_name := "grad"; op := "call_function"; node_target := other_target |} ].

Lemma get_partition_disjoint_witness :
  exists p1 p2,
    get_partition ex_nodes !! 0 = Some p1 /\
    get_partition ex_nodes !! 1 = Some p2 /\ p1 ## p2.
Proof.
  eexists. eexists. split; [reflexivity|]. split; [reflexivity|].
  apply (get_partition_disjoint ex_nodes 0 1).
  - apply (bool_decide_unpack _). vm_compute. exact I.
  - reflexivity.
  - reflexivity.
  - lia.
Defined.

End PPPasses.

(** ** runtime.py: the order of the calls of the two schedules *)

Module ScheduleFacts.
Import Schedule.

(** The chunks the forward compute calls of a trace run at, in order. *)
Definition forward_computes (tr : list event) : list nat :=
  omap (fun ev => match ev with EvForwardCompute k => Some k | _ => None end) tr.

(** The requests returned by the send calls of a trace, in order. *)
Definition send_reqs (tr : list event) : list nat :=
  omap (fun ev => match ev with
                  | EvForwardSend r | EvBackwardSend r => Some r
                  | _ => None
                  end) tr.

(** Forward computes minus backward computes: the chunks whose activations
    the stage holds after [tr]. *)
Definition in_flight (tr : list event) : Z :=
  (Z.of_nat (length (forward_computes tr))
   - Z.of_nat (length (backward_computes tr)))%Z.

(** Every prefix of [tr], run from [b] chunks in flight, keeps between [0]
    and [w] chunks in flight. *)
Definition in_flight_within (w b : Z) (tr : list event) : Prop :=
  forall k, (0 <= b + in_flight (take k tr) <= w)%Z.

(** The calls a whole 1F1B schedule makes. *)
Definition dapple_calls (num_warmup num_chunks : Z) (step_node : bool) : list event :=
  trace (run (ScheduleDAPPLE num_warmup num_chunks step_node) log0).2.

Lemma forward_computes_app tr1 tr2 :
  forward_computes (tr1 ++ tr2) = forward_computes tr1 ++ forward_computes tr2.
Proof. apply omap_app. Qed.

Lemma backward_computes_app tr1 tr2 :
  backward_computes (tr1 ++ tr2) = backward_computes tr1 ++ backward_computes tr2.
Proof. apply omap_app. Qed.

Lemma forward_computes_forward_events n fw req :
  forward_computes (forward_events n fw req) = seq fw n.
Proof.
  revert fw req. induction n as [|n IH]; intros fw req; [done|].
  cbn [forward_events seq]. unfold forward_computes in *.
  rewrite omap_app, IH. reflexivity.
Qed.

Lemma forward_computes_backward_events n bw req :
  forward_computes (backward_events n bw req) = [].
Proof.
  revert bw req. induction n as [|n IH]; intros bw req; [done|].
  cbn [backward_events]. unfold forward_computes in *.
  rewrite omap_app, IH. reflexivity.
Qed.

Lemma backward_computes_forward_events n fw req :
  backward_computes (forward_events n fw req) = [].
Proof.
  revert fw req. induction n as [|n IH]; intros fw req; [done|].
  cbn [forward_events]. unfold backward_computes in *.
  rewrite omap_app, IH. reflexivity.
Qed.

Lemma forward_computes_steady_events n bw fw req :
  forward_computes (steady_events n bw fw req) = seq fw n.
Proof.
  revert bw fw req. induction n as [|n IH]; intros bw fw req; [done|].
  cbn [steady_events seq]. unfold forward_computes in *.
  rewrite omap_app, IH. reflexivity.
Qed.

Lemma backward_computes_steady_events n bw fw req :
  backward_computes (steady_events n bw fw req) = seq bw n.
Proof.
  revert bw fw req. induction n as [|n IH]; intros bw fw req; [done|].
  cbn [steady_events seq]. unfold backward_computes in *.
  rewrite omap_app, IH. reflexivity.
Qed.

Lemma forward_computes_finish_events step_node reqs :
  forward_computes (finish_events step_node reqs) = [].
Proof.
  unfold finish_events, forward_computes. rewrite omap_app.
  replace (omap _ (EvWait <$> reqs)) with (@nil nat)
    by (induction reqs; [done|by cbn]).
  by destruct step_node.
Qed.

Lemma backward_computes_finish_events step_node reqs :
  backward_computes (finish_events step_node reqs) = [].
Proof.
  unfold finish_events, backward_computes. rewrite omap_app.
  replace (omap _ (EvWait <$> reqs)) with (@nil nat)
    by (induction reqs; [done|by cbn]).
  by destruct step_node.
Qed.

(** X13: a GPipe run computes the forward of the chunks [0 .. num_chunks-1]
    in order, and its backward computes, none without a backward node and
    else those of the chunks [0 .. num_chunks-1] in order, all come after
    the last forward compute. *)
Theorem gpipe_compute_order (num_chunks : Z) (bw_node step_node : bool) :
  let n := Z.to_nat num_chunks in
  let tr := gpipe_calls num_chunks bw_node step_node in
  forward_computes tr = seq 0 n /\
  backward_computes tr = (if bw_node then seq 0 n else []) /\
  backward_computes (take (3 * n) tr) = [] /\
  forward_computes (drop (3 * n) tr) = [].
Proof.
  intros n tr. unfold tr, gpipe_calls. rewrite gpipe_trace. fold n.
  assert (length (forward_events n 0 0) = 3 * n) as Hlen
    by apply forward_events_length.
  rewrite take_app_length' by done. rewrite drop_app_length' by done.
  rewrite !forward_computes_app, !backward_computes_app.
  rewrite forward_computes_forward_events, backward_computes_forward_events,
    forward_computes_finish_events, backward_computes_finish_events.
  destruct bw_node.
  - rewrite forward_computes_backward_events, backward_computes_backward_events.
    by rewrite !app_nil_r.
  - by rewrite !app_nil_r.
Qed.

(** X14: with [0 <= num_warmup <= num_chunks], a 1F1B run computes the forward
    of every chunk once and the backward of every chunk once, each in the
    order of the chunks. *)
Theorem dapple_compute_order (num_warmup num_chunks : Z) (step_node : bool) :
  (0 <= num_warmup <= num_chunks)%Z ->
  let tr := dapple_calls num_warmup num_chunks step_node in
  forward_computes tr = seq 0 (Z.to_nat num_chunks) /\
  backward_computes tr = seq 0 (Z.to_nat num_chunks).
Proof.
  intros Hw tr. unfold tr, dapple_calls. rewrite dapple_trace.
  set (a := Z.to_nat num_warmup). set (b := Z.to_nat (num_chunks - num_warmup)).
  replace (Z.to_nat (num_chunks - (num_chunks - num_warmup))) with a
    by (unfold a; f_equal; lia).
  replace (Z.to_nat num_chunks) with (a + b) by (unfold a, b; lia).
  rewrite !forward_computes_app, !backward_computes_app.
  rewrite forward_computes_forward_events, backward_computes_forward_events,
    forward_computes_steady_events, backward_computes_steady_events,
    forward_computes_backward_events, backward_computes_backward_events,
    forward_computes_finish_events, backward_computes_finish_events.
  rewrite !app_nil_r. cbn [app]. split.
  - by rewrite seq_app.
  - replace (a + b) with (b + a) by lia. by rewrite seq_app.
Qed.

Lemma dapple_compute_order_witness :
  forward_computes (dapple_calls 2 4 true) = [0; 1; 2; 3] /\
  backward_computes (dapple_calls 2 4 true) = [0; 1; 2; 3].
Proof. apply (dapple_compute_order 2 4 true). lia. Defined.

(** What one call adds to the chunks in flight. *)
Definition delta (ev : event) : Z :=
  match ev with
  | EvForwardCompute _ => 1
  | EvBackwardCompute _ => -1
  | _ => 0
  end.

Lemma in_flight_cons ev tr : in_flight (ev :: tr) = (delta ev + in_flight tr)%Z.
Proof. unfold in_flight, forward_computes, backward_computes. destruct ev; cbn; lia. Qed.

Lemma in_flight_within_nil w b : (0 <= b <= w)%Z -> in_flight_within w b [].
Proof. intros Hb k. rewrite take_nil. unfold in_flight. cbn. lia. Qed.

Lemma in_flight_within_cons w b ev tr :
  (0 <= b <= w)%Z -> in_flight_within w (b + delta ev) tr ->
  in_flight_within w b (ev :: tr).
Proof.
  intros Hb Htr [|k].
  - unfold in_flight. cbn. lia.
  - cbn [take]. rewrite in_flight_cons. specialize (Htr k). lia.
Qed.

Lemma in_flight_within_forward w b n fw req rest :
  (0 <= b)%Z -> (b + Z.of_nat n <= w)%Z ->
  in_flight_within w (b + Z.of_nat n) rest ->
  in_flight_within w b (forward_events n fw req ++ rest).
Proof.
  revert b fw req. induction n as [|n IH]; intros b fw req Hb Hn Hrest.
  { cbn. by rewrite Z.add_0_r in Hrest. }
  cbn [forward_events forward_iteration app].
  repeat (apply in_flight_within_cons; [cbn [delta]; lia|]). cbn [delta].
  apply IH; [lia|lia|].
  by replace (b + 0 + 1 + 0 + Z.of_nat n)%Z with (b + Z.of_nat (S n))%Z by lia.
Qed.

Lemma in_flight_within_steady w b n bw fw req rest :
  (1 <= b <= w)%Z -> in_flight_within w b rest ->
  in_flight_within w b (steady_events n bw fw req ++ rest).
Proof.
  revert bw fw req. induction n as [|n IH]; intros bw fw req Hb Hrest; [done|].
  cbn [steady_events steady_iteration app].
  repeat (apply in_flight_within_cons; [cbn [delta]; lia|]). cbn [delta].
  replace (b + 0 + 0 + -1 + 0 + 0 + 1 + 0)%Z with b by lia.
  by apply IH.
Qed.

Lemma in_flight_within_backward w b n bw req rest :
  (Z.of_nat n <= b <= w)%Z ->
  in_flight_within w (b - Z.of_nat n) rest ->
  in_flight_within w b (backward_events n bw req ++ rest).
Proof.
  revert b bw req. induction n as [|n IH]; intros b bw req Hb Hrest.
  { cbn. by rewrite Z.sub_0_r in Hrest. }
  cbn [backward_events backward_iteration app].
  repeat (apply in_flight_within_cons; [cbn [delta]; lia|]). cbn [delta].
  apply IH; [lia|].
  by replace (b + 0 + -1 + 0 - Z.of_nat n)%Z with (b - Z.of_nat (S n))%Z by lia.
Qed.

Lemma in_flight_within_finish w b step_node reqs :
  (0 <= b <= w)%Z -> in_flight_within w b (finish_events step_node reqs).
Proof.
  intros Hb. unfold finish_events. induction reqs as [|r reqs IH].
  - cbn. apply in_flight_within_cons; [done|]. cbn [delta].
    destruct step_node.
    + apply in_flight_within_cons; [lia|]. apply in_flight_within_nil. cbn. lia.
    + apply in_flight_within_nil. lia.
  - cbn. apply in_flight_within_cons; [done|]. cbn [delta].
    by rewrite Z.add_0_r.
Qed.

(** X15: on a stage whose [num_warmup] was fixed by [ScheduleDAPPLE.__init__],
    at every point of a 1F1B run the forward computes done are at least
    the backward computes done, and exceed them by at most [num_warmup]:
    a backward never runs before its forward, and never more than
    [num_warmup] chunks wait for their backward. *)
Theorem dapple_in_flight_bound (num_stages stage_idx num_chunks num_warmup : Z)
    (step_node : bool) (k : nat) :
  ScheduleDAPPLE_init num_stages stage_idx num_chunks true = Ok num_warmup ->
  (stage_idx < num_stages)%Z -> (0 < num_chunks)%Z ->
  let p := take k (dapple_calls num_warmup num_chunks step_node) in
  length (backward_computes p) <= length (forward_computes p) /\
  length (forward_computes p) <= length (backward_computes p) + Z.to_nat num_warmup.
Proof.
  intros Hinit Hidx HC p.
  unfold ScheduleDAPPLE_init in Hinit. injection Hinit as Hw.
  assert (in_flight_within num_warmup 0
            (dapple_calls num_warmup num_chunks step_node)) as Hin.
  { unfold dapple_calls. rewrite dapple_trace.
    set (a := Z.to_nat num_warmup). set (b := Z.to_nat (num_chunks - num_warmup)).
    replace (Z.to_nat (num_chunks - (num_chunks - num_warmup))) with a
      by (unfold a; f_equal; lia).
    assert (Z.of_nat a = num_warmup) as Ha by (unfold a; lia).
    apply in_flight_within_forward; [lia|lia|].
    apply in_flight_within_steady; [lia|].
    apply in_flight_within_backward; [lia|].
    apply in_flight_within_finish. lia. }
  specialize (Hin k). fold p in Hin. unfold in_flight in Hin. lia.
Qed.

Lemma dapple_in_flight_bound_witness :
  let p := take 20 (dapple_calls 2 4 true) in
  length (backward_computes p) <= length (forward_computes p) /\
  length (forward_computes p) <= length (backward_computes p) + Z.to_nat 2.
Proof.
  apply (dapple_in_flight_bound 3 1 4 2 true 20); [reflexivity|lia|lia].
Defined.

Lemma send_reqs_app tr1 tr2 : send_reqs (tr1 ++ tr2) = send_reqs tr1 ++ send_reqs tr2.
Proof. apply omap_app. Qed.

Lemma send_reqs_forward_events n fw req :
  send_reqs (forward_events n fw req) = single_reqs n req.
Proof.
  revert fw req. induction n as [|n IH]; intros fw req; [done|].
  cbn [forward_events single_reqs]. rewrite send_reqs_app, IH. reflexivity.
Qed.

Lemma send_reqs_backward_events n bw req :
  send_reqs (backward_events n bw req) = single_reqs n req.
Proof.
  revert bw req. induction n as [|n IH]; intros bw req; [done|].
  cbn [backward_events single_reqs]. rewrite send_reqs_app, IH. reflexivity.
Qed.

Lemma send_reqs_steady_events n bw fw req :
  send_reqs (steady_events n bw fw req) = steady_reqs n req.
Proof.
  revert bw fw req. induction n as [|n IH]; intros bw fw req; [done|].
  cbn [steady_events steady_reqs]. rewrite send_reqs_app, IH. reflexivity.
Qed.

(** The calls that end a schedule: wait on [reqs], merge, and step when
    there is a step node. *)
Definition closing (step_node : bool) (reqs : list nat) : list event :=
  (EvWait <$> reqs) ++ [EvMerge] ++ (if step_node then [EvStep] else []).

(** The calls of the receive, compute and send loops of a schedule. *)
Definition is_loop_call (ev : event) : Prop :=
  match ev with
  | EvMerge | EvStep => False
  | _ => True
  end.

Lemma Forall_loop_forward n fw req : Forall is_loop_call (forward_events n fw req).
Proof.
  revert fw req. induction n as [|n IH]; intros fw req; [constructor|].
  cbn [forward_events]. apply Forall_app. split; [|apply IH].
  repeat constructor.
Qed.

Lemma Forall_loop_backward n bw req : Forall is_loop_call (backward_events n bw req).
Proof.
  revert bw req. induction n as [|n IH]; intros bw req; [constructor|].
  cbn [backward_events]. apply Forall_app. split; [|apply IH].
  repeat constructor.
Qed.

Lemma Forall_loop_steady n bw fw req :
  Forall is_loop_call (steady_events n bw fw req).
Proof.
  revert bw fw req. induction n as [|n IH]; intros bw fw req; [constructor|].
  cbn [steady_events]. apply Forall_app. split; [|apply IH].
  repeat constructor.
Qed.


End ScheduleFacts.

(** ** runtime.py: the operations a stage posts *)

Module StageComm.
Import PipelineStage.

Lemma dd_get_NoDup {V} (d : list (Z * list V)) k vs :
  NoDup d.*1 -> (k, vs) ∈ d -> CommPlan.dd_get d k = vs.
Proof.
  induction d as [|[k' vs'] d IH]; intros Hnd Hin; [by inv Hin|].
  rewrite fmap_cons in Hnd. apply NoDup_cons in Hnd as [Hfresh Hnd].
  cbn. destruct (Z.eqb_spec k k') as [->|Hne].
  - apply elem_of_cons in Hin as [[= ->]|Hin]; [done|].
    exfalso. apply Hfresh. apply list_elem_of_fmap. by exists (k', vs).
  - apply elem_of_cons in Hin as [[= -> ->]|Hin]; [done|]. by apply IH.
Qed.

Section Ops.
Context {T Net : Type}.
Context (batch_isend_irecv : list (P2POp T) -> Net -> list nat * Net).
Context (work_wait : nat -> Net -> Net).
Context (get_global_rank : Z -> Z).
Context (cfg : Config).

(** A batch sends the values of [nodes] in their order, all to [peer]. *)
Definition sends_to (peer : Z) (output_dict : option (gmap string T))
    (nodes : list string) (batch : list (P2POp T)) : Prop :=
  Forall2 (fun node op =>
             exists val, output_item output_dict node = Ok val /\ op = isend val peer)
          nodes batch.

Lemma send_ops_to_spec peer output_dict nodes ops :
  send_ops_to peer output_dict nodes = Ok ops -> sends_to peer output_dict nodes ops.
Proof.
  revert ops. induction nodes as [|node nodes IH]; intros ops H; cbn in H.
  { inv H. constructor. }
  apply bind_Ok_inv in H as (val & Hval & H).
  apply bind_Ok_inv in H as (ops' & Hops & H). inv H.
  constructor; [by exists val|by apply IH].
Qed.

Lemma send_ops_by_dst_spec num_stages send_info output_dict by_dst :
  send_ops_by_dst get_global_rank num_stages send_info output_dict = Ok by_dst ->
  Forall2 (fun (item : Z * list string) (res : Z * list (P2POp T)) =>
             res.1 = item.1 /\ (0 <= item.1 < num_stages)%Z /\
             sends_to (get_global_rank item.1) output_dict item.2 res.2)
          send_info by_dst.
Proof.
  revert by_dst. induction send_info as [|[dst nodes] send_info IH];
    intros by_dst H; cbn in H.
  { inv H. constructor. }
  apply bind_Ok_inv in H as (peer_rank & Hpeer & H).
  apply bind_Ok_inv in H as (ops & Hops & H).
  apply bind_Ok_inv in H as (rest & Hrest & H). inv H.
  unfold stage_index_to_group_rank in Hpeer.
  destruct ((0 <=? dst)%Z && (dst <? num_stages)%Z) eqn:Hrange; [|discriminate].
  injection Hpeer as <-. apply andb_prop in Hrange as [H0 H1].
  constructor; [|by apply IH]. cbn. split; [done|]. split; [lia|].
  by apply send_ops_to_spec.
Qed.

(** X17: when [_create_send_ops] returns, it returns one batch for each
    destination of the plan, the batches by ascending destination
    whatever the order of the plan; every destination is a stage index,
    and the batch of a destination sends the chunk's output values named
    by the plan, in the plan's order, all to the global rank of that
    destination. *)
Theorem create_send_ops_batches num_stages (send_info : list (Z * list string))
    (output_dict : option (gmap string T)) batches :
  NoDup send_info.*1 ->
  _create_send_ops get_global_rank num_stages send_info output_dict = Ok batches ->
  exists dsts,
    Sorted Z.le dsts /\ dsts ≡ₚ send_info.*1 /\
    Forall2 (fun dst batch =>
               (0 <= dst < num_stages)%Z /\
               exists nodes, (dst, nodes) ∈ send_info /\
                             sends_to (get_global_rank dst) output_dict nodes batch)
            dsts batches.
Proof.
  intros Hnd H. unfold _create_send_ops in H.
  apply bind_Ok_inv in H as (by_dst & Hby & H). inv H.
  apply send_ops_by_dst_spec in Hby.
  exists (merge_sort Z.le send_info.*1).
  split; [apply (Sorted_merge_sort Z.le)|].
  split; [apply merge_sort_Permutation|].
  apply Forall2_fmap_r, Forall_Forall2_diag, Forall_forall.
  intros dst Hdst. rewrite merge_sort_Permutation in Hdst.
  apply list_elem_of_fmap in Hdst as ([dst' nodes] & -> & Hin). cbn.
  assert (by_dst.*1 = send_info.*1) as Hkeys.
  { clear -Hby. induction Hby as [|x y l k (Hk & _) _ IH]; [done|].
    rewrite !fmap_cons. by f_equal. }
  apply list_elem_of_lookup in Hin as [i Hi].
  destruct (Forall2_lookup_l _ _ _ _ _ Hby Hi) as ([dst2 ops] & Hres & Heq & Hrange & Hsends).
  cbn in Heq, Hrange, Hsends. subst dst2.
  split; [done|]. exists nodes. split; [by eapply list_elem_of_lookup_2|].
  rewrite (dd_get_NoDup by_dst dst' ops); [done|by rewrite Hkeys|].
  by eapply list_elem_of_lookup_2.
Qed.

(** A receive plan without a value to receive. *)
Definition no_receive (recv_info : list (Z * list (Placeholder nat))) : Prop :=
  Forall (fun item : Z * list (Placeholder nat) =>
            Forall (fun ph => is_recev ph = false) item.2) recv_info.

Lemma create_recv_ops_no_receive recv_info :
  no_receive recv_info ->
  Forall (fun ops => ops = []) (_create_recv_ops (T := T) recv_info).
Proof.
  intros H. unfold _create_recv_ops. apply Forall_fmap.
  eapply Forall_impl; [exact H|]. intros [src ph_list] Hph. cbn in *.
  induction Hph as [|ph ph_list Hph _ IH]; [done|].
  cbn. destruct ph; [done|discriminate].
Qed.

Lemma post_all_empty ops_list n :
  Forall (fun ops : list (P2POp T) => ops = []) ops_list ->
  post_all batch_isend_irecv ops_list n = ([], n).
Proof.
  induction 1 as [|ops ops_list -> _ IH]; [done|]. cbn. by rewrite IH.
Qed.

(** X18: on a stage whose forward plan has nothing to receive from another
    stage, as the first stage's, [forward_recv_one_chunk] posts no batch,
    returns no request and leaves the stage and the transport as they
    are, with or without waiting. *)
Theorem forward_recv_nothing (wait : bool) (st : State T Net) :
  no_receive (fw_kwargs_recv_info cfg) ->
  forward_recv_one_chunk batch_isend_irecv work_wait cfg wait st = Ok ([], st).
Proof.
  intros H. unfold forward_recv_one_chunk.
  rewrite post_all_empty by by apply create_recv_ops_no_receive.
  destruct wait, st; reflexivity.
Qed.

End Ops.

Lemma create_send_ops_batches_witness :
  exists dsts,
    Sorted Z.le dsts /\ dsts ≡ₚ [2%Z; 1%Z] /\
    Forall2 (fun dst batch =>
               (0 <= dst < 3)%Z /\
               exists nodes, (dst, nodes) ∈ [(2%Z, ["b"]); (1%Z, ["a"])] /\
                             sends_to dst (Some ({["a" := 5%Z; "b" := 7%Z]}))
                                      nodes batch)
            dsts [[isend 5%Z 1%Z]; [isend 7%Z 2%Z]].
Proof.
  apply (create_send_ops_batches (fun r => r) 3 [(2%Z, ["b"]); (1%Z, ["a"])]
           (Some ({["a" := 5%Z; "b" := 7%Z]}))).
  - apply (bool_decide_unpack _). vm_compute. exact I.
  - vm_compute. reflexivity.
Defined.

Lemma forward_recv_nothing_witness :
  forward_recv_one_chunk (T := Z) (fun _ (n : unit) => ([], n)) (fun _ n => n)
    (sender_cfg 2 false) true (demo_init [1%Z; 2%Z] false)
  = Ok ([], demo_init [1%Z; 2%Z] false).
Proof.
  apply (forward_recv_nothing (fun _ (n : unit) => ([], n)) (fun _ n => n)
           (sender_cfg 2 false) true (demo_init [1%Z; 2%Z] false)).
  repeat constructor.
Defined.

End StageComm.

(** ** runtime.py: the construction of a stage *)

Module StageInit.
Import PipelineStage.

(** One search loop of [_init_fw_bw_step_nodes] over the names of the
    graph's nodes; a node is given by its position in the graph:
    [for node in nodes:
       if node.name == target:
         assert found is None
         found = node]. *)
Fixpoint find_node_from (target : string) (nodes : list string) (i : nat)
    (found : option nat) : result (option nat) :=
  match nodes with
  | [] => Ok found
  | name :: rest =>
      if String.eqb name target then
        match found with
        | None => find_node_from target rest (S i) (Some i)
        | Some _ => Raise AssertionError
        end
      else find_node_from target rest (S i) found
  end.

Definition find_node (target : string) (nodes : list string) : result (option nat) :=
  find_node_from target nodes 0 None.

(** The result is [(self.fw_node, self.bw_node, self.step_node)]. *)
Definition _init_fw_bw_step_nodes (name : string) (nodes : list string)
  : result (nat * option nat * option nat) :=
  fw_node ← find_node (name +:+ "_fw") nodes;
  fw_node ← (match fw_node with
             | Some node => Ok node
             | None => Raise AssertionError
             end);
  bw_node ← find_node (name +:+ "_bw") nodes;
  step_node ← find_node (name +:+ "_step") nodes;
  mret (fw_node, bw_node, step_node).

(** [found] is the only node of the graph named [target], or [None] when
    there is none. *)
Definition only_node (target : string) (nodes : list string)
    (found : option nat) : Prop :=
  match found with
  | Some i => nodes !! i = Some target /\
              forall j, nodes !! j = Some target -> j = i
  | None => target ∉ nodes
  end.

(** The check of the number of ranks in [__init__], the assertion of
    [_init_communication] and its table [stage_index_to_pp_rank]. *)
Definition init_stage_index_to_group_rank (pg_world_size num_stages : Z)
  : result (gmap Z Z) :=
  if (pg_world_size >? num_stages)%Z then Raise RuntimeError
  else if negb (pg_world_size =? num_stages)%Z then Raise AssertionError
  else Ok (foldl (fun (d : gmap Z Z) i =>
                    match d !! i with
                    | Some _ => d
                    | None => <[i := (i mod pg_world_size)%Z]> d
                    end) ∅ (Schedule.range 0 num_stages)).

(** [_init_runtime_states], on a stage with the given parameter gradients
    and transport. *)
Definition _init_runtime_states {T Net} (cfg : Config)
    (grads : gmap string (option T)) (n : Net) : State T Net :=
  let chunks := Z.to_nat (num_chunks cfg) in
  {| cur_fw_send_chunk := None;
     cur_bw_send_chunk := None;
     cur_fw_chunk_id := 0;
     cur_bw_chunk_id := 0;
     kwargs_chunks := replicate chunks ∅;
     saved_tensors_bw_chunks := replicate chunks ∅;
     saved_params_step := ∅;
     saved_grads_step_chunks := replicate chunks ∅;
     output_grads_chunks := replicate chunks ∅;
     returns_chunks := replicate chunks ∅;
     output_grads_reduced :=
       if accumulate_grads_inplace cfg then Some (OwnDict ∅) else None;
     step_grads_reduced :=
       if accumulate_grads_inplace cfg then Some (OwnDict ∅) else None;
     param_grads := grads;
     net := n |}.

Lemma find_node_from_spec target nodes i found r :
  find_node_from target nodes i found = Ok r <->
  match found with
  | Some f => (target ∉ nodes) /\ r = Some f
  | None =>
      ((target ∉ nodes) /\ r = None) \/
      (exists k, r = Some (i + k) /\ nodes !! k = Some target /\
                 forall j, nodes !! j = Some target -> j = k)
  end.
Proof.
  revert i found. induction nodes as [|name nodes IH]; intros i found; cbn.
  { destruct found as [f|].
    - split; [intros [= <-]; split; [apply not_elem_of_nil|done]|by intros [_ ->]].
    - split; [intros [= <-]; left; split; [apply not_elem_of_nil|done]|].
      intros [[_ ->]|(k & _ & Hk & _)]; done. }
  destruct (String.eqb_spec name target) as [->|Hne].
  - destruct found as [f|].
    + split; [done|]. intros [Hnot _]. exfalso. apply Hnot. by left.
    + rewrite IH. split.
      * intros [Hnot ->]. right. exists 0. rewrite Nat.add_0_r.
        split; [done|]. split; [done|].
        intros [|j] Hj; [done|]. cbn in Hj. exfalso. apply Hnot.
        by eapply list_elem_of_lookup_2.
      * intros [[Hnot _]|(k & -> & Hk & Huniq)]; [exfalso; apply Hnot; by left|].
        assert (k = 0) as -> by (symmetry; by apply Huniq).
        rewrite Nat.add_0_r. split; [|done].
        intros (j & Hj)%list_elem_of_lookup. specialize (Huniq (S j) Hj). lia.
  - rewrite IH. destruct found as [f|].
    + rewrite not_elem_of_cons. intuition congruence.
    + split.
      * intros [[Hnot ->]|(k & -> & Hk & Huniq)].
        -- left. rewrite not_elem_of_cons. split; [split; [congruence|done]|done].
        -- right. exists (S k). split; [f_equal; lia|]. split; [done|].
           intros [|j] Hj; cbn in Hj; [congruence|]. f_equal. by apply Huniq.
      * intros [[[_ Hnot]%not_elem_of_cons ->]|(k & -> & Hk & Huniq)]; [by left|].
        destruct k as [|k]; cbn in Hk; [congruence|].
        right. exists k. split; [f_equal; lia|]. split; [done|].
        intros j Hj. specialize (Huniq (S j) Hj). lia.
Qed.

Lemma find_node_Ok target nodes r :
  find_node target nodes = Ok r <-> only_node target nodes r.
Proof.
  unfold find_node. rewrite find_node_from_spec. unfold only_node.
  destruct r as [i|]; split.
  - intros [[_ [=]]|(k & [= ->] & Hk)]; done.
  - intros Hi. right. by exists i.
  - intros [[? _]|(k & [=] & _)]; done.
  - intros Hnot. by left.
Qed.

Lemma find_node_from_Raise target nodes i found e :
  find_node_from target nodes i found = Raise e -> e = AssertionError.
Proof.
  revert i found. induction nodes as [|name nodes IH]; intros i found; cbn; [done|].
  destruct (String.eqb name target); [|apply IH].
  destruct found; [by intros [= <-]|apply IH].
Qed.

(** X19: [_init_fw_bw_step_nodes] returns exactly when the graph has one
    node named [<name>_fw] and at most one named [<name>_bw] and
    [<name>_step]; it then returns those nodes ([None] for an absent
    backward or step node), and otherwise it raises [AssertionError]. *)
Theorem init_fw_bw_step_nodes_spec (name : string) (nodes : list string) :
  (forall fw bw step,
     _init_fw_bw_step_nodes name nodes = Ok (fw, bw, step) <->
     only_node (name +:+ "_fw") nodes (Some fw) /\
     only_node (name +:+ "_bw") nodes bw /\
     only_node (name +:+ "_step") nodes step) /\
  (forall e, _init_fw_bw_step_nodes name nodes = Raise e -> e = AssertionError).
Proof.
  unfold _init_fw_bw_step_nodes. split.
  - intros fw bw step. rewrite <- !find_node_Ok. split.
    + intros H. apply bind_Ok_inv in H as (f & Hf & H).
      apply bind_Ok_inv in H as (f' & Hf' & H).
      apply bind_Ok_inv in H as (b & Hb & H).
      apply bind_Ok_inv in H as (s & Hs & H).
      destruct f as [f|]; [|discriminate]. injection Hf' as <-.
      cbn in H. injection H as <- <- <-. done.
    + intros (-> & -> & ->). done.
  - intros e.
    destruct (find_node (name +:+ "_fw") nodes) as [[f|]|e1] eqn:Hf; cbn;
      [|by intros [= <-]|intros [= <-]; by eapply find_node_from_Raise].
    destruct (find_node (name +:+ "_bw") nodes) as [b|e1] eqn:Hb; cbn;
      [|intros [= <-]; by eapply find_node_from_Raise].
    destruct (find_node (name +:+ "_step") nodes) as [s|e1] eqn:Hs; cbn;
      [done|intros [= <-]; by eapply find_node_from_Raise].
Qed.

Lemma setdefault_range_lookup (w : Z) (l : list Z) (d0 : gmap Z Z) dst :
  foldl (fun (d : gmap Z Z) i =>
           match d !! i with
           | Some _ => d
           | None => <[i := (i mod w)%Z]> d
           end) d0 l !! dst =
  match d0 !! dst with
  | Some r => Some r
  | None => if bool_decide (dst ∈ l) then Some (dst mod w)%Z else None
  end.
Proof.
  revert d0. induction l as [|i l IH]; intros d0; cbn.
  { by destruct (d0 !! dst). }
  rewrite IH. destruct (d0 !! i) as [r|] eqn:Hi.
  - destruct (d0 !! dst) as [r'|] eqn:Hd; [done|].
    assert (dst <> i) by congruence.
    destruct (bool_decide (dst ∈ l)) eqn:Hl.
    + apply bool_decide_eq_true in Hl. rewrite bool_decide_eq_true_2; [done|by right].
    + apply bool_decide_eq_false in Hl. rewrite bool_decide_eq_false_2; [done|].
      by intros [?|?]%elem_of_cons.
  - destruct (decide (dst = i)) as [->|Hne].
    + rewrite lookup_insert_eq, Hi. rewrite bool_decide_eq_true_2; [done|by left].
    + rewrite lookup_insert_ne by done. destruct (d0 !! dst); [done|].
      destruct (bool_decide (dst ∈ l)) eqn:Hl.
      * apply bool_decide_eq_true in Hl. rewrite bool_decide_eq_true_2; [done|by right].
      * apply bool_decide_eq_false in Hl. rewrite bool_decide_eq_false_2; [done|].
        by intros [?|?]%elem_of_cons.
Qed.

Lemma elem_of_range a b i : i ∈ Schedule.range a b <-> (a <= i < b)%Z.
Proof.
  unfold Schedule.range. rewrite list_elem_of_fmap. split.
  - intros (k & -> & Hk%elem_of_seq). lia.
  - intros Hi. exists (Z.to_nat (i - a)). split; [lia|]. apply elem_of_seq. lia.
Qed.

(** X20: the construction goes on only when the group has as many ranks as
    there are stages: more ranks raise [RuntimeError], fewer fail the
    assertion.  The table it then builds maps every stage index in
    [0, num_stages) to itself and has no other key, so that looking a
    destination up in it is [stage_index_to_group_rank]. *)
Theorem init_stage_index_to_group_rank_spec (pg_world_size num_stages : Z) :
  ((num_stages < pg_world_size)%Z ->
   init_stage_index_to_group_rank pg_world_size num_stages = Raise RuntimeError) /\
  ((pg_world_size < num_stages)%Z ->
   init_stage_index_to_group_rank pg_world_size num_stages = Raise AssertionError) /\
  (pg_world_size = num_stages ->
   exists table,
     init_stage_index_to_group_rank pg_world_size num_stages = Ok table /\
     forall dst, match table !! dst with
                 | Some r => Ok r
                 | None => Raise KeyError
                 end = stage_index_to_group_rank num_stages dst).
Proof.
  unfold init_stage_index_to_group_rank. split; [|split].
  - intros H. by rewrite (proj2 (Z.gtb_lt _ _) H).
  - intros H. destruct (Z.gtb_spec pg_world_size num_stages); [lia|].
    destruct (Z.eqb_spec pg_world_size num_stages); [lia|done].
  - intros ->. destruct (Z.gtb_spec num_stages num_stages); [lia|].
    rewrite Z.eqb_refl. cbn. eexists. split; [done|].
    intros dst. rewrite setdefault_range_lookup, lookup_empty.
    unfold stage_index_to_group_rank.
    destruct (bool_decide (dst ∈ Schedule.range 0 num_stages)) eqn:Hd.
    + apply bool_decide_eq_true, elem_of_range in Hd.
      rewrite Z.mod_small by lia.
      by rewrite (proj2 (Z.leb_le _ _)), (proj2 (Z.ltb_lt _ _)) by lia.
    + apply bool_decide_eq_false in Hd. rewrite elem_of_range in Hd.
      destruct (Z.leb_spec 0 dst), (Z.ltb_spec dst num_stages); cbn; try done. lia.
Qed.

Lemma all_empty_replicate {V} n : all_empty (replicate n (∅ : gmap string V)) = true.
Proof. induction n as [|n IH]; [done|]. cbn. by rewrite map_size_empty. Qed.

(** X21: the state [_init_runtime_states] makes has one empty dictionary
    per chunk in each per-chunk list, and it passes
    [reset_and_check_runtime_states], which leaves it as it is: the first
    call of a stage finds the state a finished step must leave. *)
Theorem init_runtime_states_pass_check {T Net} (cfg : Config)
    (grads : gmap string (option T)) (n : Net) :
  let st := _init_runtime_states cfg grads n in
  reset_and_check_runtime_states cfg st = Ok (tt, st) /\
  buffers_empty st = true /\
  length (kwargs_chunks st) = Z.to_nat (num_chunks cfg) /\
  length (saved_tensors_bw_chunks st) = Z.to_nat (num_chunks cfg) /\
  length (saved_grads_step_chunks st) = Z.to_nat (num_chunks cfg) /\
  length (output_grads_chunks st) = Z.to_nat (num_chunks cfg) /\
  length (returns_chunks st) = Z.to_nat (num_chunks cfg).
Proof.
  intros st. split.
  - unfold reset_and_check_runtime_states, check_single. cbn.
    fold (@all_empty (option T) (replicate (Z.to_nat (num_chunks cfg)) ∅)).
    fold (@all_empty T (replicate (Z.to_nat (num_chunks cfg)) ∅)).
    rewrite !all_empty_replicate, fmap_replicate. cbn.
    unfold st, _init_runtime_states.
    destruct (accumulate_grads_inplace cfg); cbn; reflexivity.
  - unfold buffers_empty, st, _init_runtime_states.
    cbn [returns_chunks saved_tensors_bw_chunks saved_grads_step_chunks
         output_grads_chunks kwargs_chunks].
    by rewrite !all_empty_replicate, !length_replicate.
Qed.

End StageInit.

(** ** runtime.py: gradients, returns and state dictionaries of a stage *)

Module StageDicts.
Import PipelineStage.

(** [reduce(lambda a, b: {**a, **b}, state_dicts)] *)
Definition merge_state_dicts {V} (state_dicts : list (gmap string V))
  : result (gmap string V) :=
  match state_dicts with
  | [] => Raise TypeError
  | a :: rest => Ok (foldl (fun a b => b ∪ a) a rest)
  end.

(** [_all_gather_inner]; [all_gather_object] returns the dictionaries of
    all stages in stage order. *)
Definition _all_gather_inner {V Net}
    (all_gather_object : gmap string V -> Net -> list (gmap string V) * Net)
    (state_dict : gmap string V) (n : Net) : result (gmap string V * Net) :=
  let '(state_dicts, n1) := all_gather_object state_dict n in
  d ← merge_state_dicts state_dicts;
  mret (d, n1).

(** [state_dict], [named_parameters], [named_buffers] and
    [_optimizer_state_dict]: the dictionary of the compiled stage,
    gathered from all stages on request. *)
Definition state_dict {V Net}
    (all_gather_object : gmap string V -> Net -> list (gmap string V) * Net)
    (local : gmap string V) (all_gather : bool) (n : Net)
  : result (gmap string V * Net) :=
  if all_gather then _all_gather_inner all_gather_object local n
  else Ok (local, n).

(** The value of [k] in the last dictionary of [l] that has the key. *)
Definition last_value {V} (l : list (gmap string V)) (k : string) (v : V) : Prop :=
  exists i d, l !! i = Some d /\ d !! k = Some v /\
    forall j d', i < j -> l !! j = Some d' -> d' !! k = None.

Lemma merge_snoc_lookup {V} (l : list (gmap string V)) b k v :
  last_value (l ++ [b]) k v <->
  b !! k = Some v \/ (b !! k = None /\ last_value l k v).
Proof.
  split.
  - intros (i & d & Hi & Hd & Hlast).
    apply lookup_app_Some in Hi as [Hi|[Hlen Hi]].
    + right. split.
      * apply (Hlast (length l) b); [by eapply lookup_lt_Some|].
        by rewrite lookup_app_r, Nat.sub_diag by lia.
      * exists i, d. split; [done|]. split; [done|].
        intros j d' Hj Hd'. apply (Hlast j d' Hj). by apply lookup_app_l_Some.
    + left. destruct (i - length l) as [|?] eqn:Hsub; cbn in Hi; [|done].
      by inv Hi.
  - intros [Hb|[Hb (i & d & Hi & Hd & Hlast)]].
    + exists (length l), b. split; [by rewrite lookup_app_r, Nat.sub_diag by lia|].
      split; [done|]. intros j d' Hj Hd'.
      apply lookup_lt_Some in Hd'. rewrite length_app in Hd'. cbn in Hd'. lia.
    + exists i, d. split; [by apply lookup_app_l_Some|]. split; [done|].
      intros j d' Hj Hd'. apply lookup_app_Some in Hd' as [Hd'|[Hlen Hd']].
      * by apply (Hlast j d').
      * destruct (j - length l) as [|?]; cbn in Hd'; [|done]. by inv Hd'.
Qed.

Lemma merge_fold_lookup {V} (l : list (gmap string V)) k v :
  foldl (fun a b => b ∪ a) ∅ l !! k = Some v <-> last_value l k v.
Proof.
  induction l as [|b l IH] using rev_ind.
  - cbn. rewrite lookup_empty. split; [done|]. by intros (i & d & Hi & _).
  - rewrite foldl_app, merge_snoc_lookup. cbn.
    rewrite lookup_union_Some_raw, IH. done.
Qed.

Lemma merge_fold_head {V} (a : gmap string V) rest :
  foldl (fun a b => b ∪ a) a rest = foldl (fun a b => b ∪ a) ∅ (a :: rest).
Proof. cbn. by rewrite (right_id ∅ (∪) a). Qed.

(** X22: [_all_gather_inner], and so [state_dict], [named_parameters],
    [named_buffers] and [_optimizer_state_dict] when asked to gather,
    return the union of the dictionaries of all stages; a key that several
    stages have gets the value of the last of them in stage order.  With
    no stage at all it is a [TypeError]; without gathering the local
    dictionary is returned as it is. *)
Theorem state_dict_last_stage_wins {V Net}
    (all_gather_object : gmap string V -> Net -> list (gmap string V) * Net)
    (local : gmap string V) (n : Net) :
  let gathered := (all_gather_object local n).1 in
  state_dict all_gather_object local false n = Ok (local, n) /\
  (gathered = [] -> state_dict all_gather_object local true n = Raise TypeError) /\
  (gathered <> [] ->
   exists d, state_dict all_gather_object local true n
             = Ok (d, (all_gather_object local n).2) /\
             forall k v, d !! k = Some v <-> last_value gathered k v).
Proof.
  intros gathered. unfold state_dict, _all_gather_inner, gathered.
  destruct (all_gather_object local n) as [dicts n1]. cbn [fst snd].
  split; [done|]. split; [by intros ->|].
  intros Hne. destruct dicts as [|a rest]; [done|]. cbn.
  eexists. split; [done|]. intros k v.
  change (foldl (fun a b => b ∪ a) a rest) with
    ((fun x => foldl (fun a b : gmap string V => b ∪ a) x rest) a).
  cbn beta. rewrite merge_fold_head. apply merge_fold_lookup.
Qed.

Section Reduce.
Context {T : Type} (torch_add : T -> T -> T).

(** The values of [k] in the dictionaries of [l], in order. *)
Definition values_of (k : string) (l : list (gmap string T)) (xs : list T) : Prop :=
  Forall2 (fun c y => c !! k = Some y) l xs.

Lemma reduce_from_spec (a : gmap string T) rest :
  match reduce_from torch_add a rest with
  | Ok d =>
      dom d = dom a /\ Forall (fun c => dom a ⊆ dom c) rest /\
      forall k x, a !! k = Some x ->
                  exists xs, values_of k rest xs /\
                             d !! k = Some (foldl torch_add x xs)
  | Raise e => e = KeyError /\ ~ Forall (fun c => dom a ⊆ dom c) rest
  end.
Proof.
  revert a. induction rest as [|b rest IH]; intros a; cbn.
  { split; [done|]. split; [constructor|]. intros k x Hk. exists []. split; [constructor|done]. }
  pose proof (add_dicts_spec torch_add a b) as Hab.
  destruct (add_dicts torch_add a b) as [d1|e]; cbn.
  - assert (dom d1 = dom a) as Hdom.
    { apply set_eq. intros k. rewrite !elem_of_dom. destruct (Hab k) as [-> Hb].
      destruct (a !! k) as [x|]; cbn; [|by split; intros [? ?]].
      destruct Hb as [y ->]; [by eexists|]. cbn. split; by eexists. }
    assert (dom a ⊆ dom b) as Hsub.
    { intros k. rewrite !elem_of_dom. apply Hab. }
    specialize (IH d1). destruct (reduce_from torch_add d1 rest) as [d|e].
    + destruct IH as (Hd & Hall & Hval). rewrite Hdom in Hd, Hall.
      split; [done|]. split; [by constructor|].
      intros k x Hk. destruct (Hab k) as [Hd1 Hb]. rewrite Hk in Hd1. cbn in Hd1.
      destruct Hb as [y Hy]; [by eexists|]. rewrite Hy in Hd1. cbn in Hd1.
      destruct (Hval k _ Hd1) as (xs & Hxs & Hdk).
      exists (y :: xs). split; [by constructor|done].
    + destruct IH as [-> Hnot]. split; [done|]. rewrite Hdom in Hnot.
      intros Hall. apply Hnot. by inv Hall.
  - destruct Hab as (-> & k & Ha & Hb). split; [done|].
    intros Hall. inv Hall. apply not_elem_of_dom in Hb. apply Hb.
    by apply H1, elem_of_dom.
Qed.

(** X23: with two chunks or more, the end-of-step reduction returns exactly
    when every key of the first chunk is a key of every other chunk, and
    raises [KeyError] otherwise.  The reduced dictionary is then a new
    one with the keys of the first chunk, each holding the sum of that
    key's values over the chunks in chunk order; keys that only later
    chunks have are dropped. *)
Theorem reduce_chunks_sums (a b : gmap string T) (rest : list (gmap string T)) :
  (Forall (fun c => dom a ⊆ dom c) (b :: rest) ->
   exists d, reduce_chunks torch_add (a :: b :: rest) = Ok (OwnDict d) /\
             dom d = dom a /\
             forall k x, a !! k = Some x ->
                         exists xs, values_of k (b :: rest) xs /\
                                    d !! k = Some (foldl torch_add x xs)) /\
  (~ Forall (fun c => dom a ⊆ dom c) (b :: rest) ->
   reduce_chunks torch_add (a :: b :: rest) = Raise KeyError).
Proof.
  pose proof (reduce_from_spec a (b :: rest)) as H.
  unfold reduce_chunks.
  destruct (reduce_from torch_add a (b :: rest)) as [d|e]; cbn.
  - destruct H as (Hdom & Hall & Hval). split; [|done].
    intros _. by exists d.
  - destruct H as [-> Hnot]. split; [done|done].
Qed.

End Reduce.


Section Returns.
Context {T Net : Type}.
Context (split_args_kwargs_into_chunks : gmap string T -> Z -> list (gmap string T)).
Context (merge_chunks : list (gmap string (option T)) -> gmap string (option T)).
Context (all_gather_object :
           gmap string (option T) -> Net -> list (gmap string (option T)) * Net).
Context (cfg : Config).

(** X25: whatever the schedule, a call of the stage that returns leaves
    every dictionary of [returns_chunks] empty, one per dictionary the
    schedule left, and returns one tensor for each name of
    [return_nodes_flatten]. *)
Theorem call_clears_returns (schedule : StageM T Net unit)
    (input_node_vals : gmap string T) (st st' : State T Net) ret :
  __call__ split_args_kwargs_into_chunks merge_chunks all_gather_object cfg
           schedule input_node_vals st = Ok (ret, st') ->
  all_empty (returns_chunks st') = true /\
  length ret = length (return_nodes_flatten cfg) /\
  exists st1,
    schedule (set_kwargs_chunks (split_input_kwargs split_args_kwargs_into_chunks
                                   cfg input_node_vals) (reset_state st))
      = Ok (tt, st1) /\
    length (returns_chunks st') = length (returns_chunks st1).
Proof.
  intros H. unfold __call__ in H.
  apply stage_bind_Ok_inv in H as ([] & s1 & Hreset & H).
  apply reset_ok_inv in Hreset as [_ [= <-]].
  apply stage_bind_Ok_inv in H as ([] & s2 & Hset & H). injection Hset as <-.
  apply stage_bind_Ok_inv in H as ([] & s3 & Hsched & H).
  unfold merge_chunked_returns in H.
  destruct (all_gather_object _ _) as [gathered n1].
  apply bind_Ok_inv in H as (tensors & Htensors & H). injection H as <- <-.
  cbn. split; [|split].
  - unfold all_empty, clear_single. apply forallb_forall.
    intros c (y & -> & _)%list_elem_of_In%list_elem_of_fmap. cbn beta.
    by rewrite map_size_empty.
  - clear -Htensors. revert tensors Htensors.
    induction (return_nodes_flatten cfg) as [|name names IH]; intros ret H; cbn in H.
    { by inv H. }
    apply bind_Ok_inv in H as (v & _ & H).
    apply bind_Ok_inv in H as (vs & Hvs & H). inv H. cbn. f_equal. by apply IH.
  - exists s3. split; [done|]. unfold clear_single. by rewrite !length_fmap.
Qed.

End Returns.

Lemma call_clears_returns_witness :
  exists ret st',
    demo_call [5%Z; 7%Z] true true true = Ok (ret, st') /\
    all_empty (returns_chunks st') = true.
Proof.
  eexists _, _. split; [vm_compute; reflexivity|].
  refine (proj1 (call_clears_returns
                   (fun _ _ => (fun x => {["x" := x]}) <$> [5%Z; 7%Z])
                   (fun chunks => default ∅ (head chunks))
                   (fun returns n => ([returns], n))
                   (demo_cfg 2 true true true)
                   (gpipe Z.add (fun _ n => ([], n)) (fun _ n => n)
                          (fun _ _ => 0%Z) id demo_stage
                          (demo_cfg 2 true true true))
                   ∅ (demo_init [5%Z; 7%Z] true) _ _ _)).
  vm_compute. reflexivity.
Defined.

End StageDicts.

(** ** runtime.py: more on the communication plan *)

Module CommPlanFacts.
Import CommPlan.

(** "Lower rank first" for a forward node, "higher rank first" for a
    backward one. *)
Definition rank_before (is_forward : bool) (a b : Z) : Prop :=
  if is_forward then (a < b)%Z else (b < a)%Z.

Lemma dd_append_keys {V} (d : list (Z * list V)) k v :
  (dd_append d k v).*1 = if bool_decide (k ∈ d.*1) then d.*1 else d.*1 ++ [k].
Proof.
  induction d as [|[k' vs] d IH]; cbn; [done|].
  destruct (Z.eqb_spec k k') as [->|Hne]; cbn.
  - rewrite bool_decide_eq_true_2; [done|by left].
  - rewrite IH. destruct (bool_decide (k ∈ d.*1)) eqn:Hk.
    + apply bool_decide_eq_true in Hk. rewrite bool_decide_eq_true_2; [done|by right].
    + apply bool_decide_eq_false in Hk. rewrite bool_decide_eq_false_2; [done|].
      by intros [?|?]%elem_of_cons.
Qed.

Lemma dd_keys_sorted {A V} (R : relation Z) (rk : A -> Z) (val : A -> V) l
    (d : list (Z * list V)) :
  StronglySorted (fun a b => R a b /\ a <> b) d.*1 ->
  StronglySorted R (rk <$> l) ->
  Forall (fun k => Forall (fun x => R k (rk x)) l) d.*1 ->
  StronglySorted (fun a b => R a b /\ a <> b)
    (foldl (fun info x => dd_append info (rk x) (val x)) d l).*1 /\
  forall k, k ∈ (foldl (fun info x => dd_append info (rk x) (val x)) d l).*1 <->
            k ∈ d.*1 \/ k ∈ rk <$> l.
Proof.
  revert d. induction l as [|x l IH]; intros d Hd Hl Hdl; cbn.
  { split; [done|]. intros k. split; [by left|]. by intros [?|?%elem_of_nil]. }
  rewrite fmap_cons in Hl. apply StronglySorted_inv in Hl as [Hl Hx].
  destruct (IH (dd_append d (rk x) (val x))) as [Hs Hk].
  - rewrite dd_append_keys. destruct (bool_decide (rk x ∈ d.*1)) eqn:Hin; [done|].
    apply bool_decide_eq_false in Hin.
    apply StronglySorted_app_2; [|done|repeat constructor].
    intros a b Ha ->%list_elem_of_singleton. split.
    + rewrite Forall_forall in Hdl. specialize (Hdl a Ha).
      by apply Forall_cons in Hdl as [? _].
    + by intros ->.
  - done.
  - rewrite dd_append_keys.
    assert (Forall (fun k => Forall (fun x => R k (rk x)) l) d.*1) as Hd'.
    { eapply Forall_impl; [exact Hdl|]. intros k Hkx. by apply Forall_cons in Hkx as [_ ?]. }
    destruct (bool_decide (rk x ∈ d.*1)); [done|].
    apply Forall_app. split; [done|]. constructor; [|done].
    by rewrite Forall_fmap in Hx.
  - split; [done|]. intros k. rewrite Hk, dd_append_keys, ?fmap_cons.
    destruct (bool_decide (rk x ∈ d.*1)) eqn:Hin.
    + apply bool_decide_eq_true in Hin. rewrite elem_of_cons.
      split; [tauto|]. intros [?|[->|?]]; tauto.
    + rewrite elem_of_app, list_elem_of_singleton, elem_of_cons. tauto.
Qed.

(** X26: the destinations of a send plan are each there once, in the order
    the plan is built in (ascending for a forward node, descending for a
    backward one), and they are the stages of the users of the node's
    outputs. *)
Theorem send_info_destinations (users : list getitem_user) (is_forward : bool) :
  let info := _create_send_info users is_forward in
  StronglySorted (rank_before is_forward) info.*1 /\
  NoDup info.*1 /\
  forall d, d ∈ info.*1 <->
            exists user, user ∈ users /\ d ∈ gi_users user.
Proof.
  intros info. unfold info, _create_send_info.
  set (R := fun a b : Z => if is_forward then (a <= b)%Z else (b <= a)%Z).
  destruct (dd_keys_sorted (V := string) R fst snd
              (sort_by_key (send_key is_forward) (send_candidates users)) [])
    as [Hs Hk].
  - constructor.
  - eapply StronglySorted_fmap; [|apply (send_candidates_sorted users is_forward)].
    intros x y. unfold plan_order, R. destruct is_forward; lia.
  - constructor.
  - assert (StronglySorted (rank_before is_forward)
              (foldl (fun info x => dd_append info x.1 x.2) []
                     (sort_by_key (send_key is_forward) (send_candidates users))).*1)
      as Hsorted.
    { eapply StronglySorted_weaken; [|exact Hs].
      intros a b. unfold R, rank_before. destruct is_forward; lia. }
    split; [done|]. split.
    + clear -Hsorted. induction Hsorted as [|a l _ IH Ha]; constructor; [|done].
      intros Hin. rewrite Forall_forall in Ha. specialize (Ha a Hin).
      unfold rank_before in Ha. destruct is_forward; lia.
    + intros d. rewrite Hk, elem_of_nil, sort_by_key_perm.
      unfold send_candidates. rewrite list_elem_of_fmap. split.
      * intros [[]|([d' s] & -> & Hin)]. cbn.
        apply list_elem_of_In, in_flat_map in Hin as (user & Hu & Hin).
        apply in_map_iff in Hin as (dst & [= <- <-] & Hdst).
        exists user. by rewrite !list_elem_of_In.
      * intros (user & Hu & Hd). right. exists (d, out_str user). split; [done|].
        apply list_elem_of_In, in_flat_map. exists user.
        split; [by apply list_elem_of_In|].
        apply in_map_iff. exists d. split; [done|]. by apply list_elem_of_In.
Qed.

Section RecvOutcome.
Context {E : Type} (get_global_rank : Z -> Z).

(** The rank [_create_recv_info] sorts an input by; [-1] marks a step
    argument. *)
Definition rank_of (gi : gi_input) : Z :=
  if op_placeholder gi then (-1)%Z else get_global_rank (src_stage gi).

(** An input that is produced by a stage and has no entry in
    [node_metas]. *)
Definition missing_meta (node_metas : gmap string E) (gi : gi_input) : Prop :=
  op_placeholder gi = false /\ node_metas !! name gi = None.

Lemma recv_candidates_outcome (node_metas : gmap string E) kwargs :
  match recv_candidates get_global_rank node_metas kwargs with
  | Ok cs => Forall (fun gi => ~ missing_meta node_metas gi) kwargs /\
             (fun x : Z * string * option E => x.1.1) <$> cs = rank_of <$> kwargs
  | Raise e => e = KeyError /\ Exists (missing_meta node_metas) kwargs
  end.
Proof.
  induction kwargs as [|gi kwargs IH]; cbn; [by split|].
  destruct (op_placeholder gi) eqn:Hop.
  - destruct (recv_candidates get_global_rank node_metas kwargs) as [cs|e]; cbn.
    + destruct IH as [Hall Hranks]. split.
      * constructor; [|done]. intros [? _]. congruence.
      * unfold rank_of at 1. rewrite Hop. by f_equal.
    + destruct IH as [-> Hex]. split; [done|]. by right.
  - unfold getitem. destruct (node_metas !! name gi) as [ex|] eqn:Hm; cbn.
    + destruct (recv_candidates get_global_rank node_metas kwargs) as [cs|e]; cbn.
      * destruct IH as [Hall Hranks]. split.
        -- constructor; [|done]. intros [_ ?]. congruence.
        -- unfold rank_of at 1. rewrite Hop. by f_equal.
      * destruct IH as [-> Hex]. split; [done|]. by right.
    + split; [done|]. by left.
Qed.

Lemma recv_fold_outcome is_forward (l : list (Z * string * option E)) d :
  match foldl (recv_step is_forward) (Ok d) l with
  | Ok _ => is_forward = true \/ Forall (fun x => x.1.1 <> (-1)%Z) l
  | Raise e => e = AssertionError /\ is_forward = false /\
               Exists (fun x => x.1.1 = (-1)%Z) l
  end.
Proof.
  revert d. induction l as [|x l IH]; intros d; cbn [foldl]; [by right|].
  rewrite recv_step_Ok. destruct (Z.eqb_spec x.1.1 (-1)) as [Hx|Hx].
  - destruct is_forward.
    + specialize (IH (dd_append d 0%Z (StageKwargPlaceholder x.1.2))).
      destruct (foldl _ _ l); [by left|]. by destruct IH as (_ & ? & _).
    + rewrite foldl_recv_step_raise. split; [done|]. split; [done|]. by left.
  - specialize (IH (dd_append d x.1.1 (RecevPlaceholder x.1.2 x.1.1 x.2))).
    destruct (foldl _ _ l).
    + destruct IH as [?|?]; [by left|]. right. by constructor.
    + destruct IH as (-> & ? & ?). split; [done|]. split; [done|]. by right.
Qed.

(** X27: [_create_recv_info] raises [KeyError] when an input produced by a
    stage has no entry in [node_metas]; otherwise it returns a plan,
    except for a backward node one of whose inputs is a raw step argument
    (or comes from global rank [-1]), where the assertion fails. *)
Theorem create_recv_info_outcome (node_metas : gmap string E)
    (kwargs : list gi_input) (is_forward : bool) :
  match _create_recv_info get_global_rank node_metas kwargs is_forward with
  | Ok _ =>
      Forall (fun gi => ~ missing_meta node_metas gi) kwargs /\
      (is_forward = true \/ Forall (fun gi => rank_of gi <> (-1)%Z) kwargs)
  | Raise e =>
      (e = KeyError /\ Exists (missing_meta node_metas) kwargs) \/
      (e = AssertionError /\ is_forward = false /\
       Forall (fun gi => ~ missing_meta node_metas gi) kwargs /\
       Exists (fun gi => rank_of gi = (-1)%Z) kwargs)
  end.
Proof.
  unfold _create_recv_info.
  pose proof (recv_candidates_outcome node_metas kwargs) as Hc.
  destruct (recv_candidates get_global_rank node_metas kwargs) as [cs|e]; cbn.
  2:{ by left. }
  destruct Hc as [Hall Hranks].
  pose proof (recv_fold_outcome is_forward
                (sort_by_key (recv_key is_forward) cs) []) as Hf.
  destruct (foldl _ _ _) as [info|e].
  - split; [done|]. destruct Hf as [?|Hf]; [by left|]. right.
    rewrite sort_by_key_perm in Hf.
    apply Forall_forall. intros gi Hgi.
    assert (rank_of gi ∈ rank_of <$> kwargs) as Hr
      by (apply list_elem_of_fmap; by exists gi).
    rewrite <- Hranks in Hr. apply list_elem_of_fmap in Hr as (x & -> & Hx).
    rewrite Forall_forall in Hf. by apply Hf.
  - destruct Hf as (-> & Hfw & Hex). right. split; [done|]. split; [done|].
    split; [done|]. rewrite sort_by_key_perm in Hex.
    apply Exists_exists in Hex as (x & Hx & Hm).
    assert (x.1.1 ∈ (fun x : Z * string * option E => x.1.1) <$> cs) as Hr
      by (apply list_elem_of_fmap; by exists x).
    rewrite Hranks in Hr. apply list_elem_of_fmap in Hr as (gi & Hgi & Hin).
    apply Exists_exists. exists gi. split; [done|]. congruence.
Qed.

End RecvOutcome.

End CommPlanFacts.

(** ** runtime.py: step arguments in [collect_kwargs] *)

Module RecvBuffersFacts.
Import RecvBuffers.

Section StepArgs.
Context {T : Type}.

(** The values a plan receives. *)
Definition received (phs : list (Placeholder nat)) : list (Placeholder nat) :=
  filter (fun ph => is_recev ph = true) phs.

Lemma collect_list_step_args (chunk_kwargs : gmap string nat) phs comp
    (h : list T) kw h' :
  collect_list chunk_kwargs phs comp h = Ok (kw, h') ->
  NoDup (input_name <$> phs) ->
  length h' = length h + length (received phs) /\
  (forall l, l < length h -> h' !! l = h !! l) /\
  (forall name, name ∉ input_name <$> phs -> kw !! name = comp !! name) /\
  (forall name, StageKwargPlaceholder name ∈ phs ->
                exists t, chunk_kwargs !! name = Some t /\ kw !! name = Some t).
Proof.
  revert comp h. induction phs as [|ph phs IH]; intros comp h Hc Hnd.
  { inv Hc. cbn. split; [lia|]. repeat split; try done. intros ? Hin. by inv Hin. }
  rewrite fmap_cons in Hnd. apply NoDup_cons in Hnd as [Hfresh Hnd].
  unfold received. rewrite filter_cons.
  destruct ph as [name|name src buf]; cbn [collect_list is_recev] in Hc |- *.
  - apply bind_Ok_inv in Hc as (t & Ht & Hc).
    destruct (IH _ _ Hc Hnd) as (Hlen & Hext & Hout & Hin).
    rewrite decide_False by done.
    split; [done|]. split; [done|]. split.
    + intros n Hn. rewrite fmap_cons in Hn. apply not_elem_of_cons in Hn as [Hne Hn].
      rewrite (Hout n Hn). by rewrite lookup_insert_ne.
    + intros n [[= ->]|Hm]%elem_of_cons; [|by apply Hin].
      exists t. cbn [input_name] in Hfresh.
      rewrite (Hout _ Hfresh), lookup_insert_eq. split; [|done].
      unfold getitem in Ht. by destruct (chunk_kwargs !! name); inv Ht.
  - apply bind_Ok_inv in Hc as ([l h1] & Hcl & Hc). cbn [fst snd] in Hc.
    unfold clone in Hcl. destruct (h !! buf) as [v|] eqn:Hv; [|discriminate].
    injection Hcl as <- <-.
    destruct (IH _ _ Hc Hnd) as (Hlen & Hext & Hout & Hin).
    rewrite length_app in Hlen, Hext. cbn [length] in Hlen, Hext.
    rewrite decide_True by done. cbn [length].
    split; [unfold received in Hlen; lia|]. split; [|split].
    + intros l Hl. rewrite Hext by lia. by rewrite lookup_app_l.
    + intros n Hn. rewrite fmap_cons in Hn. apply not_elem_of_cons in Hn as [Hne Hn].
      rewrite (Hout n Hn). by rewrite lookup_insert_ne.
    + intros n [[=]|Hm]%elem_of_cons. by apply Hin.
Qed.

(** X28: [collect_kwargs] passes a step argument as the very tensor of the
    chunk's kwargs, not a copy; it makes one new tensor for each value
    the plan receives and none else, and leaves every tensor that existed
    at the call as it was. *)
Theorem collect_kwargs_step_args (recv_info : list (Z * list (Placeholder nat)))
    (chunk_kwargs : gmap string nat) (h h' : list T) (kw : gmap string nat)
    (name : string) :
  collect_kwargs recv_info chunk_kwargs h = Ok (kw, h') ->
  NoDup (input_name <$> placeholders recv_info) ->
  StageKwargPlaceholder name ∈ placeholders recv_info ->
  (exists t, chunk_kwargs !! name = Some t /\ kw !! name = Some t) /\
  length h' = length h + length (received (placeholders recv_info)) /\
  (forall l, l < length h -> h' !! l = h !! l).
Proof.
  unfold collect_kwargs. rewrite collect_info_flat. intros Hc Hnd Hin.
  destruct (collect_list_step_args _ _ _ _ _ _ Hc Hnd) as (Hlen & Hext & _ & Hst).
  split; [by apply Hst|]. by split.
Qed.

End StepArgs.

Lemma collect_kwargs_step_args_witness :
  collect_kwargs ex_plan {["x" := 0]} [10%Z; 20%Z]
  = Ok ({["x" := 0; "act" := 2]}, [10%Z; 20%Z; 20%Z]) /\
  (exists t, ({["x" := 0]} : gmap string nat) !! "x" = Some t /\
             ({["x" := 0; "act" := 2]} : gmap string nat) !! "x" = Some t) /\
  length [10%Z; 20%Z; 20%Z] = 2 + length (received (placeholders ex_plan)).
Proof.
  split; [vm_compute; reflexivity|].
  destruct (collect_kwargs_step_args ex_plan {["x" := 0]} [10%Z; 20%Z]
              [10%Z; 20%Z; 20%Z] {["x" := 0; "act" := 2]} "x")
    as (Ht & Hlen & _); [vm_compute; reflexivity| | |by split].
  - apply (bool_decide_unpack _). vm_compute. exact I.
  - vm_compute. left.
Defined.

End RecvBuffersFacts.

(** ** runtime.py: a schedule on a stage that was not reset *)

Module StageCursor.
Import PipelineStage.

Section Cursor.
Context {T Net : Type}.
Context (torch_add : T -> T -> T).
Context (batch_isend_irecv : list (P2POp T) -> Net -> list nat * Net).
Context (work_wait : nat -> Net -> Net).
Context (buffer_value : Net -> nat -> T).
Context (get_global_rank : Z -> Z).
Context (compiled_stage : CompiledStage T).
Context (cfg : Config).

#[local] Instance cursor_runtime : Schedule.RuntimeMixin (StageM T Net) nat :=
  stage_runtime torch_add batch_isend_irecv work_wait buffer_value
                get_global_rank compiled_stage cfg.
#[local] Instance cursor_wait : Schedule.Waitable (StageM T Net) nat :=
  stage_wait work_wait.

Lemma stage_bind_Raise {A B} (m : StageM T Net A) (k : A -> StageM T Net B) st e :
  m st = Raise e -> (m ≫= k) st = Raise e.
Proof. unfold mbind, StageM_bind. by intros ->. Qed.

Lemma forward_compute_past_end (st : State T Net) :
  length (kwargs_chunks st) <= cur_fw_chunk_id st ->
  forward_compute_one_chunk buffer_value compiled_stage cfg st = Raise IndexError.
Proof.
  intros Hlen. unfold forward_compute_one_chunk, collect_kwargs, index.
  by rewrite (lookup_ge_None_2 _ _ Hlen).
Qed.

Lemma forward_one_chunk_past_end reqs (st : State T Net) :
  length (kwargs_chunks st) <= cur_fw_chunk_id st ->
  Schedule.forward_one_chunk reqs st = Raise IndexError.
Proof.
  intros Hlen. unfold Schedule.forward_one_chunk.
  destruct (forward_recv_ok batch_isend_irecv work_wait cfg true st)
    as (rs & n' & Hrecv).
  rewrite (stage_bind_Ok _ _ _ _ _ Hrecv).
  apply stage_bind_Raise. by apply forward_compute_past_end.
Qed.

Lemma forward_loop_past_end (a b : Z) reqs (st : State T Net) :
  (a < b)%Z ->
  length (kwargs_chunks st) <= cur_fw_chunk_id st ->
  Schedule.for_each (Schedule.range a b) (fun _ => Schedule.forward_one_chunk)
    reqs st = Raise IndexError.
Proof.
  intros Hab Hlen.
  destruct (Schedule.range a b) as [|i l] eqn:Hr.
  { apply (f_equal length) in Hr. rewrite Schedule.range_length in Hr. cbn in Hr. lia. }
  cbn [Schedule.for_each]. apply stage_bind_Raise.
  by apply forward_one_chunk_past_end.
Qed.

(** X29: a schedule started on a stage whose forward cursor is at or past
    the end of [kwargs_chunks], as a finished step leaves it when the
    stage is not reset, raises [IndexError] at its first forward compute:
    GPipe with at least one chunk, and 1F1B with at least one warm-up
    chunk. *)
Theorem schedule_needs_reset (st : State T Net) :
  length (kwargs_chunks st) <= cur_fw_chunk_id st ->
  ((0 < num_chunks cfg)%Z ->
   gpipe torch_add batch_isend_irecv work_wait buffer_value get_global_rank
         compiled_stage cfg st = Raise IndexError) /\
  (forall num_warmup, (0 < num_warmup)%Z ->
   dapple torch_add batch_isend_irecv work_wait buffer_value get_global_rank
          compiled_stage cfg num_warmup st = Raise IndexError).
Proof.
  intros Hlen. split.
  - intros Hn. unfold gpipe, Schedule.ScheduleGPipe.
    apply stage_bind_Raise. by apply forward_loop_past_end.
  - intros num_warmup Hw. unfold dapple, Schedule.ScheduleDAPPLE, Schedule.dapple_warmup.
    apply stage_bind_Raise. by apply forward_loop_past_end.
Qed.

End Cursor.

Lemma schedule_needs_reset_witness :
  exists st',
    demo_gpipe [5%Z; 7%Z] false false true = Ok (tt, st') /\
    gpipe Z.add (fun _ n => ([], n)) (fun _ n => n) (fun _ _ => 0%Z) id demo_stage
          (demo_cfg 2 false false true) st' = Raise IndexError.
Proof.
  eexists. split; [vm_compute; reflexivity|].
  refine (proj1 (schedule_needs_reset Z.add (fun _ n => ([], n)) (fun _ n => n)
                   (fun _ _ => 0%Z) id demo_stage (demo_cfg 2 false false true) _ _) _).
  - simpl. lia.
  - simpl. lia.
Defined.

End StageCursor.

(** ** runtime.py: the order of the plans and the agreement of the two sides *)

Module CommPlanOrder.
Import CommPlan CommPlanFacts.

(** [a] comes before [b] in [l]. *)
Definition precedes {A} (l : list A) (a b : A) : Prop :=
  exists i j, i < j /\ l !! i = Some a /\ l !! j = Some b.

Lemma sorted_precedes {A} (R : relation A) l a b :
  StronglySorted R l -> precedes l a b -> R a b.
Proof.
  intros Hs (i & j & Hij & Hi & Hj).
  revert i j Hij Hi Hj. induction Hs as [|x l Hs IH Hx]; intros i j Hij Hi Hj; [done|].
  destruct j as [|j]; [lia|]. cbn in Hj. destruct i as [|i].
  - cbn in Hi. injection Hi as ->. rewrite Forall_forall in Hx.
    apply Hx. by eapply list_elem_of_lookup_2.
  - cbn in Hi. apply (IH i j); [lia|done|done].
Qed.

Lemma precedes_total {A} (l : list A) a b :
  a ∈ l -> b ∈ l -> a <> b -> precedes l a b \/ precedes l b a.
Proof.
  intros [i Hi]%list_elem_of_lookup [j Hj]%list_elem_of_lookup Hne.
  destruct (Nat.lt_trichotomy i j) as [?|[->|?]].
  - left. by exists i, j.
  - congruence.
  - right. by exists j, i.
Qed.

Lemma StronglySorted_with {A} (R : relation A) (P : A -> Prop) l :
  StronglySorted R l -> Forall P l ->
  StronglySorted (fun x y => R x y /\ P x /\ P y) l.
Proof.
  induction 1 as [|x l Hs IH Hx]; intros HP; [constructor|].
  apply Forall_cons in HP as [Px HP]. constructor; [by apply IH|].
  rewrite Forall_forall in Hx, HP |- *. intros y Hy. split; [by apply Hx|].
  split; [done|by apply HP].
Qed.

Section Recv.
Context {E : Type} (get_global_rank : Z -> Z).

(** The key and the placeholder a candidate goes under in the plan. *)
Definition plan_key (x : Z * string * option E) : Z :=
  if (x.1.1 =? -1)%Z then 0%Z else x.1.1.

Definition plan_entry (x : Z * string * option E) : Placeholder (option E) :=
  if (x.1.1 =? -1)%Z then StageKwargPlaceholder x.1.2
  else RecevPlaceholder x.1.2 x.1.1 x.2.

Lemma recv_fold_appends is_forward (l : list (Z * string * option E)) d info :
  foldl (recv_step is_forward) (Ok d) l = Ok info ->
  info = foldl (fun info x => dd_append info (plan_key x) (plan_entry x)) d l /\
  (is_forward = false -> Forall (fun x => x.1.1 <> (-1)%Z) l).
Proof.
  revert d. induction l as [|x l IH]; intros d H; cbn [foldl] in H |- *.
  { injection H as <-. by split. }
  rewrite recv_step_Ok in H. unfold plan_key, plan_entry.
  destruct (Z.eqb_spec x.1.1 (-1)) as [Hx|Hx].
  - destruct is_forward; [|by rewrite foldl_recv_step_raise in H].
    destruct (IH _ H) as [-> _]. by split.
  - destruct (IH _ H) as [-> Hall]. split; [done|].
    intros Hf. constructor; [done|by apply Hall].
Qed.

Lemma recv_info_keys_sorted (node_metas : gmap string E) kwargs is_forward info :
  _create_recv_info get_global_rank node_metas kwargs is_forward = Ok info ->
  StronglySorted (rank_before is_forward) info.*1.
Proof.
  unfold _create_recv_info. intros H.
  apply bind_Ok_inv in H as (cs & _ & H).
  apply recv_fold_appends in H as [-> Hno].
  set (R := fun a b : Z => if is_forward then (a <= b)%Z else (b <= a)%Z).
  destruct (dd_keys_sorted R plan_key plan_entry
              (sort_by_key (recv_key is_forward) cs) []) as [Hs _].
  - constructor.
  - eapply StronglySorted_fmap;
      [|apply (StronglySorted_with
                 (fun x y : Z * string * option E => plan_order is_forward x.1 y.1)
                 (fun x => is_forward = false -> x.1.1 <> (-1)%Z));
        [apply (recv_candidates_sorted is_forward cs)|]].
    + intros x y (Hxy & Hx & Hy). unfold plan_order in Hxy. unfold R, plan_key.
      destruct is_forward.
      * destruct (Z.eqb_spec x.1.1 (-1)), (Z.eqb_spec y.1.1 (-1)); cbn in Hxy; lia.
      * specialize (Hx eq_refl). specialize (Hy eq_refl).
        destruct (Z.eqb_spec x.1.1 (-1)), (Z.eqb_spec y.1.1 (-1)); cbn in Hxy; lia.
    + destruct is_forward; [by apply Forall_forall|].
      eapply Forall_impl; [by apply Hno|]. by intros x Hx _.
  - constructor.
  - eapply StronglySorted_weaken; [|exact Hs].
    intros a b. unfold R, rank_before. destruct is_forward; lia.
Qed.
Lemma dd_get_absent {V} (d : list (Z * list V)) k : k ∉ d.*1 -> dd_get d k = [].
Proof.
  induction d as [|[k' vs] d IH]; intros Hk; cbn; [done|].
  rewrite fmap_cons in Hk. apply not_elem_of_cons in Hk as [Hne Hk]. cbn in Hne.
  destruct (Z.eqb_spec k k'); [done|by apply IH].
Qed.

Lemma recv_info_no_sentinel (node_metas : gmap string E) kwargs is_forward info :
  _create_recv_info get_global_rank node_metas kwargs is_forward = Ok info ->
  dd_get info (-1)%Z = [].
Proof.
  unfold _create_recv_info. intros H.
  apply bind_Ok_inv in H as (cs & _ & H).
  apply recv_fold_appends in H as [-> _].
  apply dd_get_absent.
  destruct (dd_keys_sorted (fun _ _ : Z => True) plan_key plan_entry
              (sort_by_key (recv_key is_forward) cs) []) as [_ Hk].
  - constructor.
  - generalize (plan_key <$> sort_by_key (recv_key is_forward) cs).
    intros l. induction l; constructor; [done|by apply Forall_forall].
  - constructor.
  - rewrite Hk. intros [[]%elem_of_nil|(x & Hx & _)%list_elem_of_fmap].
    unfold plan_key in Hx. destruct (Z.eqb_spec x.1.1 (-1)); lia.
Qed.

Lemma recv_info_sorted_all (node_metas : gmap string E) kwargs is_forward info g :
  _create_recv_info get_global_rank node_metas kwargs is_forward = Ok info ->
  StronglySorted str_le (recv_names (dd_get info g)).
Proof.
  intros Hinfo. destruct (decide (g = (-1)%Z)) as [->|Hg].
  - rewrite (recv_info_no_sentinel _ _ _ _ Hinfo). constructor.
  - by eapply recv_info_sorted.
Qed.
End Recv.

Lemma send_info_keys_sorted users is_forward :
  StronglySorted (rank_before is_forward) (_create_send_info users is_forward).*1.
Proof.
  unfold _create_send_info.
  set (R := fun a b : Z => if is_forward then (a <= b)%Z else (b <= a)%Z).
  destruct (dd_keys_sorted (V := string) R fst snd
              (sort_by_key (send_key is_forward) (send_candidates users)) [])
    as [Hs _].
  - constructor.
  - eapply StronglySorted_fmap; [|apply (send_candidates_sorted users is_forward)].
    intros x y. unfold plan_order, R. destruct is_forward; lia.
  - constructor.
  - eapply StronglySorted_weaken; [|exact Hs].
    intros a b. unfold R, rank_before. destruct is_forward; lia.
Qed.

(** C1: the plans the builders return are ordered, on both sides and in
    both directions, by the sort of their candidates: the peers of a plan
    are each there once, lower rank first for a forward node and higher
    rank first for a backward node, and the names under each peer are in
    ascending alphabetical order, being the names the stage sends to
    (expects from) that peer.  So two values that a stage sends to a peer and that
    the peer expects from it come in the same relative order on both
    sides; and when what is sent to [d] is what [d] expects from [g],
    the two per-peer lists are the same list. *)
Theorem plans_ordered_and_agree {E} (get_global_rank : Z -> Z)
    (is_forward : bool) (users : list getitem_user)
    (node_metas : gmap string E) (kwargs : list gi_input)
    (info : list (Z * list (Placeholder (option E)))) :
  _create_recv_info get_global_rank node_metas kwargs is_forward = Ok info ->
  let send_info := _create_send_info users is_forward in
  StronglySorted (rank_before is_forward) send_info.*1 /\
  StronglySorted (rank_before is_forward) info.*1 /\
  (forall d, StronglySorted str_le (dd_get send_info d) /\
             dd_get send_info d ≡ₚ send_names_to users d) /\
  (forall g, StronglySorted str_le (recv_names (dd_get info g)) /\
             (g <> (-1)%Z ->
              recv_names (dd_get info g) ≡ₚ recv_names_from get_global_rank kwargs g)) /\
  (forall d g a b,
     a <> b -> precedes (dd_get send_info d) a b ->
     a ∈ recv_names (dd_get info g) -> b ∈ recv_names (dd_get info g) ->
     precedes (recv_names (dd_get info g)) a b) /\
  (forall d g,
     g <> (-1)%Z ->
     send_names_to users d ≡ₚ recv_names_from get_global_rank kwargs g ->
     dd_get send_info d = recv_names (dd_get info g)).
Proof.
  intros Hinfo send_info.
  assert (forall g, StronglySorted str_le (recv_names (dd_get info g))) as Hrs.
  { intros g. exact (recv_info_sorted_all get_global_rank node_metas kwargs
                       is_forward info g Hinfo). }
  assert (forall g, g <> (-1)%Z ->
            recv_names (dd_get info g) ≡ₚ recv_names_from get_global_rank kwargs g)
    as Hrp.
  { intros g Hg. exact (recv_info_perm get_global_rank node_metas kwargs
                          is_forward info g Hinfo Hg). }
  split; [apply send_info_keys_sorted|].
  split; [exact (recv_info_keys_sorted get_global_rank node_metas kwargs
                  is_forward info Hinfo)|].
  split; [intros d; split; [apply send_info_sorted|apply send_info_perm]|].
  split; [intros g; split; [apply Hrs|apply Hrp]|].
  split.
  - intros d g a b Hne Hsend Ha Hb.
    destruct (precedes_total _ a b Ha Hb Hne) as [?|Hrev]; [done|]. exfalso.
    apply Hne. apply (anti_symm str_le).
    + eapply sorted_precedes; [apply (send_info_sorted users is_forward d)|done].
    + eapply sorted_precedes; [apply (Hrs g)|done].
  - intros d g Hg Hperm. apply (StronglySorted_unique str_le).
    + apply send_info_sorted.
    + apply Hrs.
    + unfold send_info. rewrite send_info_perm, Hperm. symmetry. by apply Hrp.
Qed.

(** The backward plans of a stage whose outputs ["b"] and ["a"] go to
    the stages 1 and 2: higher rank first. *)
Lemma plans_ordered_and_agree_witness :
  exists info,
    _create_recv_info id ex_metas
      [ {| op_placeholder := false; name := "b"; src_stage := 1 |};
        {| op_placeholder := false; name := "a"; src_stage := 2 |} ] false = Ok info /\
    info.*1 = [2%Z; 1%Z] /\
    (_create_send_info ex_users false).*1 = [2%Z; 1%Z] /\
    StronglySorted (rank_before false) info.*1 /\
    dd_get (_create_send_info ex_users false) 1 = ["a"; "b"].
Proof.
  eexists. split; [vm_compute; reflexivity|].
  split; [vm_compute; reflexivity|]. split; [vm_compute; reflexivity|].
  split; [|vm_compute; reflexivity].
  refine (proj1 (proj2 (plans_ordered_and_agree id false ex_users ex_metas
                          [ {| op_placeholder := false; name := "b"; src_stage := 1 |};
                            {| op_placeholder := false; name := "a"; src_stage := 2 |} ]
                          _ _))).
  vm_compute; reflexivity.
Defined.

End CommPlanOrder.

(** ** runtime.py: the reduced accumulators at the end of a step *)

Module StepEnd.
Import PipelineStage.

Section Cleared.
Context {T Net : Type}.
Context (torch_add : T -> T -> T).
Context (batch_isend_irecv : list (P2POp T) -> Net -> list nat * Net).
Context (work_wait : nat -> Net -> Net).
Context (buffer_value : Net -> nat -> T).
Context (get_global_rank : Z -> Z).
Context (split_args_kwargs_into_chunks : gmap string T -> Z -> list (gmap string T)).
Context (merge_chunks : list (gmap string (option T)) -> gmap string (option T)).
Context (all_gather_object :
           gmap string (option T) -> Net -> list (gmap string (option T)) * Net).
Context (compiled_stage : CompiledStage T).
Context (cfg : Config).

(** Modelled from the spec: [compiled_stage.step] is code of the
    repository that is not under src/.  The spec has the reduced
    accumulators "cleared at the end of every step"; runtime.py clears
    [output_grads_reduced] itself, never clears [step_grads_reduced], hands
    it to the step callable and asserts it empty at the start of the next
    step.  So the step callable is the one that clears it: it leaves the
    dictionary of gradients it is given empty. *)
Definition step_callable_drains : Prop :=
  forall params grads, (step_fn compiled_stage params grads).2 = ∅.

(** Modelled from the spec: [compiled_stage.backward] is code of the
    repository that is not under src/.  The saved step gradients are, in
    the spec's words, "produced by step-related computation": on a stage
    without a step segment the backward callable produces none, and
    leaves an empty store of step gradients empty. *)
Definition backward_without_step_grads : Prop :=
  forall tensors ograds kwargs,
    (backward compiled_stage tensors ∅ ograds kwargs).1.1.2 = ∅.

Definition callables_clear_step_grads : Prop :=
  if step_node cfg then step_callable_drains else backward_without_step_grads.

(** In in-place mode the reduced step gradients are a dictionary of
    their own, as [_init_runtime_states] makes them. *)
Definition own_step_accumulator (st : State T Net) : Prop :=
  accumulate_grads_inplace cfg = true ->
  exists d, step_grads_reduced st = Some (OwnDict d).

(** On a stage without a step node: no step gradient anywhere. *)
Definition no_step_grads (st : State T Net) : Prop :=
  step_node cfg = false ->
  all_empty (saved_grads_step_chunks st) = true /\
  (accumulate_grads_inplace cfg = true ->
   step_grads_reduced st = Some (OwnDict ∅)).

(** The reduced step gradients read as the empty dictionary. *)
Definition step_cleared (st : State T Net) : Prop :=
  deref (saved_grads_step_chunks st) (step_grads_reduced st) = Ok ∅.

#[local] Instance end_runtime : Schedule.RuntimeMixin (StageM T Net) nat :=
  stage_runtime torch_add batch_isend_irecv work_wait buffer_value
                get_global_rank compiled_stage cfg.
#[local] Instance end_wait : Schedule.Waitable (StageM T Net) nat :=
  stage_wait work_wait.

(** An action started with [P] ends with [Q]. *)
Definition leads {A} (P Q : State T Net -> Prop) (m : StageM T Net A) : Prop :=
  forall st a st', P st -> m st = Ok (a, st') -> Q st'.

Lemma leads_bind {A B} P Q (m : StageM T Net A) (k : A -> StageM T Net B) :
  keeps P m -> (forall a, leads P Q (k a)) -> leads P Q (m ≫= k).
Proof.
  intros Hm Hk st b st' HP H.
  apply stage_bind_Ok_inv in H as (a & st1 & Hma & Hka).
  eapply Hk; [|exact Hka]. by eapply Hm.
Qed.

Lemma all_empty_insert {V} (chunks : list (gmap string V)) i :
  all_empty chunks = true -> all_empty (<[i := ∅]> chunks) = true.
Proof.
  rewrite !all_empty_Forall. intros H. apply Forall_insert; done.
Qed.

Lemma all_empty_index {V} (chunks : list (gmap string V)) i chunk :
  all_empty chunks = true -> index chunks i = Ok chunk -> chunk = ∅.
Proof.
  rewrite all_empty_Forall, Forall_forall. intros H Hi. apply H.
  unfold index in Hi. destruct (chunks !! i) eqn:Hl; [|discriminate].
  injection Hi as <-. by eapply list_elem_of_lookup_2.
Qed.

Lemma keeps_none_forward_recv wait :
  keeps no_step_grads (forward_recv_one_chunk batch_isend_irecv work_wait cfg wait).
Proof.
  intros st a st' HP H. unfold forward_recv_one_chunk in H.
  destruct (post_all _ _ _) as [reqs n1]. by inv H.
Qed.

Lemma keeps_none_forward_compute :
  keeps no_step_grads (forward_compute_one_chunk buffer_value compiled_stage cfg).
Proof.
  intros st a st' HP H. unfold forward_compute_one_chunk in H.
  apply bind_Ok_inv in H as (kw & _ & H).
  apply bind_Ok_inv in H as (stb & _ & H).
  apply bind_Ok_inv in H as (rc & _ & H).
  destruct (forward _ _ _ _ _) as [[[? ?] ?] ?]. by inv H.
Qed.

Lemma keeps_none_forward_send :
  keeps no_step_grads (forward_send_one_chunk batch_isend_irecv get_global_rank cfg).
Proof.
  intros st a st' HP H. unfold forward_send_one_chunk in H.
  apply bind_Ok_inv in H as (ops & _ & H).
  destruct (post_all _ _ _) as [reqs n1]. by inv H.
Qed.

Lemma keeps_none_backward_recv wait :
  keeps no_step_grads (backward_recv_one_chunk batch_isend_irecv work_wait cfg wait).
Proof.
  intros st a st' HP H. unfold backward_recv_one_chunk in H.
  apply bind_Ok_inv in H as (info & _ & H).
  destruct (post_all _ _ _) as [reqs n1]. by inv H.
Qed.

Lemma keeps_none_backward_send :
  keeps no_step_grads (backward_send_one_chunk batch_isend_irecv get_global_rank cfg).
Proof.
  intros st a st' HP H. unfold backward_send_one_chunk in H.
  apply bind_Ok_inv in H as (info & _ & H).
  apply bind_Ok_inv in H as (ops & _ & H).
  destruct (post_all _ _ _) as [reqs n1]. by inv H.
Qed.

Lemma keeps_none_wait req :
  keeps no_step_grads (stage_wait work_wait req).
Proof. intros st a st' HP H. by inv H. Qed.

Lemma accumulate_into_empty chunks cur res :
  all_empty chunks = true ->
  accumulate_into torch_add chunks (Some (OwnDict ∅)) cur = Ok res ->
  all_empty res.1 = true /\ res.2 = Some (OwnDict ∅).
Proof.
  intros He H. unfold accumulate_into in H.
  apply bind_Ok_inv in H as (chunk & Hc & H).
  apply (all_empty_index _ _ _ He) in Hc as ->.
  rewrite map_size_empty in H. cbn in H. injection H as <-. cbn.
  split; [by apply all_empty_insert|done].
Qed.

Lemma keeps_none_backward_compute :
  callables_clear_step_grads ->
  keeps no_step_grads
        (backward_compute_one_chunk torch_add buffer_value compiled_stage cfg).
Proof.
  intros Hcall st a st' HP H Hns. destruct (HP Hns) as [Hempty Hacc].
  unfold callables_clear_step_grads in Hcall. rewrite Hns in Hcall.
  unfold backward_compute_one_chunk in H.
  apply bind_Ok_inv in H as (info & _ & H).
  apply bind_Ok_inv in H as (kw & _ & H).
  apply bind_Ok_inv in H as (stb & _ & H).
  apply bind_Ok_inv in H as (sg & Hsg & H).
  apply bind_Ok_inv in H as (og & _ & H).
  apply (all_empty_index _ _ _ Hempty) in Hsg as ->.
  pose proof (Hcall stb og kw) as Hb.
  destruct (backward compiled_stage stb ∅ og kw) as [[[t' g'] o'] out].
  cbn in Hb. subst g'.
  apply bind_Ok_inv in H as (st2 & Hst2 & H). injection H as H. subst st'.
  destruct (accumulate_grads_inplace cfg) eqn:Hip.
  - apply bind_Ok_inv in Hst2 as (sgr & Hsgr & Hst2).
    apply bind_Ok_inv in Hst2 as (ogr & _ & Hst2). injection Hst2 as Hst2.
    subst st2. cbn in Hsgr |- *. rewrite (Hacc eq_refl) in Hsgr.
    apply accumulate_into_empty in Hsgr as [? ?]; [|by apply all_empty_insert].
    split; [done|by intros _].
  - injection Hst2 as Hst2. subst st2. cbn.
    split; [by apply all_empty_insert|done].
Qed.

Lemma keeps_none_forward_one_chunk reqs :
  keeps no_step_grads (Schedule.forward_one_chunk reqs).
Proof.
  unfold Schedule.forward_one_chunk.
  apply keeps_bind; [apply keeps_none_forward_recv|intros _].
  apply keeps_bind; [apply keeps_none_forward_compute|intros _].
  apply keeps_bind; [apply keeps_none_forward_send|intros ?].
  apply keeps_ret.
Qed.

Lemma keeps_none_backward_one_chunk reqs :
  callables_clear_step_grads ->
  keeps no_step_grads (Schedule.backward_one_chunk reqs).
Proof.
  intros Hcall. unfold Schedule.backward_one_chunk.
  apply keeps_bind; [apply keeps_none_backward_recv|intros _].
  apply keeps_bind; [by apply keeps_none_backward_compute|intros _].
  apply keeps_bind; [apply keeps_none_backward_send|intros ?].
  apply keeps_ret.
Qed.

Lemma keeps_none_wait_all reqs :
  keeps no_step_grads (Schedule.wait_all reqs).
Proof.
  unfold Schedule.wait_all. apply keeps_for_each.
  intros req _. apply keeps_none_wait.
Qed.

Lemma keeps_none_one_f_one_b reqs :
  callables_clear_step_grads ->
  keeps no_step_grads (Schedule.one_f_one_b reqs).
Proof.
  intros Hcall. unfold Schedule.one_f_one_b.
  apply keeps_bind; [apply keeps_none_backward_recv|intros _].
  apply keeps_bind; [apply keeps_none_forward_recv|intros ?].
  apply keeps_bind; [by apply keeps_none_backward_compute|intros _].
  apply keeps_bind; [apply keeps_none_backward_send|intros ?].
  apply keeps_bind; [apply keeps_none_wait_all|intros _].
  apply keeps_bind; [apply keeps_none_forward_compute|intros _].
  apply keeps_bind; [apply keeps_none_forward_send|intros ?].
  apply keeps_ret.
Qed.

Lemma merge_without_step (st st1 : State T Net) :
  step_node cfg = false -> no_step_grads st ->
  merge_and_assign_chunked_grads torch_add cfg st = Ok (tt, st1) ->
  step_cleared st1.
Proof.
  intros Hns HP H. destruct (HP Hns) as [Hempty Hacc].
  unfold merge_and_assign_chunked_grads in H. rewrite Hns in H.
  apply bind_Ok_inv in H as (sa & Ha & H).
  apply bind_Ok_inv in H as (sb & Hb & H).
  apply bind_Ok_inv in H as (r & Hr & H).
  assert (step_cleared sa) as Hsa.
  { unfold step_cleared. destruct (accumulate_grads_inplace cfg).
    - injection Ha as <-. by rewrite (Hacc eq_refl).
    - apply bind_Ok_inv in Ha as (sr & Hsr & Ha).
      apply bind_Ok_inv in Ha as (or & _ & Ha). injection Ha as <-. cbn.
      destruct (reduce_chunks_all_empty torch_add (saved_grads_step_chunks st) Hempty)
        as (r0 & Hr0 & Hd).
      { destruct (saved_grads_step_chunks st); [discriminate|cbn; lia]. }
      rewrite Hsr in Hr0. by injection Hr0 as ->. }
  apply bind_Ok_inv in Hb as (red & _ & Hb).
  apply bind_Ok_inv in Hb as (grads & _ & Hb). injection Hb as <-.
  destruct (store _ r ∅) as [chunks r']. injection H as <-. exact Hsa.
Qed.

Lemma leads_finish reqs :
  callables_clear_step_grads ->
  leads no_step_grads step_cleared (Schedule.finish (step_node cfg) reqs).
Proof.
  intros Hcall. unfold Schedule.finish.
  apply leads_bind; [apply keeps_none_wait_all|intros _].
  intros st a st' HP H.
  apply stage_bind_Ok_inv in H as ([] & st1 & Hm & H).
  change (@Schedule.merge_and_assign_chunked_grads _ _ end_runtime)
    with (merge_and_assign_chunked_grads (Net := Net) torch_add cfg) in Hm.
  unfold callables_clear_step_grads in Hcall.
  destruct (step_node cfg) eqn:Hsn.
  - destruct a.
    change (@Schedule.step _ _ end_runtime) with (step (Net := Net) compiled_stage) in H.
    apply step_spec in H as (_ & _ & sg & _ & Hd).
    unfold step_cleared. rewrite Hd. by rewrite Hcall.
  - assert (st' = st1) as -> by (unfold mret, StageM_ret in H; congruence).
    exact (merge_without_step st st1 Hsn HP Hm).
Qed.

Lemma leads_gpipe :
  callables_clear_step_grads ->
  leads no_step_grads step_cleared
        (Schedule.ScheduleGPipe (num_chunks cfg) (bw_node cfg) (step_node cfg)).
Proof.
  intros Hcall. unfold Schedule.ScheduleGPipe.
  apply leads_bind.
  { apply keeps_for_each. intros _ reqs. apply keeps_none_forward_one_chunk. }
  intros reqs. apply leads_bind; [|intros ?; by apply leads_finish].
  destruct (bw_node cfg); [|apply keeps_ret].
  apply keeps_for_each. intros _ ?. by apply keeps_none_backward_one_chunk.
Qed.

Lemma leads_dapple num_warmup :
  callables_clear_step_grads ->
  leads no_step_grads step_cleared
        (Schedule.ScheduleDAPPLE num_warmup (num_chunks cfg) (step_node cfg)).
Proof.
  intros Hcall.
  unfold Schedule.ScheduleDAPPLE, Schedule.dapple_warmup, Schedule.dapple_1f1b,
    Schedule.dapple_cooldown.
  apply leads_bind.
  { apply keeps_for_each. intros _ reqs. apply keeps_none_forward_one_chunk. }
  intros reqs. apply leads_bind.
  { apply keeps_for_each. intros _ ?. by apply keeps_none_one_f_one_b. }
  intros reqs'. apply leads_bind; [|intros ?; by apply leads_finish].
  apply keeps_for_each. intros _ ?. by apply keeps_none_backward_one_chunk.
Qed.

Lemma reset_step_accumulator_empty (st : State T Net) x d :
  reset_and_check_runtime_states cfg st = Ok x ->
  accumulate_grads_inplace cfg = true ->
  step_grads_reduced st = Some (OwnDict d) -> d = ∅.
Proof.
  intros H Hip Hd. unfold reset_and_check_runtime_states in H.
  repeat match type of H with
         | context [check_single ?l] => destruct (check_single l); [|discriminate]
         end.
  cbn in H. rewrite Hip in H.
  apply bind_Ok_inv in H as (og & _ & H).
  apply bind_Ok_inv in H as (? & _ & H).
  apply bind_Ok_inv in H as (sg & Hsg & H).
  apply bind_Ok_inv in H as (? & Hsz & _).
  cbn in Hsg. rewrite Hd in Hsg. injection Hsg as ->.
  destruct (size sg =? 0)%nat eqn:Hz; [|discriminate].
  by apply Nat.eqb_eq, map_size_empty_iff in Hz.
Qed.


End Cleared.

(** The one-stage pipeline with a step callable that updates the parameter
    and consumes the gradients it is given. *)
Definition draining_stage : CompiledStage Z :=
  {| forward := forward demo_stage;
     backward := backward demo_stage;
     step_fn := fun saved_params_step step_grads_reduced =>
       ((step_fn demo_stage saved_params_step step_grads_reduced).1, ∅) |}.

Definition draining_call (xs : list Z) (inplace : bool)
  : result (list Z * State Z unit) :=
  __call__ (fun _ _ => (fun x => {["x" := x]}) <$> xs)
           (fun chunks => default ∅ (head chunks))
           (fun returns n => ([returns], n))
           (demo_cfg (Z.of_nat (length xs)) true true inplace)
           (gpipe Z.add (fun _ n => ([], n)) (fun _ n => n) (fun _ _ => 0%Z) id
                  draining_stage (demo_cfg (Z.of_nat (length xs)) true true inplace))
           ∅ (demo_init xs inplace).


End StepEnd.

(** ** runtime.py: the in-place accumulation on tensor objects *)

Module GradAccum.

Section Store.
Context {T : Type} (torch_add : T -> T -> T).

(** Tensors are objects of a store, named by their position in it; a
    dictionary of gradients holds tensors, not their values. *)
Definition tensor (h : list T) (t : nat) : result T :=
  match h !! t with
  | Some v => Ok v
  | None => Raise RuntimeError
  end.

(** [acc.add_(grad)]: the sum is written into [acc] itself. *)
Definition add_ (h : list T) (acc grad : nat) : result (list T) :=
  a ← tensor h acc;
  g ← tensor h grad;
  mret (<[acc := torch_add a g]> h).

(** The loop of [backward_compute_one_chunk] under
    [accumulate_grads_inplace], over the items of the chunk in their
    order:
    [if grad_node in reduced: reduced[grad_node].add_(grad)
     else: reduced[grad_node] = grad]. *)
Fixpoint accumulate_inplace (items : list (string * nat))
    (reduced : gmap string nat) (h : list T)
  : result (gmap string nat * list T) :=
  match items with
  | [] => Ok (reduced, h)
  | (grad_node, grad) :: rest =>
      match reduced !! grad_node with
      | Some acc => h ← add_ h acc grad; accumulate_inplace rest reduced h
      | None => accumulate_inplace rest (<[grad_node := grad]> reduced) h
      end
  end.

(** The values of the tensors a dictionary holds. *)
Definition values (h : list T) (d : gmap string nat) : gmap string T :=
  omap (fun t => h !! t) d.

(** The accumulators of the chunk's keys are distinct tensors, none of
    them a gradient tensor of the chunk, and every tensor exists. *)
Record unshared (items : list (string * nat)) (reduced : gmap string nat)
    (h : list T) : Prop :=
  { distinct_accumulators :
      forall k1 k2 acc, k1 ∈ items.*1 -> k2 ∈ items.*1 ->
                        reduced !! k1 = Some acc -> reduced !! k2 = Some acc ->
                        k1 = k2;
    accumulators_apart :
      forall k acc, k ∈ items.*1 -> reduced !! k = Some acc -> acc ∉ items.*2;
    gradients_exist : forall g, g ∈ items.*2 -> g < length h;
    accumulators_exist :
      forall k acc, k ∈ items.*1 -> reduced !! k = Some acc -> acc < length h }.

Lemma elem_of_keys {A B} (l : list (A * B)) k g : (k, g) ∈ l -> k ∈ l.*1.
Proof. intros H. apply list_elem_of_fmap. by exists (k, g). Qed.

Lemma elem_of_vals {A B} (l : list (A * B)) k g : (k, g) ∈ l -> g ∈ l.*2.
Proof. intros H. apply list_elem_of_fmap. by exists (k, g). Qed.

Lemma accumulate_inplace_spec items reduced h :
  NoDup items.*1 -> unshared items reduced h ->
  exists reduced' h',
    accumulate_inplace items reduced h = Ok (reduced', h') /\
    length h' = length h /\
    (forall k, k ∉ items.*1 -> reduced' !! k = reduced !! k) /\
    (forall t, (forall k g, (k, g) ∈ items -> reduced !! k <> Some t) ->
               h' !! t = h !! t) /\
    (forall k g, (k, g) ∈ items ->
       match reduced !! k with
       | Some acc =>
           reduced' !! k = Some acc /\
           h' !! acc = (a ← h !! acc; x ← h !! g; Some (torch_add a x))
       | None => reduced' !! k = Some g /\ h' !! g = h !! g
       end).
Proof.
  revert reduced h. induction items as [|[k g] items IH]; intros reduced h Hnd Hun.
  { exists reduced, h. repeat split; try done. intros k g Hin. by inv Hin. }
  rewrite fmap_cons in Hnd. apply NoDup_cons in Hnd as [Hfresh Hnd]. cbn in Hfresh.
  destruct Hun as [Hdist Hapart Hgex Haex].
  assert (k ∈ ((k, g) :: items).*1) as Hkin by (by left).
  assert (g < length h) as Hg by (apply Hgex; by left).
  destruct (lookup_lt_is_Some_2 h g Hg) as [x Hx].
  cbn [accumulate_inplace]. destruct (reduced !! k) as [acc|] eqn:Hk.
  - assert (acc < length h) as Hacc by by eapply Haex.
    destruct (lookup_lt_is_Some_2 h acc Hacc) as [a Ha].
    unfold add_, tensor. rewrite Ha, Hx. cbn.
    destruct (IH reduced (<[acc := torch_add a x]> h) Hnd)
      as (reduced' & h' & Hrun & Hlen & Hout & Hframe & Hin).
    { split.
      - intros k1 k2 acc' H1 H2. apply Hdist; by right.
      - intros k' acc' Hk' Hr Hm. apply (Hapart k' acc'); [by right|done|by right].
      - intros g' Hg'. rewrite length_insert. apply Hgex. by right.
      - intros k' acc' Hk' Hr. rewrite length_insert. eapply Haex; [by right|done]. }
    rewrite length_insert in Hlen.
    exists reduced', h'. split; [done|]. split; [done|]. split; [|split].
    + intros k' Hk'. apply not_elem_of_cons in Hk' as [_ Hk']. by apply Hout.
    + intros t Ht. rewrite Hframe.
      * apply list_lookup_insert_ne. intros <-. apply (Ht k g); [by left|done].
      * intros k' g' Hin'. apply (Ht k' g'). by right.
    + intros k' g' [[= -> ->]|Hin']%elem_of_cons.
      * rewrite Hk. rewrite (Hout k Hfresh), Hk. split; [done|].
        rewrite Hframe.
        -- rewrite list_lookup_insert_eq by done. by rewrite Ha, Hx.
        -- intros k' g' Hin' Hk'. apply Hfresh.
           rewrite (Hdist k k' acc); [by eapply elem_of_keys|done| |done|done].
           right. by eapply elem_of_keys.
      * specialize (Hin k' g' Hin').
        assert (k' ∈ ((k, g) :: items).*1) as Hk'in
          by (right; by eapply elem_of_keys).
        assert (g' <> acc) as Hga.
        { intros ->. apply (Hapart k acc Hkin Hk). right. by eapply elem_of_vals. }
        destruct (reduced !! k') as [acc'|] eqn:Hk'.
        -- destruct Hin as [Hr Hv]. split; [done|]. rewrite Hv.
           assert (acc' <> acc) as Hne.
           { intros ->. apply Hfresh. rewrite (Hdist k k' acc); try done.
             by eapply elem_of_keys. }
           by rewrite !list_lookup_insert_ne by done.
        -- destruct Hin as [Hr Hv]. split; [done|]. rewrite Hv.
           by rewrite list_lookup_insert_ne by done.
  - assert (forall k', k' ∈ items.*1 -> <[k := g]> reduced !! k' = reduced !! k')
      as Hsame.
    { intros k' Hk'. apply lookup_insert_ne. by intros ->. }
    destruct (IH (<[k := g]> reduced) h Hnd)
      as (reduced' & h' & Hrun & Hlen & Hout & Hframe & Hin).
    { split.
      - intros k1 k2 acc H1 H2. rewrite !Hsame by done. apply Hdist; by right.
      - intros k' acc' Hk'. rewrite Hsame by done. intros Hr Hm.
        apply (Hapart k' acc'); [by right|done|by right].
      - intros g' Hg'. apply Hgex. by right.
      - intros k' acc' Hk'. rewrite Hsame by done. intros Hr.
        eapply Haex; [by right|done]. }
    exists reduced', h'. split; [done|]. split; [done|]. split; [|split].
    + intros k' Hk'. apply not_elem_of_cons in Hk' as [Hne Hk'].
      rewrite (Hout k' Hk'). by apply lookup_insert_ne.
    + intros t Ht. apply Hframe. intros k' g' Hin'.
      rewrite Hsame by by eapply elem_of_keys. apply (Ht k' g'). by right.
    + intros k' g' [[= -> ->]|Hin']%elem_of_cons.
      * rewrite Hk. rewrite (Hout k Hfresh), lookup_insert_eq. split; [done|].
        apply Hframe. intros k' g' Hin'. rewrite Hsame by by eapply elem_of_keys.
        intros Hr. apply (Hapart k' g); [right; by eapply elem_of_keys|done|by left].
      * specialize (Hin k' g' Hin'). by rewrite Hsame in Hin by by eapply elem_of_keys.
Qed.

(** X24: on tensor objects, when the accumulators of the chunk's keys are
    distinct tensors and none of them is a gradient tensor of the chunk,
    the in-place accumulation adds each gradient into the accumulator of
    its key, in that tensor itself; for a key seen for the first time it
    makes the chunk's own gradient tensor the accumulator, not a copy; it
    creates no tensor and writes into no tensor but the accumulators of
    the chunk's keys.  Read by value, it computes for the keys of the
    chunk what [PipelineStage.accumulate] computes. *)
Theorem accumulate_inplace_unshared items reduced h :
  NoDup items.*1 -> unshared items reduced h ->
  exists reduced' h',
    accumulate_inplace items reduced h = Ok (reduced', h') /\
    length h' = length h /\
    (forall k, k ∉ items.*1 -> reduced' !! k = reduced !! k) /\
    (forall t, (forall k g, (k, g) ∈ items -> reduced !! k <> Some t) ->
               h' !! t = h !! t) /\
    (forall k g, (k, g) ∈ items ->
       match reduced !! k with
       | Some acc =>
           reduced' !! k = Some acc /\
           h' !! acc = (a ← h !! acc; x ← h !! g; Some (torch_add a x))
       | None => reduced' !! k = Some g /\ h' !! g = h !! g
       end) /\
    (forall k, k ∈ items.*1 ->
       values h' reduced' !! k =
       PipelineStage.accumulate torch_add (values h reduced)
         (values h (list_to_map items)) !! k).
Proof.
  intros Hnd Hun.
  destruct (accumulate_inplace_spec items reduced h Hnd Hun)
    as (reduced' & h' & Hrun & Hlen & Hout & Hframe & Hin).
  exists reduced', h'. do 5 (split; [done|]).
  intros k (kg & -> & Hkg)%list_elem_of_fmap. destruct kg as [k g]. cbn.
  rewrite PipelineStage.accumulate_lookup. unfold values. rewrite !lookup_omap.
  rewrite (elem_of_list_to_map_1 items k g Hnd Hkg). cbn.
  assert (g < length h) as Hg by (eapply gradients_exist; [done|by eapply elem_of_vals]).
  destruct (lookup_lt_is_Some_2 h g Hg) as [x Hx]. rewrite Hx.
  specialize (Hin k g Hkg). destruct (reduced !! k) as [acc|] eqn:Hk.
  - destruct Hin as [-> Hv]. cbn. rewrite Hv, Hx.
    assert (acc < length h) as Hacc
      by (eapply accumulators_exist; [done|by eapply elem_of_keys|done]).
    destruct (lookup_lt_is_Some_2 h acc Hacc) as [a Ha]. by rewrite Ha.
  - destruct Hin as [-> Hv]. cbn. by rewrite Hv, Hx.
Qed.

(** The two loops of [backward_compute_one_chunk], on the step gradients
    and then on the output gradients of the chunk, over the same
    tensors. *)
Definition accumulate_both (step_items : list (string * nat))
    (step_reduced : gmap string nat) (output_items : list (string * nat))
    (output_reduced : gmap string nat) (h : list T)
  : result (gmap string nat * gmap string nat * list T) :=
  s ← accumulate_inplace step_items step_reduced h;
  o ← accumulate_inplace output_items output_reduced s.2;
  mret (s.1, o.1, o.2).

End Store.

(** An accumulator holding 5 under ["w.grad"], and a chunk bringing a
    gradient 7 for it in a tensor of its own. *)
Lemma accumulate_inplace_unshared_witness :
  accumulate_inplace Z.add [("w.grad", 1)] {["w.grad" := 0]} [5%Z; 7%Z]
  = Ok ({["w.grad" := 0]}, [12%Z; 7%Z]) /\
  exists reduced' h',
    accumulate_inplace Z.add [("w.grad", 1)] {["w.grad" := 0]} [5%Z; 7%Z]
    = Ok (reduced', h') /\ length h' = 2.
Proof.
  split; [vm_compute; reflexivity|].
  destruct (accumulate_inplace_unshared Z.add [("w.grad", 1)] {["w.grad" := 0]}
              [5%Z; 7%Z]) as (reduced' & h' & Hrun & Hlen & _).
  - apply NoDup_singleton.
  - split.
    + intros k1 k2 acc H1 H2 _ _.
      apply list_elem_of_singleton in H1, H2. cbn in H1, H2. congruence.
    + intros k acc Hk Hr Hm. apply list_elem_of_singleton in Hk, Hm.
      cbn in Hk, Hm. subst k acc. vm_compute in Hr. discriminate.
    + intros g Hg. apply list_elem_of_singleton in Hg. cbn in Hg. subst g. simpl. lia.
    + intros k acc Hk Hr. apply list_elem_of_singleton in Hk. cbn in Hk. subst k.
      vm_compute in Hr. injection Hr as <-. simpl. lia.
  - by exists reduced', h'.
Defined.

(** When the backward callable leaves one tensor both as a step gradient
    and as an output gradient, the two accumulators are that tensor: the
    second chunk (7, after 5) is added into it by each of the two loops,
    and both accumulators read 19, where the sum of the gradients is 12. *)
Lemma shared_gradient_tensor_added_twice :
  accumulate_both Z.add [("w.grad", 0)] ∅ [("p.grad", 0)] ∅ [5%Z; 7%Z]
  = Ok ({["w.grad" := 0]}, {["p.grad" := 0]}, [5%Z; 7%Z]) /\
  accumulate_both Z.add [("w.grad", 1)] {["w.grad" := 0]}
                  [("p.grad", 1)] {["p.grad" := 0]} [5%Z; 7%Z]
  = Ok ({["w.grad" := 0]}, {["p.grad" := 0]}, [19%Z; 7%Z]) /\
  PipelineStage.accumulate Z.add {["w.grad" := 5%Z]} {["w.grad" := 7%Z]}
  = {["w.grad" := 12%Z]}.
Proof. repeat split; vm_compute; reflexivity. Qed.

End GradAccum.
